(** * mymalloc: a first-fit allocator over a static 4096-byte arena

    Shallow embedding of [P1/mymalloc.c], the allocator the project ships,
    and of its first draft [project1-mymalloc/mymalloc.c], followed by the
    properties of the allocator.  Unless the draft is named, a statement is
    about [P1/mymalloc.c].

    Target ABI: LP64, little endian (x86-64).  [size_t] is a 64-bit unsigned
    integer whose arithmetic wraps; [struct chunk] is laid out as
    [size] (8 bytes at offset 0), [allocated] (a 4-byte [int] at offset 8)
    and 4 bytes of padding, so [sizeof(chunk_t) = 16].  A pointer is either
    [NULL] or an address written as its signed distance from [heap.bytes];
    the union holding the arena has a [double] member, so [heap.bytes] is
    8-byte aligned and an address is a multiple of 8 exactly when its
    distance from [heap.bytes] is.

    Addresses are 64 bits wide, and the compiled code adds a header size and
    a size field to an address modulo 2^64: [advance], below.  The sum is
    exact while it stays in the arena or one past its end, and a sum of
    2^64 or more comes round to an offset in the arena again; both are the
    same wherever the arena is loaded.  A sum between the two has left the
    arena: it compares as above the arena here, whereas in a process it is
    above or below the arena according to the load address.  The two loops
    that guard their step ([find_chunk], [find_prev]) stop in either case;
    the statements about the other code are made on arenas whose chunks
    tile them or on runs with given sizes, where no sum leaves the arena,
    or they hold whichever way such a sum compares. *)

From Stdlib Require Import ZArith Lia Bool.
From Stdlib Require Import Strings.Byte.
From stdpp Require Import base numbers list.

Local Open Scope Z_scope.

(** ** Configuration constants *)

Definition MEMLENGTH : Z := 4096.
Definition ALIGNMENT : Z := 8.
Definition MIN_CHUNK_SIZE : Z := 16.
Definition sizeof_chunk : Z := 16.

(** [size_t] arithmetic. *)
Definition SIZE_MOD : Z := 2 ^ 64.
Definition wrap (z : Z) : Z := z mod SIZE_MOD.

(** Address arithmetic: the address [n] bytes after the one at offset
    [off], as an offset again. *)
Definition advance (off n : Z) : Z := wrap (off + n).

(** ** The arena as a byte array *)

Definition byte_val (b : byte) : Z := Z.of_N (Byte.to_N b).
Definition byte_of (z : Z) : byte :=
  match Byte.of_N (Z.to_N (z mod 256)) with
  | Some b => b
  | None => x00
  end.

(** Little-endian load of [n] bytes starting at index [i].  A read past the
    end of the array (undefined in C) yields zero bytes. *)
Fixpoint load (n : nat) (h : list byte) (i : nat) : Z :=
  match n with
  | O => 0
  | S k => match h !! i with
           | Some b => byte_val b
           | None => 0
           end + 256 * load k h (S i)
  end.

(** Little-endian store of the low [n] bytes of [v] at index [i].  A write
    past the end of the array (undefined in C) is dropped. *)
Fixpoint store (n : nat) (h : list byte) (i : nat) (v : Z) : list byte :=
  match n with
  | O => h
  | S k => store k (<[i := byte_of v]> h) (S i) (v / 256)
  end.

(** Field accessors of the [chunk_t] whose header starts [off] bytes into
    the arena. *)
Definition get_size (h : list byte) (off : Z) : Z := load 8 h (Z.to_nat off).
Definition get_allocated (h : list byte) (off : Z) : Z :=
  load 4 h (Z.to_nat (off + 8)).
Definition set_size (h : list byte) (off : Z) (v : Z) : list byte :=
  store 8 h (Z.to_nat off) v.
Definition set_allocated (h : list byte) (off : Z) (v : Z) : list byte :=
  store 4 h (Z.to_nat (off + 8)) v.

(** ** Process state *)

Inductive pointer : Type :=
| NULL
| Ptr (off : Z).

(** Lines written to [stderr]; the text itself is not modelled. *)
Inductive diag : Type :=
| MallocZero
| MallocFailed (size : Z)
| FreeOutOfBounds
| FreeMisaligned
| FreeBadHeader
| FreeDouble
| Leaked (bytes : Z) (objects : Z).

(** Functions that get registered with [atexit]. *)
Inductive handler : Type :=
| LeakDetection.

#[global] Instance handler_eq_dec : EqDecision handler.
Proof. solve_decision. Defined.

Record state : Type := mkState {
  heap : list byte;
  initialized : bool;
  handlers : list handler;
  stderr : list diag
}.

Definition with_heap (st : state) (h : list byte) : state :=
  mkState h (initialized st) (handlers st) (stderr st).
Definition fprintf (st : state) (d : diag) : state :=
  mkState (heap st) (initialized st) (handlers st) (stderr st ++ [d]).
(** [atexit f]: the most recently registered function is called first. *)
Definition atexit (f : handler) (st : state) : state :=
  mkState (heap st) (initialized st) (f :: handlers st) (stderr st).

(** How a process ends: the status, the [atexit] functions that were run
    on the way out, and the state they left. *)
Record exited : Type := mkExited {
  exit_status : Z;
  ran : list handler;
  final : state
}.

(** How a call of [myfree] ends. *)
Inductive outcome : Type :=
| Returned (st : state)
| Exited (e : exited).

(** The state of the process when [main] starts: static storage is zero. *)
Definition initial_state : state :=
  mkState (replicate (Z.to_nat MEMLENGTH) x00) false [] [].

(** Fuel for a chunk walk.  A walk that ends takes no more iterations than
    the arena has offsets for its cursor: the arena does not change during
    a walk, so a cursor that comes to an offset a second time goes round for
    ever. *)
Definition FUEL : nat := Z.to_nat MEMLENGTH.

(** ** Process exit

    [exit(status)]: the functions registered with [atexit] are called, the
    last registered first, then the process ends with [status].  Returning
    from [main] is [exit] with the returned value.  The only function this
    program registers is its leak scan, [leak_detection]. *)
Section Exit.
Variable leak_detection : state -> option state.

Definition run_handler (f : handler) (st : state) : option state :=
  match f with
  | LeakDetection => leak_detection st
  end.

Fixpoint run_handlers (fs : list handler) (st : state) : option state :=
  match fs with
  | [] => Some st
  | f :: fs' =>
    match run_handler f st with
    | Some st' => run_handlers fs' st'
    | None => None
    end
  end.

Definition exit_with (status : Z) (st : state) : option exited :=
  match run_handlers (handlers st) st with
  | Some st' => Some (mkExited status (handlers st) st')
  | None => None
  end.
End Exit.

(** ** Chunks: the arena read from header to header *)

Record chunk : Type := mkChunk {
  c_off : Z;
  c_size : Z;
  c_alloc : Z
}.

Definition read_chunk (h : list byte) (off : Z) : chunk :=
  mkChunk off (get_size h off) (get_allocated h off).

Definition chunk_end (c : chunk) : Z := c_off c + sizeof_chunk + c_size c.
Definition payload (c : chunk) : Z := c_off c + sizeof_chunk.
Definition is_free (c : chunk) : Prop := c_alloc c = 0.
Definition is_allocated (c : chunk) : Prop := c_alloc c <> 0.

#[global] Instance is_free_dec c : Decision (is_free c).
Proof. unfold is_free. apply _. Defined.
#[global] Instance is_allocated_dec c : Decision (is_allocated c).
Proof. unfold is_allocated. apply _. Defined.

(** The chunks met by stepping from header to header, starting [off] bytes
    into the arena, for as long as the header starts inside the arena.  The
    step is the exact sum here.  On an arena that its chunks tile, this is
    the way every loop of the code goes; on any other arena a loop of the
    code, whose step is [advance], may leave it. *)
Fixpoint walk (fuel : nat) (h : list byte) (off : Z) : list chunk :=
  match fuel with
  | O => []
  | S fuel' =>
    if off <? MEMLENGTH then
      let c := read_chunk h off in
      c :: walk fuel' h (chunk_end c)
    else []
  end.

Definition chunks (h : list byte) : list chunk := walk FUEL h 0.

(** The chunks tile the arena: each one starts where the one before it
    ends, the first at the base and the last ending at the capacity. *)
Fixpoint tiles (start : Z) (cs : list chunk) : Prop :=
  match cs with
  | [] => start = MEMLENGTH
  | c :: cs' => c_off c = start /\ tiles (chunk_end c) cs'
  end.

Definition sizes_aligned (cs : list chunk) : Prop :=
  Forall (fun c => c_size c mod ALIGNMENT = 0) cs.

Fixpoint no_adjacent_free (cs : list chunk) : Prop :=
  match cs with
  | c1 :: cs' =>
    match cs' with
    | c2 :: _ => ~ (is_free c1 /\ is_free c2)
    | [] => True
    end /\ no_adjacent_free cs'
  | [] => True
  end.

(** The three invariants of the data model. *)
Definition heap_inv (h : list byte) : Prop :=
  tiles 0 (chunks h) /\ sizes_aligned (chunks h) /\ no_adjacent_free (chunks h).

(** A request fits a chunk that is free and large enough. *)
Definition fits (aligned : Z) (c : chunk) : Prop :=
  is_free c /\ aligned <= c_size c.

(** What a leak report should say about a list of chunks. *)
Definition allocated_count (cs : list chunk) : Z :=
  Z.of_nat (length (filter is_allocated cs)).
Definition allocated_bytes (cs : list chunk) : Z :=
  foldr Z.add 0 (map c_size (filter is_allocated cs)).

(** How many times the leak scan ran while the process was ending. *)
Definition leak_scans (e : exited) : nat :=
  length (filter (fun f => f = LeakDetection) (ran e)).

Definition returned (o : option outcome) : option state :=
  match o with
  | Some (Returned st) => Some st
  | _ => None
  end.

Definition address (p : pointer) : option Z :=
  match p with
  | Ptr off => Some off
  | NULL => None
  end.

(** The client stores one byte into the arena. *)
Definition poke (st : state) (i : Z) (b : byte) : state :=
  with_heap st (<[Z.to_nat i := b]> (heap st)).

(** [i] is a payload byte of a chunk marked allocated. *)
Definition owned (h : list byte) (i : Z) : Prop :=
  exists c, In c (chunks h) /\ is_allocated c /\ payload c <= i < chunk_end c.

(** A pointer the client got from [mymalloc] and has not given back. *)
Definition live (h : list byte) (p : pointer) : Prop :=
  exists c, In c (chunks h) /\ is_allocated c /\ p = Ptr (payload c).

(** ** The allocator, [P1/mymalloc.c] *)

Module P1.

Definition initialize_heap (st : state) : state :=
  let h1 := set_size (heap st) 0 (wrap (MEMLENGTH - sizeof_chunk)) in
  let h2 := set_allocated h1 0 0 in
  atexit LeakDetection (mkState h2 true (handlers st) (stderr st)).

(** The loop of [leak_detection]; [None] when the fuel runs out. *)
Fixpoint leak_loop (fuel : nat) (h : list byte) (current : Z)
    (leak_count leaked_bytes : Z) : option (Z * Z) :=
  match fuel with
  | O => None
  | S fuel' =>
    if current <? MEMLENGTH then
      let '(leak_count', leaked_bytes') :=
        if get_allocated h current =? 0 then (leak_count, leaked_bytes)
        else (leak_count + 1, wrap (leaked_bytes + get_size h current)) in
      let current' := advance current (sizeof_chunk + get_size h current) in
      if current' >=? MEMLENGTH then Some (leak_count', leaked_bytes')
      else leak_loop fuel' h current' leak_count' leaked_bytes'
    else Some (leak_count, leaked_bytes)
  end.

Definition leak_detection (st : state) : option state :=
  match leak_loop FUEL (heap st) 0 0 0 with
  | None => None
  | Some (leak_count, leaked_bytes) =>
    Some (if 0 <? leak_count
          then fprintf st (Leaked leaked_bytes leak_count)
          else st)
  end.

Definition exit : Z -> state -> option exited := exit_with leak_detection.

(** What [dump_heap] prints for one chunk: its number, its address, its
    size, its flag and the address of its payload, the two addresses as
    offsets from the base of the arena. *)
Record dump_line : Type := mkDumpLine {
  d_count : Z;
  d_addr : Z;
  d_size : Z;
  d_allocated : Z;
  d_payload_addr : Z
}.

(** The four bytes of the flag read as the [int] that [%d] prints. *)
Definition as_int (z : Z) : Z := if z <? 2 ^ 31 then z else z - 2 ^ 32.

(** The loop of [dump_heap]: the lines between the two banners, which are
    fixed text; [None] when the fuel runs out. *)
Fixpoint dump_loop (fuel : nat) (h : list byte) (current count : Z)
    : option (list dump_line) :=
  match fuel with
  | O => None
  | S fuel' =>
    if current <? MEMLENGTH then
      let line := mkDumpLine count current (get_size h current)
                             (as_int (get_allocated h current))
                             (current + sizeof_chunk) in
      let current' := advance current (sizeof_chunk + get_size h current) in
      if current' >=? MEMLENGTH then Some [line]
      else match dump_loop fuel' h current' (count + 1) with
           | Some lines => Some (line :: lines)
           | None => None
           end
    else Some []
  end.

Definition dump_heap (st : state) : option (list dump_line) :=
  dump_loop FUEL (heap st) 0 0.

(** [aligned_size] as [mymalloc] computes it from the request. *)
Definition round_up (size : Z) : Z :=
  Z.land (wrap (size + (ALIGNMENT - 1))) (wrap (Z.lnot (ALIGNMENT - 1))).

Definition min_payload : Z := wrap (MIN_CHUNK_SIZE - sizeof_chunk).

Definition aligned_size (size : Z) : Z :=
  let a := round_up size in
  if a <? min_payload then min_payload else a.

(** What [mymalloc] does to the chunk at [current] once it has chosen it. *)
Definition take_chunk (h : list byte) (current aligned : Z) : list byte :=
  let h' :=
    if get_size h current >=? wrap (wrap (aligned + sizeof_chunk) + MIN_CHUNK_SIZE)
    then
      let new_chunk := advance current (sizeof_chunk + aligned) in
      let remaining_size :=
        wrap (wrap (get_size h current - aligned) - sizeof_chunk) in
      let h1 := set_size h new_chunk remaining_size in
      let h2 := set_allocated h1 new_chunk 0 in
      set_size h2 current aligned
    else h in
  set_allocated h' current 1.

(** The search loop of [mymalloc]: the chosen chunk, if any. *)
Fixpoint find_chunk (fuel : nat) (h : list byte) (current aligned : Z)
    : option (option Z) :=
  match fuel with
  | O => None
  | S fuel' =>
    if current <? MEMLENGTH then
      if (get_allocated h current =? 0) && (get_size h current >=? aligned)
      then Some (Some current)
      else
        let next := advance current (sizeof_chunk + get_size h current) in
        if (next <=? current) || (next >=? MEMLENGTH) then Some None
        else find_chunk fuel' h next aligned
    else Some None
  end.

Definition ensure_initialized (st : state) : state :=
  if initialized st then st else initialize_heap st.

Definition mymalloc (st0 : state) (size : Z) : option (pointer * state) :=
  let st := ensure_initialized st0 in
  if size =? 0 then Some (NULL, fprintf st MallocZero)
  else
    let aligned := aligned_size size in
    match find_chunk FUEL (heap st) 0 aligned with
    | None => None
    | Some (Some current) =>
      Some (Ptr (current + sizeof_chunk),
            with_heap st (take_chunk (heap st) current aligned))
    | Some None => Some (NULL, fprintf st (MallocFailed size))
    end.

(** The scan of [myfree] for the chunk that ends where [chunk] starts. *)
Fixpoint find_prev (fuel : nat) (h : list byte) (chunk scan : Z)
    : option (option Z) :=
  match fuel with
  | O => None
  | S fuel' =>
    if negb (scan =? chunk) && (scan <? MEMLENGTH) then
      let next_scan := advance scan (sizeof_chunk + get_size h scan) in
      if next_scan =? chunk then Some (Some scan)
      else if (next_scan <=? scan) || (next_scan >=? MEMLENGTH) then Some None
      else find_prev fuel' h chunk next_scan
    else Some None
  end.

(** [myfree] from the point where the chunk has passed every check: the
    chunk is marked free and takes in the chunk after it if that is free, *)
Definition coalesce_forward (h : list byte) (chunk : Z) : list byte :=
  let h1 := set_allocated h chunk 0 in
  let next := advance chunk (sizeof_chunk + get_size h1 chunk) in
  if (next <? MEMLENGTH) && (get_allocated h1 next =? 0)
  then set_size h1 chunk
         (wrap (get_size h1 chunk + wrap (sizeof_chunk + get_size h1 next)))
  else h1.

(** then the chunk before it, found by a scan from the base, takes it in
    if that one is free. *)
Definition coalesce_backward (h : list byte) (chunk : Z) : option (list byte) :=
  match find_prev FUEL h chunk 0 with
  | None => None
  | Some (Some prev) =>
    Some (if get_allocated h prev =? 0
          then set_size h prev
                 (wrap (get_size h prev
                        + wrap (sizeof_chunk + get_size h chunk)))
          else h)
  | Some None => Some h
  end.

Definition release (h : list byte) (chunk : Z) : option (list byte) :=
  coalesce_backward (coalesce_forward h chunk) chunk.

Definition fatal (st : state) (d : diag) : option outcome :=
  match exit 2 (fprintf st d) with
  | Some e => Some (Exited e)
  | None => None
  end.

Definition myfree (st : state) (ptr : pointer) : option outcome :=
  match ptr with
  | NULL => Some (Returned st)
  | Ptr p =>
    if (p <? 0) || (p >=? MEMLENGTH) then fatal st FreeOutOfBounds
    else if negb (p mod ALIGNMENT =? 0) then fatal st FreeMisaligned
    else
      let chunk := p - sizeof_chunk in
      if (chunk <? 0)
         || (advance chunk (sizeof_chunk + get_size (heap st) chunk)
             >? MEMLENGTH)
         || (get_size (heap st) chunk =? 0)
         || negb (get_size (heap st) chunk mod ALIGNMENT =? 0)
      then fatal st FreeBadHeader
      else if get_allocated (heap st) chunk =? 0 then fatal st FreeDouble
      else
        match release (heap st) chunk with
        | Some h' => Some (Returned (with_heap st h'))
        | None => None
        end
  end.

(** What a client can do between two states of a running process: call
    [mymalloc], call [myfree] and come back, or write to memory it owns. *)
Inductive step : state -> state -> Prop :=
| step_malloc st size p st' :
    0 <= size < SIZE_MOD ->
    mymalloc st size = Some (p, st') -> step st st'
| step_free st p st' :
    myfree st p = Some (Returned st') -> step st st'
| step_poke st i b :
    owned (heap st) i -> step st (poke st i b).

Inductive reachable : state -> Prop :=
| reach_start : reachable initial_state
| reach_step st st' : reachable st -> step st st' -> reachable st'.

(** The same for a client that only ever frees [NULL] or live pointers. *)
Inductive fair_step : state -> state -> Prop :=
| fair_malloc st size p st' :
    0 <= size < SIZE_MOD ->
    mymalloc st size = Some (p, st') -> fair_step st st'
| fair_free_null st st' :
    myfree st NULL = Some (Returned st') -> fair_step st st'
| fair_free st p st' :
    live (heap st) p ->
    myfree st p = Some (Returned st') -> fair_step st st'
| fair_poke st i b :
    owned (heap st) i -> fair_step st (poke st i b).

Inductive fair_reachable : state -> Prop :=
| fair_start : fair_reachable initial_state
| fair_more st st' : fair_reachable st -> fair_step st st' -> fair_reachable st'.

End P1.

(** ** The first draft, [project1-mymalloc/mymalloc.c] *)

Module Draft.

Definition initialize_heap (st : state) : state :=
  let h1 := set_size (heap st) 0 (wrap (MEMLENGTH - sizeof_chunk)) in
  let h2 := set_allocated h1 0 0 in
  atexit LeakDetection (mkState h2 true (handlers st) (stderr st)).

(** The loops of the draft test their cursor at the top only, so that they
    take one step more than those of the final version to see that a walk
    has ended: they are given [S FUEL]. *)
Fixpoint leak_loop (fuel : nat) (h : list byte) (chunk : Z)
    (leak_counter leaked_bytes : Z) : option (Z * Z) :=
  match fuel with
  | O => None
  | S fuel' =>
    if chunk <? MEMLENGTH then
      let '(leak_counter', leaked_bytes') :=
        if get_allocated h chunk =? 0 then (leak_counter, leaked_bytes)
        else (leak_counter + 1, wrap (leaked_bytes + get_size h chunk)) in
      leak_loop fuel' h (advance chunk (sizeof_chunk + get_size h chunk))
                leak_counter' leaked_bytes'
    else Some (leak_counter, leaked_bytes)
  end.

Definition leak_detection (st : state) : option state :=
  match leak_loop (S FUEL) (heap st) 0 0 0 with
  | None => None
  | Some (leak_counter, leaked_bytes) =>
    Some (if 0 <? leak_counter
          then fprintf st (Leaked leaked_bytes leak_counter)
          else st)
  end.

Definition exit : Z -> state -> option exited := exit_with leak_detection.

Definition ensure_initialized (st : state) : state :=
  if initialized st then st else initialize_heap st.

Definition aligned_size (size : Z) : Z :=
  let a := Z.land (wrap (size + (ALIGNMENT - 1)))
                  (wrap (Z.lnot (ALIGNMENT - 1))) in
  if a <? wrap (MIN_CHUNK_SIZE - sizeof_chunk)
  then wrap (MIN_CHUNK_SIZE - sizeof_chunk) else a.

(** The search loop: where the cursor is when the loop is left. *)
Fixpoint find_chunk (fuel : nat) (h : list byte) (chunk aligned : Z)
    : option Z :=
  match fuel with
  | O => None
  | S fuel' =>
    if chunk <? MEMLENGTH then
      if (get_allocated h chunk =? 0) && (get_size h chunk >=? aligned)
      then Some chunk
      else find_chunk fuel' h (advance chunk (sizeof_chunk + get_size h chunk))
                      aligned
    else Some chunk
  end.

Definition take_chunk (h : list byte) (chunk aligned : Z) : list byte :=
  if get_size h chunk >=? wrap (wrap (aligned + sizeof_chunk) + MIN_CHUNK_SIZE)
  then
    let new_chunk := advance chunk (sizeof_chunk + aligned) in
    let h1 := set_size h new_chunk
                (wrap (wrap (get_size h chunk - sizeof_chunk) - aligned)) in
    let h2 := set_allocated h1 new_chunk 0 in
    let h3 := set_size h2 chunk aligned in
    set_allocated h3 chunk 1
  else set_allocated h chunk 1.

Definition mymalloc (st0 : state) (size : Z) : option (pointer * state) :=
  let st := ensure_initialized st0 in
  if size =? 0 then Some (NULL, fprintf st MallocZero)
  else
    let aligned := aligned_size size in
    match find_chunk (S FUEL) (heap st) 0 aligned with
    | None => None
    | Some chunk =>
      if chunk >=? MEMLENGTH then Some (NULL, fprintf st (MallocFailed size))
      else Some (Ptr (chunk + sizeof_chunk),
                 with_heap st (take_chunk (heap st) chunk aligned))
    end.

Fixpoint find_prev (fuel : nat) (h : list byte) (header scan : Z)
    : option (option Z) :=
  match fuel with
  | O => None
  | S fuel' =>
    if (scan <? header) && (scan <? MEMLENGTH) then
      if advance scan (get_size h scan) =? header then Some (Some scan)
      else find_prev fuel' h header (advance scan (get_size h scan))
    else Some None
  end.

(** The first half of [release], below: the chunk is marked free and takes
    in the chunk after it if that is free. *)
Definition forward_step (h : list byte) (header : Z) : list byte :=
  let h1 := set_allocated h header 0 in
  let next_chunk := advance header (sizeof_chunk + get_size h1 header) in
  if (next_chunk <? MEMLENGTH) && (get_allocated h1 next_chunk =? 0)
  then set_size h1 header
         (wrap (get_size h1 header
                + wrap (sizeof_chunk + get_size h1 next_chunk)))
  else h1.

Definition release (h : list byte) (header : Z) : option (list byte) :=
  let h1 := set_allocated h header 0 in
  let next_chunk := advance header (sizeof_chunk + get_size h1 header) in
  let h2 :=
    if (next_chunk <? MEMLENGTH) && (get_allocated h1 next_chunk =? 0)
    then set_size h1 header
           (wrap (get_size h1 header
                  + wrap (sizeof_chunk + get_size h1 next_chunk)))
    else h1 in
  match find_prev (S FUEL) h2 header 0 with
  | None => None
  | Some (Some prev_chunk) =>
    Some (if get_allocated h2 prev_chunk =? 0
          then set_size h2 prev_chunk
                 (wrap (get_size h2 prev_chunk + get_size h2 header))
          else h2)
  | Some None => Some h2
  end.

Definition fatal (st : state) (d : diag) : option outcome :=
  match exit 2 (fprintf st d) with
  | Some e => Some (Exited e)
  | None => None
  end.

Definition myfree (st0 : state) (ptr : pointer) : option outcome :=
  let st := ensure_initialized st0 in
  match ptr with
  | NULL => Some (Returned st)
  | Ptr p =>
    if (p <? 0) || (p >=? MEMLENGTH) then fatal st FreeOutOfBounds
    else if negb (p mod 8 =? 0) then fatal st FreeMisaligned
    else
      let header := p - sizeof_chunk in
      if (header <? 0)
         || (header >=? MEMLENGTH)
         || (get_size (heap st) header <=? 0)
         || negb (get_size (heap st) header mod 8 =? 0)
         || (get_size (heap st) header >? MEMLENGTH)
      then fatal st FreeBadHeader
      else if get_allocated (heap st) header =? 0 then fatal st FreeDouble
      else
        match release (heap st) header with
        | Some h' => Some (Returned (with_heap st h'))
        | None => None
        end
  end.

End Draft.

(** ** Client runs used below *)

(** A series of [mymalloc] calls. *)
Fixpoint mallocs (st : state) (sizes : list Z) : option (list pointer * state) :=
  match sizes with
  | [] => Some ([], st)
  | size :: sizes' =>
    '(p, st1) ← P1.mymalloc st size;
    '(ps, st2) ← mallocs st1 sizes';
    Some (p :: ps, st2)
  end.

(** [p = malloc(1); free(p); q = malloc(16);] and the arena is left with an
    allocated chunk of payload 16 at the base, followed by one free chunk. *)
Definition before_stray_free : option (Z * state) :=
  '(p, s1) ← P1.mymalloc initial_state 1;
  s2 ← returned (P1.myfree s1 p);
  '(q, s3) ← P1.mymalloc s2 16;
  qa ← address q;
  Some (qa, s3).

(** ... then [free((char * )q + 24)], an address 8 bytes into the header of
    the chunk that follows the one [q] points into. *)
Definition stray_free : option state :=
  '(qa, s3) ← before_stray_free;
  returned (P1.myfree s3 (Ptr (qa + 24))).

(** The client stores the bytes [bs] at the offsets from [i] on. *)
Fixpoint pokes (st : state) (i : Z) (bs : list byte) : state :=
  match bs with
  | [] => st
  | b :: bs' => pokes (poke st i b) (i + 1) bs'
  end.

(** [p = malloc(64)]; the client then writes into its block: the eight
    bytes of the number [2^64 - 8] at [p], and a non-zero byte at [p + 8].
    Read as a header at [p], that is a chunk of size [2^64 - 8] that is
    marked allocated. *)
Definition wrapping_header : option (Z * state) :=
  '(p, s1) ← P1.mymalloc initial_state 64;
  pa ← address p;
  Some (pa, poke (pokes s1 pa [xf8; xff; xff; xff; xff; xff; xff; xff])
                 (pa + 8) x01).

(** [p1 = malloc(48); p2 = malloc(8); free(p1);] leaves a free chunk of
    payload 48 at the base of the arena. *)
Definition hole_of_48 : option state :=
  '(p1, s1) ← P1.mymalloc initial_state 48;
  '(p2, s2) ← P1.mymalloc s1 8;
  returned (P1.myfree s2 p1).

(** [p = malloc(8); free(p);] and the pointer that was freed. *)
Definition freed_once : option (pointer * state) :=
  '(p, s1) ← P1.mymalloc initial_state 8;
  s2 ← returned (P1.myfree s1 p);
  Some (p, s2).

(** The state after five [malloc(32)] and no [free]. *)
Definition five_leaks : state :=
  match mallocs initial_state [32; 32; 32; 32; 32] with
  | Some (_, st) => st
  | None => initial_state
  end.

(** [p = malloc(4080)] on the first draft takes the whole arena; the client
    then writes, into the last 24 bytes of its payload, a size of 16 at
    offset 4072 and a non-zero word at offset 4080. *)
Definition forged_tail : state :=
  match Draft.mymalloc initial_state 4080 with
  | Some (_, st) => poke (poke st 4072 x10) 4080 x01
  | None => initial_state
  end.

(** A series of [myfree] calls, cut short by the first one that ends the
    process. *)
Fixpoint frees (st : state) (ptrs : list pointer) : option outcome :=
  match ptrs with
  | [] => Some (Returned st)
  | p :: ptrs' =>
    match P1.myfree st p with
    | Some (Returned st1) => frees st1 ptrs'
    | o => o
    end
  end.

(** ** The workloads of [P1/memgrind.c] that only call the allocator *)

Module Memgrind.

(** [test_workload1]: [malloc(1)] and [free] of the result, [n] times. *)
Fixpoint workload1_loop (n : nat) (st : state) : option outcome :=
  match n with
  | O => Some (Returned st)
  | S n' =>
    match P1.mymalloc st 1 with
    | None => None
    | Some (ptr, st1) =>
      match P1.myfree st1 ptr with
      | Some (Returned st2) => workload1_loop n' st2
      | o => o
      end
    end
  end.

Definition test_workload1 (st : state) : option outcome :=
  workload1_loop 120 st.

(** [test_workload2]: 120 times [malloc(1)] into [ptrs], then [free] of
    every entry of [ptrs] in the same order. *)
Definition test_workload2 (st : state) : option outcome :=
  match mallocs st (replicate 120 1) with
  | None => None
  | Some (ptrs, st1) => frees st1 ptrs
  end.

End Memgrind.

(** ** Tests of [P1/validation_test.c] that only call the allocator *)

Module Validation.

(** The line that [test_memory_reuse] ends on. *)
Inductive reuse_line : Type :=
| NoInitialBlock
| NoSecondBlock
| ReusePassed
| ReuseWarning.

(** [test_memory_reuse]; no line when [free] ends the process. *)
Definition test_memory_reuse (st : state)
    : option (outcome * option reuse_line) :=
  match P1.mymalloc st 128 with
  | None => None
  | Some (NULL, st1) => Some (Returned st1, Some NoInitialBlock)
  | Some (Ptr ptr1, st1) =>
    match P1.myfree st1 (Ptr ptr1) with
    | None => None
    | Some (Exited e) => Some (Exited e, None)
    | Some (Returned st2) =>
      match P1.mymalloc st2 128 with
      | None => None
      | Some (NULL, st3) => Some (Returned st3, Some NoSecondBlock)
      | Some (Ptr ptr2, st3) =>
        if ptr1 =? ptr2 then Some (Returned st3, Some ReusePassed)
        else
          match P1.myfree st3 (Ptr ptr2) with
          | None => None
          | Some o => Some (o, Some ReuseWarning)
          end
      end
    end
  end.

Definition SIZES : list Z := [1; 7; 13; 32; 99].

(** The loop of [test_alignment], [n] rounds from round [i] on, with the
    count of failures so far.  The test takes the address modulo 8; the
    arena starts at a multiple of 8, so that is the offset modulo 8. *)
Fixpoint alignment_loop (n : nat) (i : Z) (st : state) (failures : Z)
    : option (outcome * Z) :=
  match n with
  | O => Some (Returned st, failures)
  | S n' =>
    let size := nth (Z.to_nat (i mod 5)) SIZES 0 in
    match P1.mymalloc st size with
    | None => None
    | Some (NULL, st1) => alignment_loop n' (i + 1) st1 failures
    | Some (Ptr addr, st1) =>
      let failures' :=
        if addr mod 8 =? 0 then failures else failures + 1 in
      match P1.myfree st1 (Ptr addr) with
      | None => None
      | Some (Exited e) => Some (Exited e, failures')
      | Some (Returned st2) => alignment_loop n' (i + 1) st2 failures'
      end
    end
  end.

Definition test_alignment (st : state) : option (outcome * Z) :=
  alignment_loop 20 0 st 0.

End Validation.

(** ** Tests of [P1/error_test.c] that start from a block of the arena *)

Module ErrorTest.

(** [test_free_offset_pointer]: [p] points to [int], 4 bytes wide, so the
    request is for 40 bytes and [p + 1] is the address 4 bytes into the
    block.  Where [free(p + 1)] comes back, the test frees [p]. *)
Definition test_free_offset_pointer (st : state) : option outcome :=
  match P1.mymalloc st 40 with
  | None => None
  | Some (NULL, st1) => Some (Returned st1)
  | Some (Ptr p, st1) =>
    match P1.myfree st1 (Ptr (p + 4)) with
    | Some (Returned st2) => P1.myfree st2 (Ptr p)
    | o => o
    end
  end.

(** [test_double_free]. *)
Definition test_double_free (st : state) : option outcome :=
  match P1.mymalloc st 40 with
  | None => None
  | Some (NULL, st1) => Some (Returned st1)
  | Some (Ptr p, st1) =>
    match P1.myfree st1 (Ptr p) with
    | Some (Returned st2) => P1.myfree st2 (Ptr p)
    | o => o
    end
  end.

End ErrorTest.

(** The state a call leaves when it comes back, for naming the states of a
    run. *)
Definition after_malloc (st : state) (size : Z) : state :=
  match P1.mymalloc st size with
  | Some (_, st') => st'
  | None => st
  end.

Definition after_free (st : state) (p : pointer) : state :=
  match P1.myfree st p with
  | Some (Returned st') => st'
  | _ => st
  end.

(** The state after [malloc(8)], and after the [free] of its block. *)
Definition one_block : state := after_malloc initial_state 8.
Definition one_block_freed : state := after_free one_block (Ptr 16).

(** ** The second workload of [project1-mymalloc/memgrind.c] *)

Module DraftMemgrind.

(** [n] times [malloc(1)], the results in the order of the calls. *)
Fixpoint mallocs (st : state) (n : nat) : option (list pointer * state) :=
  match n with
  | O => Some ([], st)
  | S n' =>
    match Draft.mymalloc st 1 with
    | None => None
    | Some (p, st1) =>
      match mallocs st1 n' with
      | None => None
      | Some (ps, st2) => Some (p :: ps, st2)
      end
    end
  end.

Fixpoint frees (st : state) (ptrs : list pointer) : option outcome :=
  match ptrs with
  | [] => Some (Returned st)
  | p :: ptrs' =>
    match Draft.myfree st p with
    | Some (Returned st1) => frees st1 ptrs'
    | o => o
    end
  end.

Definition test_workload2 (st : state) : option outcome :=
  match mallocs st 120 with
  | None => None
  | Some (ptrs, st1) => frees st1 ptrs
  end.

(** The state in [test_workload2] when the first [free] has come back,
    and the pointer that the second is handed, given what the [malloc]
    calls left. *)
Definition first_freed (r : option (list pointer * state)) : state :=
  match r with
  | Some (ptrs, st1) =>
    match Draft.myfree st1 (hd NULL ptrs) with
    | Some (Returned st2) => st2
    | _ => initial_state
    end
  | None => initial_state
  end.

Definition second_of (r : option (list pointer * state)) : pointer :=
  match r with
  | Some (ptrs, _) => nth 1 ptrs NULL
  | None => NULL
  end.

(** The two for a fresh process. *)
Definition after_first_free : state := first_freed (mallocs initial_state 120).
Definition second_pointer : pointer := second_of (mallocs initial_state 120).

End DraftMemgrind.

(** ** Vocabulary of the proofs *)

(** Fuel that is enough for a walk whose cursor is at [cur]. *)
Definition enough (fuel : nat) (cur : Z) : Prop :=
  (0 < fuel)%nat /\ (cur < MEMLENGTH -> MEMLENGTH - cur <= Z.of_nat fuel).

(** The checks [myfree] makes on a non-null pointer before it frees. *)
Definition accepted (h : list byte) (p : Z) : Prop :=
  0 <= p < MEMLENGTH
  /\ p mod ALIGNMENT = 0
  /\ 0 <= p - sizeof_chunk
  /\ advance (p - sizeof_chunk) (sizeof_chunk + get_size h (p - sizeof_chunk))
     <= MEMLENGTH
  /\ get_size h (p - sizeof_chunk) <> 0
  /\ get_size h (p - sizeof_chunk) mod ALIGNMENT = 0
  /\ get_allocated h (p - sizeof_chunk) <> 0.

(** The leak scan is registered exactly when the arena is initialized. *)
Definition registered_once (st : state) : Prop :=
  handlers st = if initialized st then [LeakDetection] else [].

(** The state a call of [myfree] leaves, however it ends. *)
Definition state_after (o : outcome) : state :=
  match o with
  | Returned st => st
  | Exited e => final e
  end.

(** [cs] is the chain of chunks that leads from offset [a] to offset [b]
    in the arena [h]. *)
Fixpoint seg (h : list byte) (a : Z) (cs : list chunk) (b : Z) : Prop :=
  match cs with
  | [] => a = b
  | c :: cs' => c = read_chunk h a /\ 0 <= a /\ seg h (chunk_end c) cs' b
  end.

(** The headers that lie wholly below [lo] or at and above [hi] read the
    same in [h'] as in [h]. *)
Definition same_headers (h h' : list byte) (lo hi : Z) : Prop :=
  forall off, 0 <= off -> off + sizeof_chunk <= lo \/ hi <= off ->
              read_chunk h' off = read_chunk h off.

(** The chunks that take the place of a free chunk [c] when [mymalloc]
    hands it out for a padded size of [aligned]. *)
Definition allocate_in (aligned : Z) (c : chunk) : list chunk :=
  if aligned + sizeof_chunk + MIN_CHUNK_SIZE <=? c_size c
  then [mkChunk (c_off c) aligned 1;
        mkChunk (c_off c + sizeof_chunk + aligned)
                (c_size c - aligned - sizeof_chunk) 0]
  else [mkChunk (c_off c) (c_size c) 1].

(** The arena has its size and, once initialized, is tiled by its chunks. *)
Definition arena_ok (st : state) : Prop :=
  length (heap st) = Z.to_nat MEMLENGTH
  /\ (initialized st = true -> tiles 0 (chunks (heap st))).

(** The arena has its size and, once initialized, the invariants hold. *)
Definition state_inv (st : state) : Prop :=
  length (heap st) = Z.to_nat MEMLENGTH
  /\ (initialized st = true -> heap_inv (heap st)).

(** What holds of every state of a run in which [myfree] is only handed
    null or live pointers. *)
Definition fair_inv (st : state) : Prop :=
  length (heap st) = Z.to_nat MEMLENGTH
  /\ if initialized st then heap_inv (heap st)
     else heap st = heap initial_state.

(** What [myfree] makes of the chunk list when it frees the chunk [c] that
    has the chunks [pre] before it and [post] after it: [c] becomes free
    and takes in the chunk after it if that is free, *)
Definition absorb_next (c : chunk) (post : list chunk) : chunk * list chunk :=
  match post with
  | n :: post' =>
    if c_alloc n =? 0
    then (mkChunk (c_off c) (c_size c + sizeof_chunk + c_size n) 0, post')
    else (mkChunk (c_off c) (c_size c) 0, post)
  | [] => (mkChunk (c_off c) (c_size c) 0, [])
  end.

(** then the last chunk of [pre] takes in the result if it is free. *)
Fixpoint join_prev (pre : list chunk) (c' : chunk) (rest : list chunk)
    : list chunk :=
  match pre with
  | [] => c' :: rest
  | p :: pre' =>
    match pre' with
    | [] =>
      if c_alloc p =? 0
      then mkChunk (c_off p) (c_size p + sizeof_chunk + c_size c') 0 :: rest
      else p :: c' :: rest
    | _ :: _ => p :: join_prev pre' c' rest
    end
  end.

Definition free_in (pre : list chunk) (c : chunk) (post : list chunk)
    : list chunk :=
  let '(c', rest) := absorb_next c post in join_prev pre c' rest.

(** The blocks that are handed out: payload address and payload size of
    every allocated chunk, in address order. *)
Definition allocations (cs : list chunk) : list (Z * Z) :=
  map (fun c => (payload c, c_size c)) (filter is_allocated cs).

(** The state is initialized and well formed, and the blocks handed out
    are those at the addresses [addrs], each with a payload of at least one
    byte. *)
Definition tracked (st : state) (addrs : list Z) : Prop :=
  length (heap st) = Z.to_nat MEMLENGTH
  /\ initialized st = true
  /\ heap_inv (heap st)
  /\ Permutation (map fst (allocations (chunks (heap st)))) addrs
  /\ Forall (fun e => 0 < snd e) (allocations (chunks (heap st))).

(** * Properties *)

(** ** Bytes, loads and stores *)

Lemma byte_val_bound (b : byte) : 0 <= byte_val b < 256.
Proof.
  unfold byte_val. pose proof (Byte.to_N_bounded b). lia.
Qed.

Lemma byte_val_of (z : Z) : byte_val (byte_of z) = z mod 256.
Proof.
  unfold byte_val, byte_of.
  assert (Hr : 0 <= z mod 256 < 256) by (apply Z.mod_pos_bound; lia).
  destruct (Byte.of_N (Z.to_N (z mod 256))) as [b|] eqn:E.
  - apply Byte.to_of_N in E. rewrite E. lia.
  - apply Byte.of_N_None_iff in E. lia.
Qed.

Lemma load_bound (n : nat) (h : list byte) (i : nat) :
  0 <= load n h i < 256 ^ Z.of_nat n.
Proof.
  revert i. induction n as [|n IH]; intros i.
  - simpl. lia.
  - rewrite Nat2Z.inj_succ, Z.pow_succ_r by lia.
    cbn [load]. specialize (IH (S i)).
    assert (Hb : 0 <= match h !! i with Some b => byte_val b | None => 0 end < 256).
    { destruct (h !! i) as [b|]; [apply byte_val_bound | lia]. }
    lia.
Qed.

Lemma length_store (n : nat) (h : list byte) (i : nat) (v : Z) :
  length (store n h i v) = length h.
Proof.
  revert h i v. induction n as [|n IH]; intros h i v; cbn [store].
  - reflexivity.
  - rewrite IH. apply length_insert.
Qed.

Lemma lookup_store_outside (n : nat) (h : list byte) (i : nat) (v : Z) (j : nat) :
  (j < i \/ i + n <= j)%nat -> store n h i v !! j = h !! j.
Proof.
  revert h i v. induction n as [|n IH]; intros h i v Hj; cbn [store].
  - reflexivity.
  - rewrite IH by lia. apply list_lookup_insert_ne. lia.
Qed.

Lemma load_ext (n : nat) (h h' : list byte) (i : nat) :
  (forall j, (i <= j < i + n)%nat -> h' !! j = h !! j) ->
  load n h' i = load n h i.
Proof.
  revert i. induction n as [|n IH]; intros i Hagree; cbn [load].
  - reflexivity.
  - rewrite (Hagree i) by lia. rewrite IH; [reflexivity|].
    intros j Hj. apply Hagree. lia.
Qed.

Lemma load_store_other (n n' : nat) (h : list byte) (i i' : nat) (v : Z) :
  (i' + n' <= i \/ i + n <= i')%nat ->
  load n' (store n h i v) i' = load n' h i'.
Proof.
  intros Hd. apply load_ext. intros j Hj.
  apply lookup_store_outside. lia.
Qed.

Lemma load_store_same (n : nat) (h : list byte) (i : nat) (v : Z) :
  (i + n <= length h)%nat ->
  load n (store n h i v) i = v mod 256 ^ Z.of_nat n.
Proof.
  revert h i v. induction n as [|n IH]; intros h i v Hlen.
  - simpl. symmetry. apply Z.mod_1_r.
  - cbn [load store].
    rewrite lookup_store_outside by lia.
    rewrite list_lookup_insert_eq by lia.
    rewrite IH by (rewrite length_insert; lia).
    rewrite byte_val_of.
    rewrite Nat2Z.inj_succ, Z.pow_succ_r by lia.
    rewrite Z.rem_mul_r by lia. reflexivity.
Qed.

(** ** Header fields *)

Lemma get_size_bound h off : 0 <= get_size h off < SIZE_MOD.
Proof. unfold get_size. apply (load_bound 8). Qed.

Lemma get_allocated_bound h off : 0 <= get_allocated h off < 2 ^ 32.
Proof. unfold get_allocated. apply (load_bound 4). Qed.

Lemma length_set_size h off v : length (set_size h off v) = length h.
Proof. apply length_store. Qed.

Lemma length_set_allocated h off v : length (set_allocated h off v) = length h.
Proof. apply length_store. Qed.

Lemma wrap_small z : 0 <= z < SIZE_MOD -> wrap z = z.
Proof. intros H. unfold wrap. apply Z.mod_small. exact H. Qed.

Lemma wrap_bound z : 0 <= wrap z < SIZE_MOD.
Proof. unfold wrap. apply Z.mod_pos_bound. reflexivity. Qed.

Lemma advance_small off n :
  0 <= off + n < SIZE_MOD -> advance off n = off + n.
Proof. apply wrap_small. Qed.

Lemma advance_bound off n : 0 <= advance off n < SIZE_MOD.
Proof. apply wrap_bound. Qed.

(** A sum that stays in the arena or one past its end is exact. *)
Lemma advance_inside off n :
  0 <= off -> 0 <= n -> off + n <= MEMLENGTH -> advance off n = off + n.
Proof.
  intros. apply advance_small. unfold SIZE_MOD, MEMLENGTH in *. lia.
Qed.

Lemma get_size_set_size h off v :
  0 <= off -> off + 8 <= Z.of_nat (length h) -> 0 <= v < SIZE_MOD ->
  get_size (set_size h off v) off = v.
Proof.
  intros Hoff Hlen Hv. unfold get_size, set_size.
  rewrite load_store_same by lia. apply Z.mod_small. exact Hv.
Qed.

Lemma get_allocated_set_allocated h off v :
  0 <= off -> off + 12 <= Z.of_nat (length h) -> 0 <= v < 2 ^ 32 ->
  get_allocated (set_allocated h off v) off = v.
Proof.
  intros Hoff Hlen Hv. unfold get_allocated, set_allocated.
  rewrite load_store_same by lia. apply Z.mod_small. exact Hv.
Qed.

Lemma get_size_set_allocated h off v off' :
  0 <= off -> 0 <= off' -> off' + 8 <= off + 8 \/ off + 12 <= off' ->
  get_size (set_allocated h off v) off' = get_size h off'.
Proof.
  intros Hoff Hoff' Hd. unfold get_size, set_allocated.
  apply load_store_other. lia.
Qed.

Lemma get_allocated_set_size h off v off' :
  0 <= off -> 0 <= off' -> off' + 12 <= off \/ off + 8 <= off' + 8 ->
  get_allocated (set_size h off v) off' = get_allocated h off'.
Proof.
  intros Hoff Hoff' Hd. unfold get_allocated, set_size.
  apply load_store_other. lia.
Qed.

Lemma get_size_set_size_other h off v off' :
  0 <= off -> 0 <= off' -> off' + 8 <= off \/ off + 8 <= off' ->
  get_size (set_size h off v) off' = get_size h off'.
Proof.
  intros Hoff Hoff' Hd. unfold get_size, set_size.
  apply load_store_other. lia.
Qed.

Lemma get_allocated_set_allocated_other h off v off' :
  0 <= off -> 0 <= off' -> off' + 4 <= off \/ off + 4 <= off' ->
  get_allocated (set_allocated h off v) off' = get_allocated h off'.
Proof.
  intros Hoff Hoff' Hd. unfold get_allocated, set_allocated.
  apply load_store_other. lia.
Qed.

(** ** Rounding a request up to the alignment *)

Lemma land_clear_low3 (x : Z) :
  0 <= x < SIZE_MOD -> Z.land x (wrap (Z.lnot (ALIGNMENT - 1))) = 8 * (x / 8).
Proof.
  intros Hx.
  change (wrap (Z.lnot (ALIGNMENT - 1))) with (Z.land (Z.ones 64) (Z.lnot (Z.ones 3))).
  rewrite Z.land_assoc, Z.land_ones by lia.
  change (2 ^ 64) with SIZE_MOD. rewrite Z.mod_small by exact Hx.
  rewrite <- Z.ldiff_land, Z.ldiff_ones_r by lia.
  rewrite Z.shiftr_div_pow2, Z.shiftl_mul_pow2 by lia.
  change (2 ^ 3) with 8. lia.
Qed.

Lemma round_up_eq (size : Z) :
  0 <= size <= SIZE_MOD - ALIGNMENT ->
  P1.round_up size = 8 * ((size + 7) / 8).
Proof.
  intros Hs. unfold P1.round_up.
  change (ALIGNMENT - 1) with 7 in *. change ALIGNMENT with 8 in Hs.
  rewrite (wrap_small (size + 7)) by (unfold SIZE_MOD in *; lia).
  apply land_clear_low3. unfold SIZE_MOD in *. lia.
Qed.

Lemma aligned_size_round_up (size : Z) : P1.aligned_size size = P1.round_up size.
Proof.
  unfold P1.aligned_size. change P1.min_payload with 0.
  destruct (P1.round_up size <? 0) eqn:E; [|reflexivity].
  apply Z.ltb_lt in E. unfold P1.round_up in E.
  pose proof (wrap_bound (size + (ALIGNMENT - 1))) as Hb.
  assert (0 <= Z.land (wrap (size + (ALIGNMENT - 1))) (wrap (Z.lnot (ALIGNMENT - 1)))).
  { apply Z.land_nonneg. left. lia. }
  lia.
Qed.

(** Away from the top of the range of [size_t], the padded size is the
    least multiple of the alignment that is not below the request. *)
Lemma aligned_size_least_multiple (size : Z) :
  0 < size <= SIZE_MOD - ALIGNMENT ->
  P1.aligned_size size mod ALIGNMENT = 0
  /\ size <= P1.aligned_size size < size + ALIGNMENT
  /\ forall m, m mod ALIGNMENT = 0 -> size <= m -> P1.aligned_size size <= m.
Proof.
  intros Hs. rewrite aligned_size_round_up, round_up_eq by lia.
  change ALIGNMENT with 8 in *.
  pose proof (Z.div_mod (size + 7) 8 ltac:(lia)) as Hq.
  pose proof (Z.mod_pos_bound (size + 7) 8 ltac:(lia)) as Hr.
  repeat split.
  - rewrite Z.mul_comm. apply Z.mod_mul. lia.
  - lia.
  - lia.
  - intros m Hm Hle.
    pose proof (Z.div_mod m 8 ltac:(lia)) as Hm'. rewrite Hm in Hm'.
    lia.
Qed.

(** Whatever the request, the padded size is a multiple of the alignment. *)
Lemma aligned_size_multiple (size : Z) : P1.aligned_size size mod ALIGNMENT = 0.
Proof.
  rewrite aligned_size_round_up. unfold P1.round_up.
  rewrite land_clear_low3 by apply wrap_bound.
  change ALIGNMENT with 8. rewrite Z.mul_comm. apply Z.mod_mul. lia.
Qed.

Lemma aligned_size_bound (size : Z) : 0 <= P1.aligned_size size < SIZE_MOD.
Proof.
  rewrite aligned_size_round_up. unfold P1.round_up.
  pose proof (wrap_bound (size + (ALIGNMENT - 1))) as Hb.
  rewrite land_clear_low3 by exact Hb.
  pose proof (Z.div_mod (wrap (size + (ALIGNMENT - 1))) 8 ltac:(lia)) as Hq.
  pose proof (Z.mod_pos_bound (wrap (size + (ALIGNMENT - 1))) 8 ltac:(lia)) as Hr.
  lia.
Qed.

Lemma draft_aligned_size (size : Z) : Draft.aligned_size size = P1.aligned_size size.
Proof. reflexivity. Qed.

(** C8. For a request within 7 of the largest [size_t] value the rounding
    wraps: the padded size of [SIZE_MAX] is 0, smaller than the request, in
    both versions of the allocator, and [mymalloc(SIZE_MAX)] on a fresh
    arena returns a pointer to a chunk with no payload at all. *)
Theorem aligned_size_wraps_near_max :
  0 < SIZE_MOD - 1 < SIZE_MOD
  /\ P1.aligned_size (SIZE_MOD - 1) = 0
  /\ Draft.aligned_size (SIZE_MOD - 1) = 0
  /\ exists st,
       P1.mymalloc initial_state (SIZE_MOD - 1) = Some (Ptr 16, st)
       /\ take 2 (chunks (heap st)) = [mkChunk 0 0 1; mkChunk 16 4064 0].
Proof.
  split; [unfold SIZE_MOD; lia|].
  split; [reflexivity|]. split; [reflexivity|].
  eexists. split.
  - vm_compute. reflexivity.
  - vm_compute. reflexivity.
Qed.

(** ** Walks over the chunks *)

Lemma FUEL_S : FUEL = S (Nat.pred FUEL).
Proof. reflexivity. Qed.

Lemma arena_length (h : list byte) :
  length h = Z.to_nat MEMLENGTH -> Z.of_nat (length h) = MEMLENGTH.
Proof. intros ->. reflexivity. Qed.

Lemma walk_S fuel h off :
  walk (S fuel) h off =
  if off <? MEMLENGTH
  then read_chunk h off :: walk fuel h (chunk_end (read_chunk h off))
  else [].
Proof. reflexivity. Qed.

Lemma walk_outside fuel h off : MEMLENGTH <= off -> walk fuel h off = [].
Proof.
  intros Hoff. destruct fuel as [|fuel]; [reflexivity|].
  rewrite walk_S. apply Z.ltb_ge in Hoff. rewrite Hoff. reflexivity.
Qed.

Lemma chunk_end_read h off :
  off + sizeof_chunk <= chunk_end (read_chunk h off).
Proof.
  unfold chunk_end. cbn [read_chunk c_off c_size].
  pose proof (get_size_bound h off). lia.
Qed.

Lemma walk_sizes_nonneg fuel h off :
  Forall (fun c => 0 <= c_size c) (walk fuel h off).
Proof.
  revert off. induction fuel as [|fuel IH]; intros off; [constructor|].
  rewrite walk_S. destruct (off <? MEMLENGTH); [|constructor].
  constructor; [|apply IH]. apply get_size_bound.
Qed.

Lemma chunks_sizes_nonneg h : Forall (fun c => 0 <= c_size c) (chunks h).
Proof. unfold chunks. apply walk_sizes_nonneg. Qed.

(** On a tiled arena the step from a chunk to the next one does not wrap
    and does not leave the arena. *)
Lemma tiled_step fuel h cur :
  0 <= cur < MEMLENGTH -> tiles cur (walk (S fuel) h cur) ->
  advance cur (sizeof_chunk + get_size h cur) = chunk_end (read_chunk h cur)
  /\ cur < chunk_end (read_chunk h cur) <= MEMLENGTH
  /\ tiles (chunk_end (read_chunk h cur))
           (walk fuel h (chunk_end (read_chunk h cur))).
Proof.
  intros Hcur. rewrite walk_S.
  replace (cur <? MEMLENGTH) with true by (symmetry; lia).
  cbn [tiles]. intros [_ Hrest].
  pose proof (chunk_end_read h cur) as Hlow.
  assert (Hend : chunk_end (read_chunk h cur) <= MEMLENGTH).
  { destruct (Z_lt_le_dec (chunk_end (read_chunk h cur)) MEMLENGTH) as [|Hge];
      [lia|].
    rewrite walk_outside in Hrest by exact Hge. cbn [tiles] in Hrest. lia. }
  split; [|split; [unfold sizeof_chunk in *; lia|exact Hrest]].
  unfold chunk_end in *. cbn [read_chunk c_off c_size] in *.
  rewrite advance_inside; [lia|lia| |lia].
  pose proof (get_size_bound h cur). unfold sizeof_chunk. lia.
Qed.

(** ** The walks that guard their step end *)

Lemma enough_FUEL : enough FUEL 0.
Proof. unfold enough, FUEL, MEMLENGTH. lia. Qed.

Lemma enough_next fuel cur next :
  enough (S fuel) cur -> cur < next -> next < MEMLENGTH -> enough fuel next.
Proof. unfold enough. lia. Qed.

Lemma find_chunk_total fuel h cur aligned :
  enough fuel cur -> is_Some (P1.find_chunk fuel h cur aligned).
Proof.
  revert cur. induction fuel as [|fuel IH]; intros cur Hfuel.
  - destruct Hfuel. lia.
  - cbn [P1.find_chunk]. cbv zeta.
    destruct (cur <? MEMLENGTH) eqn:Hin; [|eauto].
    destruct ((get_allocated h cur =? 0) && (get_size h cur >=? aligned)); [eauto|].
    destruct ((advance cur (sizeof_chunk + get_size h cur) <=? cur)
              || (advance cur (sizeof_chunk + get_size h cur) >=? MEMLENGTH))
      eqn:Hbrk; [eauto|].
    apply orb_false_iff in Hbrk as [Hup Hlow].
    apply IH. eapply enough_next; [exact Hfuel | lia | lia].
Qed.

Lemma find_prev_total fuel h chunk scan :
  enough fuel scan -> is_Some (P1.find_prev fuel h chunk scan).
Proof.
  revert scan. induction fuel as [|fuel IH]; intros scan Hfuel.
  - destruct Hfuel. lia.
  - cbn [P1.find_prev]. cbv zeta.
    destruct (negb (scan =? chunk) && (scan <? MEMLENGTH)); [|eauto].
    destruct (advance scan (sizeof_chunk + get_size h scan) =? chunk); [eauto|].
    destruct ((advance scan (sizeof_chunk + get_size h scan) <=? scan)
              || (advance scan (sizeof_chunk + get_size h scan) >=? MEMLENGTH))
      eqn:Hbrk; [eauto|].
    apply orb_false_iff in Hbrk as [Hup Hlow].
    apply IH. eapply enough_next; [exact Hfuel | lia | lia].
Qed.

(** More fuel than [FUEL] changes nothing: it is not the fuel that ends
    the two loops. *)
Lemma find_chunk_fuel fuel fuel' h cur aligned :
  enough fuel cur -> (fuel <= fuel')%nat ->
  P1.find_chunk fuel' h cur aligned = P1.find_chunk fuel h cur aligned.
Proof.
  revert fuel' cur. induction fuel as [|fuel IH]; intros fuel' cur Hfuel Hle.
  - destruct Hfuel. lia.
  - destruct fuel' as [|fuel']; [lia|].
    cbn [P1.find_chunk]. cbv zeta.
    destruct (cur <? MEMLENGTH) eqn:Hin; [|reflexivity].
    destruct ((get_allocated h cur =? 0) && (get_size h cur >=? aligned));
      [reflexivity|].
    destruct ((advance cur (sizeof_chunk + get_size h cur) <=? cur)
              || (advance cur (sizeof_chunk + get_size h cur) >=? MEMLENGTH))
      eqn:Hbrk; [reflexivity|].
    apply orb_false_iff in Hbrk as [Hup Hlow].
    apply IH; [eapply enough_next; [exact Hfuel | lia | lia]|lia].
Qed.

Lemma find_prev_fuel fuel fuel' h chunk scan :
  enough fuel scan -> (fuel <= fuel')%nat ->
  P1.find_prev fuel' h chunk scan = P1.find_prev fuel h chunk scan.
Proof.
  revert fuel' scan. induction fuel as [|fuel IH]; intros fuel' scan Hfuel Hle.
  - destruct Hfuel. lia.
  - destruct fuel' as [|fuel']; [lia|].
    cbn [P1.find_prev]. cbv zeta.
    destruct (negb (scan =? chunk) && (scan <? MEMLENGTH)); [|reflexivity].
    destruct (advance scan (sizeof_chunk + get_size h scan) =? chunk);
      [reflexivity|].
    destruct ((advance scan (sizeof_chunk + get_size h scan) <=? scan)
              || (advance scan (sizeof_chunk + get_size h scan) >=? MEMLENGTH))
      eqn:Hbrk; [reflexivity|].
    apply orb_false_iff in Hbrk as [Hup Hlow].
    apply IH; [eapply enough_next; [exact Hfuel | lia | lia]|lia].
Qed.

(** The first half of the guard is what stops a walk whose step wraps
    round: a size that takes the next header beyond the end of the address
    space, to an address not above the cursor, ends the search. *)
Lemma find_chunk_stops_on_wrap fuel h cur aligned :
  0 <= cur < MEMLENGTH -> get_allocated h cur <> 0 ->
  SIZE_MOD - sizeof_chunk - cur <= get_size h cur <= SIZE_MOD - sizeof_chunk ->
  P1.find_chunk (S fuel) h cur aligned = Some None.
Proof.
  intros Hcur Hal Hsize. cbn [P1.find_chunk]. cbv zeta.
  replace (cur <? MEMLENGTH) with true by (symmetry; lia).
  replace (get_allocated h cur =? 0) with false by (symmetry; lia).
  cbn [andb].
  assert (Hadv : advance cur (sizeof_chunk + get_size h cur)
                 = cur + sizeof_chunk + get_size h cur - SIZE_MOD).
  { unfold advance, wrap. symmetry.
    apply (Z.mod_unique _ _ 1); unfold SIZE_MOD, sizeof_chunk, MEMLENGTH in *;
      lia. }
  rewrite Hadv.
  replace (cur + sizeof_chunk + get_size h cur - SIZE_MOD <=? cur) with true
    by (symmetry; unfold SIZE_MOD, sizeof_chunk in *; lia).
  reflexivity.
Qed.

Lemma leak_detection_frame st st' :
  P1.leak_detection st = Some st' ->
  heap st' = heap st /\ initialized st' = initialized st
  /\ handlers st' = handlers st.
Proof.
  unfold P1.leak_detection. intros E.
  destruct (P1.leak_loop FUEL (heap st) 0 0 0) as [[n b]|]; [|discriminate].
  injection E as <-. destruct (0 <? n); auto.
Qed.

Lemma run_handlers_frame fs st st' :
  run_handlers P1.leak_detection fs st = Some st' ->
  heap st' = heap st /\ initialized st' = initialized st
  /\ handlers st' = handlers st.
Proof.
  revert st. induction fs as [|f fs IH]; intros st; cbn [run_handlers].
  - intros [= <-]. auto.
  - destruct f. cbn [run_handler].
    destruct (P1.leak_detection st) as [st1|] eqn:E; [|discriminate].
    intros Hrest. apply IH in Hrest as (-> & -> & ->).
    apply leak_detection_frame. exact E.
Qed.

(** What [exit] leaves when it ends. *)
Lemma exit_frame status st e :
  P1.exit status st = Some e ->
  exit_status e = status /\ ran e = handlers st
  /\ heap (final e) = heap st
  /\ initialized (final e) = initialized st.
Proof.
  unfold P1.exit, exit_with.
  destruct (run_handlers P1.leak_detection (handlers st) st) as [st'|] eqn:E;
    [|discriminate].
  intros [= <-]. apply run_handlers_frame in E as (Hh & Hi & _).
  cbn. auto.
Qed.

Lemma fatal_frame st d o :
  P1.fatal st d = Some o ->
  exists e, o = Exited e
            /\ exit_status e = 2 /\ ran e = handlers st
            /\ heap (final e) = heap st
            /\ initialized (final e) = initialized st.
Proof.
  unfold P1.fatal.
  destruct (P1.exit 2 (fprintf st d)) as [e|] eqn:E; [|discriminate].
  intros [= <-]. exists e. split; [reflexivity|].
  apply exit_frame in E. exact E.
Qed.

(** With no exit function registered, [exit] ends at once. *)
Lemma exit_unregistered status st :
  handlers st = [] -> P1.exit status st = Some (mkExited status [] st).
Proof. unfold P1.exit, exit_with. intros ->. reflexivity. Qed.

Lemma fatal_unregistered st d :
  handlers st = [] ->
  P1.fatal st d = Some (Exited (mkExited 2 [] (fprintf st d))).
Proof.
  intros H. unfold P1.fatal. rewrite exit_unregistered by exact H.
  reflexivity.
Qed.

Lemma release_total h chunk : is_Some (P1.release h chunk).
Proof.
  unfold P1.release, P1.coalesce_backward.
  destruct (find_prev_total FUEL (P1.coalesce_forward h chunk) chunk 0
              enough_FUEL) as [[prev|] E];
    rewrite E; eauto.
Qed.

Lemma mymalloc_total st size :
  exists r st', P1.mymalloc st size = Some (r, st').
Proof.
  unfold P1.mymalloc. cbv zeta. destruct (size =? 0); [eauto|].
  destruct (find_chunk_total FUEL (heap (P1.ensure_initialized st)) 0
              (P1.aligned_size size) enough_FUEL) as [[x|] ->]; eauto.
Qed.

(** C10. The search loop of [mymalloc] and the predecessor scan of [myfree]
    end in every state of the arena, whatever bytes its headers hold, a size
    that makes the step wrap round included: each of them only goes on with
    a cursor that is strictly higher than before and still inside the
    arena, so it takes no more iterations than the arena has bytes, and
    fuel beyond that changes nothing.  So [mymalloc] comes back from every
    call, and so does the part of [myfree] that frees. *)
Theorem walks_terminate :
  (forall h aligned,
     is_Some (P1.find_chunk FUEL h 0 aligned)
     /\ forall fuel, (FUEL <= fuel)%nat ->
          P1.find_chunk fuel h 0 aligned = P1.find_chunk FUEL h 0 aligned)
  /\ (forall h chunk,
        is_Some (P1.find_prev FUEL h chunk 0)
        /\ forall fuel, (FUEL <= fuel)%nat ->
             P1.find_prev fuel h chunk 0 = P1.find_prev FUEL h chunk 0)
  /\ (forall st size, is_Some (P1.mymalloc st size))
  /\ (forall h chunk, is_Some (P1.release h chunk)).
Proof.
  split; [|split; [|split]].
  - intros h aligned. split; [apply find_chunk_total, enough_FUEL|].
    intros fuel Hle. apply find_chunk_fuel; [apply enough_FUEL|exact Hle].
  - intros h chunk. split; [apply find_prev_total, enough_FUEL|].
    intros fuel Hle. apply find_prev_fuel; [apply enough_FUEL|exact Hle].
  - intros st size. destruct (mymalloc_total st size) as (r & st' & ->). eauto.
  - apply release_total.
Qed.

Lemma walks_terminate_witness :
  (FUEL <= S FUEL)%nat
  /\ P1.find_chunk (S FUEL) (heap five_leaks) 0 16
     = P1.find_chunk FUEL (heap five_leaks) 0 16.
Proof.
  split; [apply Nat.le_succ_diag_r|].
  apply (proj2 (proj1 walks_terminate (heap five_leaks) 16)).
  apply Nat.le_succ_diag_r.
Defined.

(** ** What the leak scan reports *)

Lemma allocated_count_cons c cs :
  allocated_count (c :: cs)
  = (if c_alloc c =? 0 then 0 else 1) + allocated_count cs.
Proof.
  unfold allocated_count. rewrite filter_cons.
  destruct (decide (is_allocated c)) as [Ha|Hf]; unfold is_allocated in *.
  - apply Z.eqb_neq in Ha. rewrite Ha. cbn [length]. lia.
  - assert (Hz : c_alloc c = 0) by lia. rewrite Hz. reflexivity.
Qed.

Lemma allocated_bytes_cons c cs :
  allocated_bytes (c :: cs)
  = (if c_alloc c =? 0 then 0 else c_size c) + allocated_bytes cs.
Proof.
  unfold allocated_bytes. rewrite filter_cons.
  destruct (decide (is_allocated c)) as [Ha|Hf]; unfold is_allocated in *.
  - apply Z.eqb_neq in Ha. rewrite Ha. reflexivity.
  - assert (Hz : c_alloc c = 0) by lia. rewrite Hz. reflexivity.
Qed.

Lemma wrap_add_l a b : wrap (wrap a + b) = wrap (a + b).
Proof. unfold wrap. apply Z.add_mod_idemp_l. unfold SIZE_MOD. lia. Qed.

(** On a tiled arena the scan follows the chunks to the end of the arena
    and stops there. *)
Lemma leak_loop_tiled fuel h cur n b :
  0 <= cur -> enough fuel cur -> tiles cur (walk fuel h cur) ->
  0 <= b < SIZE_MOD ->
  P1.leak_loop fuel h cur n b
  = Some (n + allocated_count (walk fuel h cur),
          wrap (b + allocated_bytes (walk fuel h cur))).
Proof.
  revert cur n b. induction fuel as [|fuel IH]; intros cur n b Hcur Hfuel Ht Hb.
  { destruct Hfuel. lia. }
  cbn [P1.leak_loop]. cbv zeta.
  destruct (cur <? MEMLENGTH) eqn:Hin.
  2:{ rewrite walk_S, Hin.
      change (allocated_count []) with 0. change (allocated_bytes []) with 0.
      rewrite !Z.add_0_r, wrap_small by exact Hb. reflexivity. }
  destruct (tiled_step fuel h cur ltac:(lia) Ht) as (-> & Hend & Hrest).
  rewrite walk_S, Hin, allocated_count_cons, allocated_bytes_cons.
  cbn [read_chunk c_alloc c_size].
  destruct (chunk_end (read_chunk h cur) >=? MEMLENGTH) eqn:Hlast.
  - rewrite walk_outside by lia.
    change (allocated_count []) with 0. change (allocated_bytes []) with 0.
    destruct (get_allocated h cur =? 0).
    + rewrite !Z.add_0_r, wrap_small by exact Hb. reflexivity.
    + rewrite !Z.add_0_r. reflexivity.
  - assert (Hnext : enough fuel (chunk_end (read_chunk h cur))).
    { eapply enough_next; [exact Hfuel|lia|lia]. }
    destruct (get_allocated h cur =? 0).
    + rewrite IH; [|lia|exact Hnext|exact Hrest|exact Hb].
      rewrite !Z.add_0_l. reflexivity.
    + rewrite IH; [|lia|exact Hnext|exact Hrest|apply wrap_bound].
      rewrite wrap_add_l, !Z.add_assoc. reflexivity.
Qed.

Lemma tiles_bytes start cs :
  Forall (fun c => 0 <= c_size c) cs -> tiles start cs ->
  0 <= allocated_bytes cs <= MEMLENGTH - start.
Proof.
  intros Hnn. revert start. induction Hnn as [|c cs Hc _ IH]; intros start.
  - cbn. lia.
  - cbn [tiles]. intros [Hoff Hrest]. apply IH in Hrest.
    rewrite allocated_bytes_cons. unfold chunk_end, sizeof_chunk in Hrest.
    destruct (c_alloc c =? 0); lia.
Qed.

Lemma leak_loop_from_base fuel h :
  enough fuel 0 -> tiles 0 (walk fuel h 0) ->
  P1.leak_loop fuel h 0 0 0
  = Some (allocated_count (walk fuel h 0), allocated_bytes (walk fuel h 0)).
Proof.
  intros Hfuel Htiles.
  rewrite leak_loop_tiled;
    [|lia|exact Hfuel|exact Htiles|unfold SIZE_MOD; lia].
  rewrite !Z.add_0_l, wrap_small; [reflexivity|].
  pose proof (tiles_bytes 0 _ (walk_sizes_nonneg fuel h 0) Htiles).
  unfold MEMLENGTH, SIZE_MOD in *. lia.
Qed.

Lemma leak_loop_chunks h :
  tiles 0 (chunks h) ->
  P1.leak_loop FUEL h 0 0 0
  = Some (allocated_count (chunks h), allocated_bytes (chunks h)).
Proof. unfold chunks. apply leak_loop_from_base, enough_FUEL. Qed.

Lemma leak_detection_reports st :
  tiles 0 (chunks (heap st)) ->
  exists st',
    P1.leak_detection st = Some st'
    /\ heap st' = heap st
    /\ initialized st' = initialized st
    /\ handlers st' = handlers st
    /\ stderr st' =
       stderr st ++
       (if 0 <? allocated_count (chunks (heap st))
        then [Leaked (allocated_bytes (chunks (heap st)))
                     (allocated_count (chunks (heap st)))]
        else []).
Proof.
  intros Htiles. unfold P1.leak_detection.
  rewrite (leak_loop_chunks (heap st) Htiles).
  eexists. split; [reflexivity|].
  destruct (0 <? allocated_count (chunks (heap st))); cbn.
  - auto.
  - rewrite app_nil_r. auto.
Qed.



(** ** Leaving the process from a tiled arena *)

Lemma run_handlers_tiled fs st :
  tiles 0 (chunks (heap st)) ->
  is_Some (run_handlers P1.leak_detection fs st).
Proof.
  revert st. induction fs as [|f fs IH]; intros st Htiles; cbn [run_handlers].
  - eauto.
  - destruct f. cbn [run_handler].
    destruct (leak_detection_reports st Htiles) as (st1 & -> & Hh & _).
    apply IH. rewrite Hh. exact Htiles.
Qed.

Lemma exit_tiled status st :
  tiles 0 (chunks (heap st)) ->
  exists e, P1.exit status st = Some e
            /\ exit_status e = status /\ ran e = handlers st
            /\ heap (final e) = heap st
            /\ initialized (final e) = initialized st.
Proof.
  intros Htiles.
  destruct (run_handlers_tiled (handlers st) st Htiles) as [st' E].
  assert (Ex : P1.exit status st = Some (mkExited status (handlers st) st')).
  { unfold P1.exit, exit_with. rewrite E. reflexivity. }
  eexists. split; [exact Ex|]. apply exit_frame in Ex. exact Ex.
Qed.

Lemma fatal_tiled st d :
  tiles 0 (chunks (heap st)) ->
  exists e, P1.fatal st d = Some (Exited e)
            /\ exit_status e = 2 /\ ran e = handlers st
            /\ heap (final e) = heap st
            /\ initialized (final e) = initialized st.
Proof.
  intros Htiles. unfold P1.fatal.
  destruct (exit_tiled 2 (fprintf st d) Htiles) as (e & -> & H).
  exists e. split; [reflexivity|exact H].
Qed.

(** ** The checks of [myfree] *)

Lemma myfree_accepted st p :
  accepted (heap st) p ->
  P1.myfree st (Ptr p) =
  match P1.release (heap st) (p - sizeof_chunk) with
  | Some h' => Some (Returned (with_heap st h'))
  | None => None
  end.
Proof.
  intros (Hb & Ha & Hc & He & Hz & Hm & Hal). cbn [P1.myfree].
  replace ((p <? 0) || (p >=? MEMLENGTH)) with false
    by (symmetry; apply orb_false_iff; lia).
  replace (p mod ALIGNMENT =? 0) with true by (symmetry; lia).
  cbn [negb]. cbv zeta.
  replace (p - sizeof_chunk <? 0) with false by (symmetry; lia).
  replace (advance (p - sizeof_chunk)
                   (sizeof_chunk + get_size (heap st) (p - sizeof_chunk))
           >? MEMLENGTH) with false by (symmetry; lia).
  replace (get_size (heap st) (p - sizeof_chunk) =? 0) with false
    by (symmetry; lia).
  replace (get_size (heap st) (p - sizeof_chunk) mod ALIGNMENT =? 0) with true
    by (symmetry; lia).
  replace (get_allocated (heap st) (p - sizeof_chunk) =? 0) with false
    by (symmetry; lia).
  reflexivity.
Qed.

(** A pointer that fails one of the checks is sent to [exit(2)]. *)
Lemma myfree_rejected st p :
  ~ accepted (heap st) p ->
  exists d, P1.myfree st (Ptr p) = P1.fatal st d.
Proof.
  intros Hrej. cbn [P1.myfree]. cbv zeta.
  repeat match goal with
  | |- exists d, (if ?b then P1.fatal ?s ?d' else _) = _ =>
    destruct b eqn:?; [exists d'; reflexivity|]
  end.
  exfalso. apply Hrej. unfold accepted.
  repeat match goal with
  | H : _ || _ = false |- _ => apply orb_false_iff in H as [? ?]
  | H : negb _ = false |- _ => apply negb_false_iff in H
  end.
  repeat split; lia.
Qed.

Lemma accepted_dec h p : accepted h p \/ ~ accepted h p.
Proof. unfold accepted. lia. Qed.

(** [myfree] only comes back from a pointer that passes every check. *)
Lemma myfree_returned_accepted st p st' :
  P1.myfree st (Ptr p) = Some (Returned st') -> accepted (heap st) p.
Proof.
  intros E. destruct (accepted_dec (heap st) p) as [Hacc|Hrej]; [exact Hacc|].
  destruct (myfree_rejected _ _ Hrej) as (d & Hd). rewrite Hd in E.
  apply fatal_frame in E as (e & He & _). discriminate He.
Qed.

(** On a tiled arena a rejected pointer ends the process with status 2. *)
Lemma myfree_rejected_tiled st p :
  tiles 0 (chunks (heap st)) ->
  ~ accepted (heap st) p ->
  exists e, P1.myfree st (Ptr p) = Some (Exited e)
            /\ exit_status e = 2 /\ ran e = handlers st
            /\ heap (final e) = heap st
            /\ initialized (final e) = initialized st.
Proof.
  intros Htiles Hrej. destruct (myfree_rejected _ _ Hrej) as (d & ->).
  apply fatal_tiled. exact Htiles.
Qed.

(** The checks that do not depend on where the header is taken to end:
    on a tiled arena, a non-null pointer that lies outside the arena, or is
    not a multiple of the alignment, or whose header has size zero, or a
    size that is not a multiple of the alignment, or is marked free, makes
    [myfree] end the process with status 2. *)
Lemma myfree_rejects (st : state) (p : Z) :
  tiles 0 (chunks (heap st)) ->
  p < 0 \/ MEMLENGTH <= p
  \/ p mod ALIGNMENT <> 0
  \/ get_size (heap st) (p - sizeof_chunk) = 0
  \/ get_size (heap st) (p - sizeof_chunk) mod ALIGNMENT <> 0
  \/ get_allocated (heap st) (p - sizeof_chunk) = 0 ->
  exists e, P1.myfree st (Ptr p) = Some (Exited e) /\ exit_status e = 2.
Proof.
  intros Htiles Hbad.
  destruct (myfree_rejected_tiled st p Htiles) as (e & E & Hs & _).
  - unfold accepted. lia.
  - exists e. auto.
Qed.

Ltac own_first_block :=
  exists (mkChunk 0 64 1);
  split; [vm_compute; left; reflexivity|];
  split; [vm_compute; discriminate|];
  vm_compute; split; [discriminate|reflexivity].

Lemma wrapping_header_reachable :
  exists st, wrapping_header = Some (16, st) /\ P1.reachable st.
Proof.
  eassert (E1 : P1.mymalloc initial_state 64 = Some (Ptr 16, _))
    by (vm_compute; reflexivity).
  eexists. split; [unfold wrapping_header; rewrite E1; reflexivity|].
  cbn [pokes].
  repeat (eapply P1.reach_step; [|eapply P1.step_poke; own_first_block]).
  eapply P1.reach_step; [apply P1.reach_start|].
  eapply P1.step_malloc; [|exact E1]. unfold SIZE_MOD. lia.
Qed.

(** C4 fails for a header whose size takes the chunk past the end of the
    arena by so much that the sum wraps round.  After [p = malloc(64)] the
    client writes the size [2^64 - 8] into the first eight bytes of its
    block and a non-zero byte after them, and calls
    [free((char * )p + 16)]: the
    pointer is inside the arena and aligned, the sixteen bytes before it
    read as a header whose size is not zero and is a multiple of the
    alignment, and header plus size lies far beyond the end of the arena;
    but the sum the check computes is the address 8 bytes after the header,
    which is not beyond the end, so [myfree] takes the header for good and
    returns.  The block [p] is still allocated afterwards. *)
Theorem myfree_accepts_wrapping_header :
  exists st st',
    wrapping_header = Some (16, st)
    /\ P1.reachable st
    /\ chunks (heap st) = [mkChunk 0 64 1; mkChunk 80 4000 0]
    /\ get_size (heap st) (32 - sizeof_chunk) = 2 ^ 64 - 8
    /\ MEMLENGTH
       < 32 - sizeof_chunk + sizeof_chunk + get_size (heap st) (32 - sizeof_chunk)
    /\ P1.myfree st (Ptr 32) = Some (Returned st')
    /\ chunks (heap st') = [mkChunk 0 64 1; mkChunk 80 4000 0].
Proof.
  destruct wrapping_header_reachable as (st & E & Hreach).
  assert (Est : Some (16, st) = wrapping_header) by (symmetry; exact E).
  vm_compute in Est. injection Est as Est.
  eassert (Efree : P1.myfree st (Ptr 32) = Some (Returned _))
    by (rewrite Est; vm_compute; reflexivity).
  exists st. eexists.
  split; [exact E|]. split; [exact Hreach|].
  split; [rewrite Est; vm_compute; reflexivity|].
  split; [rewrite Est; vm_compute; reflexivity|].
  split; [rewrite Est; vm_compute; reflexivity|].
  split; [exact Efree|].
  vm_compute. reflexivity.
Qed.

(** ** Lazy initialization *)

Lemma initialize_heap_read st :
  length (heap st) = Z.to_nat MEMLENGTH ->
  read_chunk (heap (P1.initialize_heap st)) 0
  = mkChunk 0 (MEMLENGTH - sizeof_chunk) 0.
Proof.
  intros Hlen. apply arena_length in Hlen.
  unfold read_chunk, P1.initialize_heap. cbn [heap atexit]. f_equal.
  - rewrite get_size_set_allocated by lia.
    rewrite get_size_set_size; [reflexivity|lia|unfold MEMLENGTH in *; lia|].
    change (wrap (MEMLENGTH - sizeof_chunk)) with 4080.
    unfold SIZE_MOD. lia.
  - rewrite get_allocated_set_allocated; [reflexivity|lia| |lia].
    rewrite length_set_size. unfold MEMLENGTH in *; lia.
Qed.

Lemma initialize_heap_chunks st :
  length (heap st) = Z.to_nat MEMLENGTH ->
  chunks (heap (P1.initialize_heap st))
  = [mkChunk 0 (MEMLENGTH - sizeof_chunk) 0].
Proof.
  intros Hlen. unfold chunks. rewrite FUEL_S, walk_S.
  rewrite (initialize_heap_read st Hlen).
  rewrite (walk_outside _ _ (chunk_end _)); [reflexivity|].
  unfold chunk_end, c_off, c_size, MEMLENGTH, sizeof_chunk. lia.
Qed.

Lemma ensure_initialized_tiles st :
  arena_ok st -> tiles 0 (chunks (heap (P1.ensure_initialized st))).
Proof.
  intros [Hlen Ht]. unfold P1.ensure_initialized.
  destruct (initialized st); [auto|].
  rewrite initialize_heap_chunks by exact Hlen. cbn. auto.
Qed.

Lemma mymalloc_zero st :
  P1.mymalloc st 0 = Some (NULL, fprintf (P1.ensure_initialized st) MallocZero).
Proof. reflexivity. Qed.

(** C5 (as the code has it). [mymalloc(0)] returns null.  On an arena that
    is already initialized it leaves the arena, the flag and the registered
    exit functions as they were; as the first allocator call of the process
    it first initializes the arena: the flag is set, the leak scan is
    registered and the arena becomes one free chunk of [C - H] bytes. *)
Theorem malloc_zero (st : state) :
  length (heap st) = Z.to_nat MEMLENGTH ->
  exists st',
    P1.mymalloc st 0 = Some (NULL, st')
    /\ stderr st' = stderr st ++ [MallocZero]
    /\ if initialized st
       then heap st' = heap st /\ initialized st' = true
            /\ handlers st' = handlers st
       else initialized st' = true
            /\ handlers st' = LeakDetection :: handlers st
            /\ chunks (heap st') = [mkChunk 0 (MEMLENGTH - sizeof_chunk) 0].
Proof.
  intros Hlen. eexists. split; [apply mymalloc_zero|].
  unfold P1.ensure_initialized.
  destruct (initialized st) eqn:Hinit.
  - cbn. auto.
  - split; [reflexivity|]. split; [reflexivity|]. split; [reflexivity|].
    cbn [heap fprintf]. apply initialize_heap_chunks. exact Hlen.
Qed.

Lemma malloc_zero_witness :
  length (heap initial_state) = Z.to_nat MEMLENGTH
  /\ exists st',
       P1.mymalloc initial_state 0 = Some (NULL, st')
       /\ stderr st' = stderr initial_state ++ [MallocZero]
       /\ if initialized initial_state
          then heap st' = heap initial_state /\ initialized st' = true
               /\ handlers st' = handlers initial_state
          else initialized st' = true
               /\ handlers st' = LeakDetection :: handlers initial_state
               /\ chunks (heap st') = [mkChunk 0 (MEMLENGTH - sizeof_chunk) 0].
Proof.
  split; [reflexivity|].
  apply (malloc_zero initial_state). reflexivity.
Defined.

(** C5 as stated fails on the first call: [mymalloc(0)] on the state the
    process starts in sets the flag and writes the first header. *)
Lemma malloc_zero_first_call_changes_state :
  ~ exists st',
      P1.mymalloc initial_state 0 = Some (NULL, st')
      /\ heap st' = heap initial_state
      /\ initialized st' = initialized initial_state.
Proof.
  intros (st' & E & _ & Hflag).
  rewrite mymalloc_zero in E. injection E as <-.
  discriminate Hflag.
Qed.

Lemma myfree_keeps_flag st ptr o :
  P1.myfree st ptr = Some o -> initialized (state_after o) = initialized st.
Proof.
  destruct ptr as [|p].
  - intros [= <-]. reflexivity.
  - destruct (accepted_dec (heap st) p) as [Hacc|Hrej].
    + rewrite (myfree_accepted _ _ Hacc).
      destruct (P1.release (heap st) (p - sizeof_chunk)); [|discriminate].
      intros [= <-]. reflexivity.
    + destruct (myfree_rejected _ _ Hrej) as (d & ->).
      intros E. apply fatal_frame in E as (e & -> & _ & _ & _ & Hi). exact Hi.
Qed.

Lemma load_replicate_zero n m i : load n (replicate m x00) i = 0.
Proof.
  revert i. induction n as [|n IH]; intros i; cbn [load]; [reflexivity|].
  rewrite IH. destruct (replicate m x00 !! i) as [b|] eqn:E; [|reflexivity].
  apply lookup_replicate in E as [-> _]. reflexivity.
Qed.

(** Before the first [mymalloc], [myfree] either is handed null and does
    nothing, or ends the process with status 2; the arena stays as it was. *)
Lemma myfree_before_any_malloc ptr :
  match P1.myfree initial_state ptr with
  | Some (Returned st') => ptr = NULL /\ st' = initial_state
  | Some (Exited e) =>
      exit_status e = 2 /\ ran e = []
      /\ heap (final e) = heap initial_state /\ initialized (final e) = false
  | None => False
  end.
Proof.
  destruct ptr as [|p]; [cbn; auto|].
  destruct (myfree_rejected initial_state p) as (d & ->).
  - intros (_ & _ & _ & _ & Hz & _). apply Hz.
    unfold get_size, initial_state. cbn [heap]. apply load_replicate_zero.
  - rewrite fatal_unregistered by reflexivity. cbn. auto.
Qed.

(** C9 (as the code has it). The arena's initial free chunk of [C - H]
    bytes is created by the first [mymalloc]: on a state whose flag is
    clear, [mymalloc] proceeds as on the state [initialize_heap] makes, in
    which the flag is set and the arena is that one chunk.  [myfree] never
    creates it: on a state whose flag is clear the flag is still clear
    however the call ends, and the call does end when no exit function is
    registered, as none is before the first [mymalloc]; called before any
    [mymalloc] it returns at once for null and ends the process with status
    2 for any other pointer, the arena being left as it was. *)
Theorem first_malloc_initializes (st : state) (size : Z) (ptr : pointer) :
  initialized st = false ->
  length (heap st) = Z.to_nat MEMLENGTH ->
  (P1.mymalloc st size = P1.mymalloc (P1.initialize_heap st) size
   /\ initialized (P1.initialize_heap st) = true
   /\ chunks (heap (P1.initialize_heap st))
      = [mkChunk 0 (MEMLENGTH - sizeof_chunk) 0]
   /\ exists r st', P1.mymalloc st size = Some (r, st')
                    /\ initialized st' = true)
  /\ ((forall o, P1.myfree st ptr = Some o ->
                 initialized (state_after o) = false)
      /\ (registered_once st ->
          exists o, P1.myfree st ptr = Some o
                    /\ initialized (state_after o) = false))
  /\ match P1.myfree initial_state ptr with
     | Some (Returned st') => ptr = NULL /\ st' = initial_state
     | Some (Exited e) =>
         exit_status e = 2 /\ ran e = []
         /\ heap (final e) = heap initial_state
         /\ initialized (final e) = false
     | None => False
     end.
Proof.
  intros Hinit Hlen. split; [|split].
  - split.
    { unfold P1.mymalloc, P1.ensure_initialized. rewrite Hinit. reflexivity. }
    split; [reflexivity|].
    split; [apply initialize_heap_chunks; exact Hlen|].
    destruct (mymalloc_total st size) as (r & st' & E).
    exists r, st'. split; [exact E|].
    revert E. unfold P1.mymalloc, P1.ensure_initialized. rewrite Hinit.
    destruct (size =? 0); [intros [= _ <-]; reflexivity|].
    destruct (P1.find_chunk _ _ _ _) as [[cur|]|]; intros [= _ <-]; reflexivity.
  - assert (Hflag : forall o, P1.myfree st ptr = Some o ->
                              initialized (state_after o) = false).
    { intros o E. rewrite (myfree_keeps_flag _ _ _ E). exact Hinit. }
    split; [exact Hflag|]. intros Hreg.
    assert (Hnone : handlers st = []).
    { unfold registered_once in Hreg. rewrite Hinit in Hreg. exact Hreg. }
    assert (Hsome : exists o, P1.myfree st ptr = Some o).
    { destruct ptr as [|p]; [cbn; eauto|].
      destruct (accepted_dec (heap st) p) as [Hacc|Hrej].
      - rewrite (myfree_accepted _ _ Hacc).
        destruct (release_total (heap st) (p - sizeof_chunk)) as [h' ->]. eauto.
      - destruct (myfree_rejected _ _ Hrej) as (d & ->).
        rewrite fatal_unregistered by exact Hnone. eauto. }
    destruct Hsome as [o E]. exists o. split; [exact E|]. apply Hflag, E.
  - apply myfree_before_any_malloc.
Qed.

Lemma first_malloc_initializes_witness :
  initialized initial_state = false
  /\ length (heap initial_state) = Z.to_nat MEMLENGTH
  /\ (P1.mymalloc initial_state 8
      = P1.mymalloc (P1.initialize_heap initial_state) 8
      /\ initialized (P1.initialize_heap initial_state) = true
      /\ chunks (heap (P1.initialize_heap initial_state))
         = [mkChunk 0 (MEMLENGTH - sizeof_chunk) 0]
      /\ exists r st', P1.mymalloc initial_state 8 = Some (r, st')
                       /\ initialized st' = true)
  /\ (exists o, P1.myfree initial_state (Ptr 16) = Some o
                /\ initialized (state_after o) = false).
Proof.
  split; [reflexivity|]. split; [reflexivity|].
  pose proof (first_malloc_initializes initial_state 8 (Ptr 16)
                eq_refl eq_refl) as (Hm & (_ & Hf) & _).
  split; [exact Hm|]. apply Hf. reflexivity.
Defined.

(** C9 as stated fails: a [myfree] made before any [mymalloc] returns with
    the flag still clear and no initial chunk in the arena. *)
Lemma free_first_does_not_initialize :
  exists st',
    P1.myfree initial_state NULL = Some (Returned st')
    /\ initialized st' = false
    /\ chunks (heap st') <> [mkChunk 0 (MEMLENGTH - sizeof_chunk) 0].
Proof.
  eexists. split; [reflexivity|]. split; [reflexivity|].
  vm_compute. discriminate.
Qed.

(** ** When the leak scan runs *)

Lemma ensure_initialized_registered st :
  registered_once st ->
  registered_once (P1.ensure_initialized st)
  /\ initialized (P1.ensure_initialized st) = true.
Proof.
  unfold registered_once, P1.ensure_initialized.
  destruct (initialized st) eqn:Hinit; intros Hreg.
  - rewrite Hinit. auto.
  - cbn. rewrite Hreg. auto.
Qed.

Lemma mymalloc_frame st size p st' :
  P1.mymalloc st size = Some (p, st') ->
  initialized st' = initialized (P1.ensure_initialized st)
  /\ handlers st' = handlers (P1.ensure_initialized st).
Proof.
  unfold P1.mymalloc.
  destruct (size =? 0); [intros [= _ <-]; auto|].
  destruct (P1.find_chunk _ _ _ _) as [[cur|]|]; [| |discriminate];
    intros [= _ <-]; auto.
Qed.

Lemma myfree_returned_frame st ptr st' :
  P1.myfree st ptr = Some (Returned st') ->
  initialized st' = initialized st /\ handlers st' = handlers st.
Proof.
  destruct ptr as [|p].
  - intros [= <-]. auto.
  - destruct (accepted_dec (heap st) p) as [Hacc|Hrej].
    + rewrite (myfree_accepted _ _ Hacc).
      destruct (P1.release (heap st) (p - sizeof_chunk)); [|discriminate].
      intros [= <-]. auto.
    + destruct (myfree_rejected _ _ Hrej) as (d & ->).
      intros E. apply fatal_frame in E as (e & He & _). discriminate He.
Qed.

Lemma step_registered st st' :
  P1.step st st' -> registered_once st -> registered_once st'.
Proof.
  intros Hstep Hreg. destruct Hstep as [st size p st' _ E|st p st' E|st i b _].
  - apply mymalloc_frame in E as [Hi Hh].
    apply ensure_initialized_registered in Hreg as [Hreg _].
    unfold registered_once in *. rewrite Hi, Hh. exact Hreg.
  - apply myfree_returned_frame in E as [Hi Hh].
    unfold registered_once in *. rewrite Hi, Hh. exact Hreg.
  - exact Hreg.
Qed.

Lemma reachable_registered st : P1.reachable st -> registered_once st.
Proof.
  induction 1 as [|st st' _ IH Hstep].
  - reflexivity.
  - eapply step_registered; eassumption.
Qed.

Lemma leak_scans_registered (e : exited) (st : state) :
  registered_once st -> ran e = handlers st ->
  leak_scans e = if initialized st then 1%nat else 0%nat.
Proof.
  unfold registered_once, leak_scans. intros Hreg ->. rewrite Hreg.
  destruct (initialized st); reflexivity.
Qed.

Lemma freed_once_reachable :
  exists p st,
    freed_once = Some (Ptr p, st) /\ P1.reachable st
    /\ initialized st = true /\ get_allocated (heap st) (p - sizeof_chunk) = 0
    /\ tiles 0 (chunks (heap st)).
Proof.
  eassert (E1 : P1.mymalloc initial_state 8 = Some (Ptr _, _))
    by (vm_compute; reflexivity).
  match type of E1 with
  | _ = Some (Ptr ?p, ?s1) =>
    eassert (E2 : P1.myfree s1 (Ptr p) = Some (Returned _))
      by (vm_compute; reflexivity)
  end.
  do 2 eexists. split; [vm_compute; reflexivity|].
  split; [|split; [|split]; vm_compute; auto].
  eapply P1.reach_step; [eapply P1.reach_step; [apply P1.reach_start|]|].
  - eapply P1.step_malloc; [|exact E1]. unfold SIZE_MOD. lia.
  - eapply P1.step_free. exact E2.
Qed.

(** C6 as stated fails: after [p = malloc(8); free(p);] a second [free(p)]
    takes the double-free path, the process ends with status 2, and the
    leak scan has run on the way out. *)
Lemma leak_scan_runs_on_double_free :
  exists p st e,
    freed_once = Some (Ptr p, st)
    /\ P1.reachable st
    /\ P1.myfree st (Ptr p) = Some (Exited e)
    /\ exit_status e = 2
    /\ leak_scans e = 1%nat.
Proof.
  destruct freed_once_reachable
    as (p & st & Hrun & Hreach & Hinit & Hfree & Htiles).
  destruct (myfree_rejected_tiled st p Htiles) as (e & E & Hs & Hr & _).
  { unfold accepted. lia. }
  exists p, st, e. repeat split; try assumption.
  rewrite (leak_scans_registered e st); [rewrite Hinit; reflexivity| |exact Hr].
  apply reachable_registered. exact Hreach.
Qed.

(** ** Walks and the first fit *)

Lemma walk_from fuel h off :
  Forall (fun c => off <= c_off c) (walk fuel h off).
Proof.
  revert off. induction fuel as [|fuel IH]; intros off; [constructor|].
  rewrite walk_S. destruct (off <? MEMLENGTH); [|constructor].
  constructor; [cbn; lia|].
  eapply Forall_impl; [apply IH|]. cbn beta. intros c Hc.
  pose proof (chunk_end_read h off). unfold sizeof_chunk in *. lia.
Qed.

(** A walk meets the chunks in strictly increasing address order. *)
Lemma walk_sorted fuel h off pre c post :
  walk fuel h off = pre ++ c :: post ->
  off <= c_off c
  /\ Forall (fun d => c_off d < c_off c) pre
  /\ Forall (fun d => c_off c < c_off d) post.
Proof.
  revert fuel off. induction pre as [|d pre IH]; intros fuel off E.
  - destruct fuel as [|fuel]; [discriminate|]. rewrite walk_S in E.
    destruct (off <? MEMLENGTH); [|discriminate].
    cbn [app] in E. injection E as <- <-.
    split; [cbn; lia|]. split; [constructor|].
    eapply Forall_impl; [apply walk_from|]. cbn beta. intros d Hd.
    pose proof (chunk_end_read h off). cbn [read_chunk c_off].
    unfold sizeof_chunk in *. lia.
  - destruct fuel as [|fuel]; [discriminate|]. rewrite walk_S in E.
    destruct (off <? MEMLENGTH); [|discriminate].
    cbn [app] in E. injection E as <- E.
    apply IH in E as (Hle & Hpre & Hpost).
    pose proof (chunk_end_read h off). unfold sizeof_chunk in *.
    split; [lia|]. split; [|exact Hpost].
    constructor; [cbn [read_chunk c_off]; lia|exact Hpre].
Qed.

Lemma fits_read h cur aligned :
  (get_allocated h cur =? 0) && (get_size h cur >=? aligned) = true
  <-> fits aligned (read_chunk h cur).
Proof.
  unfold fits, is_free. cbn [read_chunk c_alloc c_size].
  rewrite andb_true_iff. lia.
Qed.

(** On a tiled arena the search loop returns the first chunk of the walk
    that fits. *)
Lemma find_chunk_walk fuel h cur aligned r :
  0 <= cur -> tiles cur (walk fuel h cur) ->
  P1.find_chunk fuel h cur aligned = Some r ->
  match r with
  | Some x =>
      exists pre c post,
        walk fuel h cur = pre ++ c :: post
        /\ c_off c = x /\ fits aligned c
        /\ Forall (fun d => ~ fits aligned d) pre
  | None => Forall (fun d => ~ fits aligned d) (walk fuel h cur)
  end.
Proof.
  revert cur. induction fuel as [|fuel IH]; intros cur Hcur Ht; [discriminate|].
  cbn [P1.find_chunk]. cbv zeta.
  destruct (cur <? MEMLENGTH) eqn:Hin.
  2:{ intros [= <-]. rewrite walk_S, Hin. constructor. }
  destruct (tiled_step fuel h cur ltac:(lia) Ht) as (-> & Hend & Hrest).
  rewrite walk_S, Hin.
  destruct ((get_allocated h cur =? 0) && (get_size h cur >=? aligned)) eqn:Hfit.
  - intros [= <-]. exists [], (read_chunk h cur), (walk fuel h (chunk_end (read_chunk h cur))).
    split; [reflexivity|]. split; [reflexivity|].
    split; [apply fits_read; exact Hfit|constructor].
  - assert (Hno : ~ fits aligned (read_chunk h cur)).
    { intros Hf. apply fits_read in Hf. congruence. }
    destruct ((chunk_end (read_chunk h cur) <=? cur)
              || (chunk_end (read_chunk h cur) >=? MEMLENGTH)) eqn:Hbrk.
    + intros [= <-].
      apply orb_true_iff in Hbrk as [Hb|Hb]; [lia|].
      rewrite walk_outside by lia. constructor; [exact Hno|constructor].
    + intros E. apply IH in E; [|lia|exact Hrest]. destruct r as [x|].
      * destruct E as (pre & c & post & Hw & Hoff & Hfits & Hpre).
        exists (read_chunk h cur :: pre), c, post.
        split; [rewrite Hw; reflexivity|]. split; [exact Hoff|].
        split; [exact Hfits|]. constructor; assumption.
      * constructor; assumption.
Qed.

Lemma find_chunk_chunks h aligned r :
  tiles 0 (chunks h) ->
  P1.find_chunk FUEL h 0 aligned = Some r ->
  match r with
  | Some x =>
      exists pre c post,
        chunks h = pre ++ c :: post
        /\ c_off c = x /\ fits aligned c
        /\ Forall (fun d => ~ fits aligned d) pre
  | None => Forall (fun d => ~ fits aligned d) (chunks h)
  end.
Proof. unfold chunks. apply find_chunk_walk. lia. Qed.

(** C2. On an arena that is tiled by its chunks, as every arena is that
    only [mymalloc] and [myfree] of live pointers have written to, a request
    of [size > 0] makes [mymalloc] return either the payload address of a
    chunk of the walk from the arena base that is free and at least as large
    as the padded size, every chunk at a lower address being allocated or
    too small, or null when no chunk of the walk fits. *)
Theorem first_fit (st : state) (size : Z) :
  arena_ok st ->
  0 < size < SIZE_MOD ->
  exists r st',
    P1.mymalloc st size = Some (r, st')
    /\ match r with
       | Ptr p =>
           exists pre c post,
             chunks (heap (P1.ensure_initialized st)) = pre ++ c :: post
             /\ p = payload c
             /\ fits (P1.aligned_size size) c
             /\ Forall (fun d => c_off d < c_off c
                                 /\ ~ fits (P1.aligned_size size) d) pre
             /\ Forall (fun d => c_off c < c_off d) post
       | NULL =>
           Forall (fun d => ~ fits (P1.aligned_size size) d)
                  (chunks (heap (P1.ensure_initialized st)))
       end.
Proof.
  intros Hok Hsize. apply ensure_initialized_tiles in Hok.
  unfold P1.mymalloc. cbv zeta.
  replace (size =? 0) with false by (symmetry; lia).
  destruct (find_chunk_total FUEL (heap (P1.ensure_initialized st)) 0
              (P1.aligned_size size) enough_FUEL) as [r E].
  rewrite E. apply find_chunk_chunks in E; [|exact Hok]. destruct r as [x|].
  - destruct E as (pre & c & post & Hw & Hoff & Hfits & Hpre).
    do 2 eexists. split; [reflexivity|].
    exists pre, c, post.
    pose proof Hw as Hw'. unfold chunks in Hw'.
    destruct (walk_sorted _ _ _ _ _ _ Hw') as (_ & Hlow & Hhigh).
    split; [exact Hw|]. split; [unfold payload; rewrite Hoff; reflexivity|].
    split; [exact Hfits|]. split; [|exact Hhigh].
    apply Forall_and. split; assumption.
  - do 2 eexists. split; [reflexivity|]. exact E.
Qed.

Lemma first_fit_witness :
  arena_ok five_leaks
  /\ 0 < 10 < SIZE_MOD
  /\ exists r st',
       P1.mymalloc five_leaks 10 = Some (r, st')
       /\ match r with
          | Ptr p =>
              exists pre c post,
                chunks (heap (P1.ensure_initialized five_leaks))
                = pre ++ c :: post
                /\ p = payload c
                /\ fits (P1.aligned_size 10) c
                /\ Forall (fun d => c_off d < c_off c
                                    /\ ~ fits (P1.aligned_size 10) d) pre
                /\ Forall (fun d => c_off c < c_off d) post
          | NULL =>
              Forall (fun d => ~ fits (P1.aligned_size 10) d)
                     (chunks (heap (P1.ensure_initialized five_leaks)))
          end.
Proof.
  assert (Hok : arena_ok five_leaks).
  { split; [reflexivity|]. intros _. vm_compute. repeat split. }
  assert (H : 0 < 10 < SIZE_MOD) by (unfold SIZE_MOD; lia).
  split; [exact Hok|]. split; [exact H|].
  apply (first_fit five_leaks 10); assumption.
Defined.

(** ** Chains of chunks *)

Lemma seg_app h a xs ys b :
  seg h a (xs ++ ys) b <-> exists m, seg h a xs m /\ seg h m ys b.
Proof.
  revert a. induction xs as [|x xs IH]; intros a; cbn [app seg].
  - split.
    + intros H. exists a. auto.
    + intros (m & -> & H). exact H.
  - rewrite IH. split.
    + intros (Hx & Ha & m & H1 & H2). exists m. auto.
    + intros (m & (Hx & Ha & H1) & H2). eauto.
Qed.

Lemma seg_span h a cs b :
  seg h a cs b -> a + sizeof_chunk * Z.of_nat (length cs) <= b.
Proof.
  revert a. induction cs as [|c cs IH]; intros a; cbn [seg length].
  - intros ->. lia.
  - intros (-> & Ha & Hrest). apply IH in Hrest.
    pose proof (chunk_end_read h a). lia.
Qed.

Lemma seg_nil_inv h a cs : seg h a cs a -> cs = [].
Proof.
  intros H. apply seg_span in H. destruct cs; [reflexivity|].
  cbn [length] in H. unfold sizeof_chunk in H. lia.
Qed.

Lemma seg_walk h a cs fuel :
  seg h a cs MEMLENGTH -> enough fuel a -> walk fuel h a = cs.
Proof.
  revert a fuel. induction cs as [|c cs IH]; intros a fuel; cbn [seg].
  - intros -> _. apply walk_outside. lia.
  - intros (-> & Ha & Hrest) Hfuel.
    pose proof (seg_span _ _ _ _ Hrest) as Hspan.
    pose proof (chunk_end_read h a) as Hend. unfold sizeof_chunk in *.
    destruct fuel as [|fuel]; [destruct Hfuel; lia|].
    rewrite walk_S. replace (a <? MEMLENGTH) with true by (symmetry; lia).
    f_equal.
    destruct (Z.eq_dec (chunk_end (read_chunk h a)) MEMLENGTH) as [E|E].
    + rewrite E in *. rewrite (seg_nil_inv _ _ _ Hrest).
      apply walk_outside. lia.
    + apply IH; [exact Hrest|].
      eapply enough_next; [exact Hfuel|lia|lia].
Qed.

Lemma seg_chunks h cs : seg h 0 cs MEMLENGTH -> chunks h = cs.
Proof. intros H. unfold chunks. apply seg_walk; [exact H|apply enough_FUEL]. Qed.

Lemma seg_tiles h a cs : seg h a cs MEMLENGTH -> tiles a cs.
Proof.
  revert a. induction cs as [|c cs IH]; intros a; cbn [seg tiles].
  - auto.
  - intros (-> & Ha & Hrest). split; [reflexivity|]. apply IH. exact Hrest.
Qed.

Lemma walk_seg fuel h a :
  0 <= a -> tiles a (walk fuel h a) -> seg h a (walk fuel h a) MEMLENGTH.
Proof.
  revert a. induction fuel as [|fuel IH]; intros a Ha.
  - cbn. auto.
  - rewrite walk_S. destruct (a <? MEMLENGTH); [|cbn; auto].
    cbn [tiles seg]. intros [_ Hrest].
    split; [reflexivity|]. split; [exact Ha|]. apply IH; [|exact Hrest].
    pose proof (chunk_end_read h a). unfold sizeof_chunk in *. lia.
Qed.

Lemma chunks_seg h : tiles 0 (chunks h) -> seg h 0 (chunks h) MEMLENGTH.
Proof. unfold chunks. apply walk_seg. lia. Qed.

Lemma heap_inv_seg h :
  heap_inv h <->
  exists cs, seg h 0 cs MEMLENGTH /\ sizes_aligned cs /\ no_adjacent_free cs.
Proof.
  split.
  - intros (Ht & Ha & Hn). exists (chunks h).
    split; [apply chunks_seg; exact Ht|]. split; assumption.
  - intros (cs & Hs & Ha & Hn). unfold heap_inv.
    rewrite (seg_chunks _ _ Hs). split; [eapply seg_tiles; exact Hs|auto].
Qed.

(** *** Stores leave the headers they do not overlap alone *)

Lemma seg_frame_below h h' a cs b lo hi :
  same_headers h h' lo hi -> seg h a cs b -> b <= lo -> seg h' a cs b.
Proof.
  intros Hsame. revert a. induction cs as [|c cs IH]; intros a; cbn [seg].
  - auto.
  - intros (-> & Ha & Hrest) Hb.
    pose proof (seg_span _ _ _ _ Hrest) as Hspan.
    pose proof (chunk_end_read h a) as Hend.
    split; [|split; [exact Ha|apply IH; assumption]].
    symmetry. apply Hsame; [exact Ha|]. left. unfold sizeof_chunk in *. lia.
Qed.

Lemma seg_frame_above h h' a cs b lo hi :
  same_headers h h' lo hi -> seg h a cs b -> hi <= a -> seg h' a cs b.
Proof.
  intros Hsame. revert a. induction cs as [|c cs IH]; intros a; cbn [seg].
  - auto.
  - intros (-> & Ha & Hrest) Hb.
    pose proof (chunk_end_read h a) as Hend. unfold sizeof_chunk in Hend.
    split; [|split; [exact Ha|apply IH; [exact Hrest|lia]]].
    symmetry. apply Hsame; [exact Ha|]. right. lia.
Qed.

Lemma same_headers_refl h lo hi : same_headers h h lo hi.
Proof. intros off _ _. reflexivity. Qed.

Lemma same_headers_trans h h1 h2 lo hi :
  same_headers h h1 lo hi -> same_headers h1 h2 lo hi ->
  same_headers h h2 lo hi.
Proof.
  intros H1 H2 off Hoff Hout. rewrite H2, H1 by assumption. reflexivity.
Qed.

Lemma same_headers_set_size h o v lo hi :
  0 <= o -> lo <= o -> o + 8 <= hi -> same_headers h (set_size h o v) lo hi.
Proof.
  intros Ho Hlo Hhi off Hoff Hout. unfold read_chunk, sizeof_chunk in *.
  rewrite get_size_set_size_other, get_allocated_set_size by lia.
  reflexivity.
Qed.

Lemma same_headers_set_allocated h o v lo hi :
  0 <= o -> lo <= o -> o + 12 <= hi ->
  same_headers h (set_allocated h o v) lo hi.
Proof.
  intros Ho Hlo Hhi off Hoff Hout. unfold read_chunk, sizeof_chunk in *.
  rewrite get_size_set_allocated, get_allocated_set_allocated_other by lia.
  reflexivity.
Qed.

Lemma same_headers_insert h (i : nat) b lo hi :
  lo <= Z.of_nat i < hi -> same_headers h (<[i := b]> h) lo hi.
Proof.
  intros Hi off Hoff Hout.
  unfold read_chunk, get_size, get_allocated, sizeof_chunk in *. f_equal.
  - apply load_ext. intros j Hj. apply list_lookup_insert_ne. lia.
  - apply load_ext. intros j Hj. apply list_lookup_insert_ne. lia.
Qed.

(** *** What [mymalloc] writes *)

Ltac lengths :=
  repeat (rewrite length_set_size || rewrite length_set_allocated).

Ltac in_range :=
  lengths; unfold SIZE_MOD; try change (2 ^ 32) with 4294967296;
  try change (2 ^ 64) with 18446744073709551616; lia.

Ltac fields :=
  repeat first
    [ rewrite get_size_set_size by in_range
    | rewrite get_allocated_set_allocated by in_range
    | rewrite get_size_set_allocated by lia
    | rewrite get_allocated_set_size by lia
    | rewrite get_size_set_size_other by lia
    | rewrite get_allocated_set_allocated_other by lia ].

Lemma take_chunk_spec h m a :
  Z.of_nat (length h) = MEMLENGTH ->
  0 <= m -> m + sizeof_chunk + get_size h m <= MEMLENGTH ->
  0 <= a <= get_size h m ->
  length (P1.take_chunk h m a) = length h
  /\ same_headers h (P1.take_chunk h m a) m (m + sizeof_chunk + get_size h m)
  /\ if a + sizeof_chunk + MIN_CHUNK_SIZE <=? get_size h m
     then read_chunk (P1.take_chunk h m a) m = mkChunk m a 1
          /\ read_chunk (P1.take_chunk h m a) (m + sizeof_chunk + a)
             = mkChunk (m + sizeof_chunk + a)
                       (get_size h m - a - sizeof_chunk) 0
     else read_chunk (P1.take_chunk h m a) m = mkChunk m (get_size h m) 1.
Proof.
  intros Hlen Hm Hend Ha. unfold P1.take_chunk.
  unfold sizeof_chunk, MIN_CHUNK_SIZE, MEMLENGTH in *.
  set (s := get_size h m) in *.
  assert (Hw : wrap (wrap (a + 16) + 16) = a + 16 + 16).
  { rewrite (wrap_small (a + 16)) by (unfold SIZE_MOD; lia).
    apply wrap_small. unfold SIZE_MOD. lia. }
  rewrite Hw.
  destruct (a + 16 + 16 <=? s) eqn:Hsplit.
  - replace (s >=? a + 16 + 16) with true by (symmetry; lia).
    assert (Hr : wrap (wrap (s - a) - 16) = s - a - 16).
    { rewrite (wrap_small (s - a)) by (unfold SIZE_MOD; lia).
      apply wrap_small. unfold SIZE_MOD. lia. }
    rewrite Hr.
    replace (advance m (16 + a)) with (m + 16 + a)
      by (rewrite advance_inside; unfold MEMLENGTH; lia).
    split; [lengths; reflexivity|]. split.
    + eapply same_headers_trans; [|apply same_headers_set_allocated; lia].
      eapply same_headers_trans; [|apply same_headers_set_size; lia].
      eapply same_headers_trans; [|apply same_headers_set_allocated; lia].
      apply same_headers_set_size; lia.
    + unfold read_chunk. split; f_equal; fields; reflexivity.
  - replace (s >=? a + 16 + 16) with false by (symmetry; lia).
    split; [lengths; reflexivity|]. split.
    + apply same_headers_set_allocated; lia.
    + unfold read_chunk. f_equal; fields; reflexivity.
Qed.

Lemma seg_cons_inv h a c cs b :
  seg h a (c :: cs) b ->
  c_off c = a /\ c_size c = get_size h a /\ c_alloc c = get_allocated h a
  /\ 0 <= a /\ chunk_end c <= b /\ seg h (chunk_end c) cs b.
Proof.
  cbn [seg]. intros (-> & Ha & Hrest).
  pose proof (seg_span _ _ _ _ Hrest) as Hspan. unfold sizeof_chunk in Hspan.
  repeat split; try assumption; try reflexivity. lia.
Qed.

Lemma take_chunk_seg h pre c post a :
  Z.of_nat (length h) = MEMLENGTH ->
  seg h 0 (pre ++ c :: post) MEMLENGTH ->
  0 <= a <= c_size c ->
  length (P1.take_chunk h (c_off c) a) = length h
  /\ seg (P1.take_chunk h (c_off c) a) 0
         (pre ++ allocate_in a c ++ post) MEMLENGTH.
Proof.
  intros Hlen Hseg Ha.
  apply seg_app in Hseg as (m & Hpre & Hc).
  apply seg_cons_inv in Hc as (Hoff & Hsz & Hal & Hm & Hend & Hpost).
  unfold chunk_end in *. rewrite Hoff, Hsz in *.
  destruct (take_chunk_spec h m a Hlen Hm Hend Ha) as (Hlen' & Hsame & Hnew).
  split; [exact Hlen'|].
  apply seg_app. exists m. split.
  { eapply seg_frame_below; [exact Hsame|exact Hpre|lia]. }
  apply seg_app. exists (m + sizeof_chunk + get_size h m). split.
  - unfold allocate_in. rewrite Hoff, Hsz.
    destruct (a + sizeof_chunk + MIN_CHUNK_SIZE <=? get_size h m) eqn:Hsplit.
    + destruct Hnew as [Hlow Hhigh]. cbn [seg].
      unfold chunk_end. cbn [c_off c_size].
      split; [symmetry; exact Hlow|]. split; [exact Hm|].
      split; [symmetry; exact Hhigh|].
      unfold sizeof_chunk in *. split; lia.
    + cbn [seg]. unfold chunk_end. cbn [c_off c_size].
      split; [symmetry; exact Hnew|]. split; [exact Hm|reflexivity].
  - eapply seg_frame_above; [exact Hsame|exact Hpost|lia].
Qed.

Lemma ensure_initialized_length st :
  length (heap (P1.ensure_initialized st)) = length (heap st).
Proof.
  unfold P1.ensure_initialized. destruct (initialized st); [reflexivity|].
  unfold P1.initialize_heap. cbn [heap atexit]. lengths. reflexivity.
Qed.

(** What a successful [mymalloc] does to the chunks of a tiled arena. *)
Lemma mymalloc_chunks st size p st' :
  0 < size < SIZE_MOD ->
  length (heap st) = Z.to_nat MEMLENGTH ->
  tiles 0 (chunks (heap (P1.ensure_initialized st))) ->
  P1.mymalloc st size = Some (Ptr p, st') ->
  exists pre c post,
    chunks (heap (P1.ensure_initialized st)) = pre ++ c :: post
    /\ p = payload c
    /\ fits (P1.aligned_size size) c
    /\ length (heap st') = length (heap st)
    /\ chunks (heap st') = pre ++ allocate_in (P1.aligned_size size) c ++ post
    /\ tiles 0 (chunks (heap st')).
Proof.
  intros Hsize Hlen Htiles. unfold P1.mymalloc. cbv zeta.
  replace (size =? 0) with false by (symmetry; lia).
  destruct (P1.find_chunk FUEL (heap (P1.ensure_initialized st)) 0
              (P1.aligned_size size)) as [[x|]|] eqn:E;
    [|discriminate|discriminate].
  intros [= <- <-]. apply find_chunk_chunks in E; [|exact Htiles].
  destruct E as (pre & c & post & Hw & <- & Hfits & _).
  exists pre, c, post. split; [exact Hw|]. split; [reflexivity|].
  split; [exact Hfits|].
  apply chunks_seg in Htiles. rewrite Hw in Htiles.
  assert (Hlen' : Z.of_nat (length (heap (P1.ensure_initialized st))) = MEMLENGTH).
  { rewrite ensure_initialized_length. apply arena_length. exact Hlen. }
  destruct (take_chunk_seg _ _ _ _ (P1.aligned_size size) Hlen' Htiles)
    as [Hl Hs].
  { destruct Hfits as [_ Hle]. pose proof (aligned_size_bound size). lia. }
  cbn [heap with_heap]. split; [|split].
  - rewrite Hl. apply ensure_initialized_length.
  - apply seg_chunks. exact Hs.
  - rewrite (seg_chunks _ _ Hs). eapply seg_tiles. exact Hs.
Qed.

(** C3 (as the code has it). When [mymalloc] selects a free chunk of a
    tiled arena, it splits the chunk exactly when the payload size is at
    least [paddedSize + H + M]: the low part becomes an allocated chunk of
    payload [paddedSize], and a new free chunk of payload
    [oldSize - paddedSize - H] follows it immediately.  Otherwise the whole
    chunk is marked allocated and keeps its payload size.  The chunks before
    and after are the same as before the call, and a call that returns null
    leaves the arena as it was. *)
Theorem split_policy (st : state) (size : Z) :
  0 < size < SIZE_MOD ->
  arena_ok st ->
  exists r st',
    P1.mymalloc st size = Some (r, st')
    /\ match r with
       | Ptr p =>
           exists pre c post,
             chunks (heap (P1.ensure_initialized st)) = pre ++ c :: post
             /\ p = payload c
             /\ fits (P1.aligned_size size) c
             /\ chunks (heap st') =
                pre ++
                (if P1.aligned_size size + sizeof_chunk + MIN_CHUNK_SIZE
                    <=? c_size c
                 then [mkChunk (c_off c) (P1.aligned_size size) 1;
                       mkChunk (c_off c + sizeof_chunk + P1.aligned_size size)
                               (c_size c - P1.aligned_size size - sizeof_chunk)
                               0]
                 else [mkChunk (c_off c) (c_size c) 1])
                ++ post
       | NULL => heap st' = heap (P1.ensure_initialized st)
       end.
Proof.
  intros Hsize Hok.
  destruct (mymalloc_total st size) as (r & st' & E).
  exists r, st'. split; [exact E|]. destruct r as [|p].
  - revert E. unfold P1.mymalloc. cbv zeta.
    replace (size =? 0) with false by (symmetry; lia).
    destruct (P1.find_chunk _ _ _ _) as [[x|]|]; [discriminate| |discriminate].
    intros [= <-]. reflexivity.
  - destruct (mymalloc_chunks st size p st' Hsize (proj1 Hok)
                (ensure_initialized_tiles st Hok) E)
      as (pre & c & post & Hcs & Hp & Hfits & _ & Hcs' & _).
    exists pre, c, post. auto.
Qed.

Lemma split_policy_witness :
  0 < 10 < SIZE_MOD
  /\ arena_ok five_leaks
  /\ exists r st',
       P1.mymalloc five_leaks 10 = Some (r, st')
       /\ match r with
          | Ptr p =>
              exists pre c post,
                chunks (heap (P1.ensure_initialized five_leaks))
                = pre ++ c :: post
                /\ p = payload c
                /\ fits (P1.aligned_size 10) c
                /\ chunks (heap st') =
                   pre ++
                   (if P1.aligned_size 10 + sizeof_chunk + MIN_CHUNK_SIZE
                       <=? c_size c
                    then [mkChunk (c_off c) (P1.aligned_size 10) 1;
                          mkChunk (c_off c + sizeof_chunk + P1.aligned_size 10)
                                  (c_size c - P1.aligned_size 10 - sizeof_chunk)
                                  0]
                    else [mkChunk (c_off c) (c_size c) 1])
                   ++ post
          | NULL => heap st' = heap (P1.ensure_initialized five_leaks)
          end.
Proof.
  assert (Hsize : 0 < 10 < SIZE_MOD) by (unfold SIZE_MOD; lia).
  assert (Hok : arena_ok five_leaks).
  { split; [vm_compute; reflexivity|]. intros _. vm_compute. repeat split. }
  split; [exact Hsize|]. split; [exact Hok|].
  apply (split_policy five_leaks 10 Hsize Hok).
Defined.

(** C3 as stated fails at the threshold itself.  After
    [p1 = malloc(48); p2 = malloc(8); free(p1);] the first chunk is free
    with payload 48, which equals [paddedSize + H + M] for a request of 16
    and so does not exceed it; [malloc(16)] still splits that chunk, into
    an allocated chunk of payload 16 and a free chunk of payload 16. *)
Lemma split_at_exact_threshold :
  exists st st',
    hole_of_48 = Some st
    /\ take 1 (chunks (heap st)) = [mkChunk 0 48 0]
    /\ ~ (48 > P1.aligned_size 16 + sizeof_chunk + MIN_CHUNK_SIZE)
    /\ P1.mymalloc st 16 = Some (Ptr 16, st')
    /\ take 2 (chunks (heap st')) = [mkChunk 0 16 1; mkChunk 32 16 0].
Proof.
  eassert (E0 : hole_of_48 = Some _) by (vm_compute; reflexivity).
  match type of E0 with
  | _ = Some ?s =>
    eassert (E1 : P1.mymalloc s 16 = Some (Ptr 16, _))
      by (vm_compute; reflexivity)
  end.
  do 2 eexists. split; [exact E0|].
  split; [vm_compute; reflexivity|].
  split; [vm_compute; discriminate|].
  split; [exact E1|]. vm_compute. reflexivity.
Qed.

(** ** The invariants under [mymalloc] and [myfree] *)

Lemma naf_cons x l :
  no_adjacent_free (x :: l)
  <-> match l with
      | c2 :: _ => ~ (is_free x /\ is_free c2)
      | [] => True
      end /\ no_adjacent_free l.
Proof. reflexivity. Qed.

Lemma naf_app_cons xs c ys :
  no_adjacent_free (xs ++ c :: ys)
  <-> no_adjacent_free (xs ++ [c]) /\ no_adjacent_free (c :: ys).
Proof.
  induction xs as [|x xs IH].
  - cbn. tauto.
  - cbn [app].
    rewrite (naf_cons x (xs ++ c :: ys)), (naf_cons x (xs ++ [c])), IH.
    destruct xs; cbn [app]; tauto.
Qed.

Lemma naf_head_mono c c' ys :
  no_adjacent_free (c :: ys) -> (is_free c' -> is_free c) ->
  no_adjacent_free (c' :: ys).
Proof. destruct ys; cbn; tauto. Qed.

Lemma naf_last_mono xs c c' :
  no_adjacent_free (xs ++ [c]) -> (is_free c' -> is_free c) ->
  no_adjacent_free (xs ++ [c']).
Proof.
  intros H Himp. induction xs as [|x xs IH]; [cbn; auto|].
  cbn [app] in *. apply naf_cons in H as [Hx Hrest]. apply naf_cons.
  split; [|apply IH; exact Hrest].
  destruct xs; cbn [app] in *; tauto.
Qed.

Lemma naf_tail c ys : no_adjacent_free (c :: ys) -> no_adjacent_free ys.
Proof. cbn. tauto. Qed.

Lemma allocate_in_inv pre c post a :
  a mod ALIGNMENT = 0 -> is_free c ->
  sizes_aligned (pre ++ c :: post) ->
  no_adjacent_free (pre ++ c :: post) ->
  sizes_aligned (pre ++ allocate_in a c ++ post)
  /\ no_adjacent_free (pre ++ allocate_in a c ++ post).
Proof.
  intros Ha Hfree Hal Hnaf. unfold sizes_aligned in *.
  apply Forall_app in Hal as [Hpre Hal]. apply Forall_cons in Hal as [Hc Hpost].
  apply naf_app_cons in Hnaf as [Hn1 Hn2].
  assert (Hone : forall o s, ~ is_free (mkChunk o s 1))
    by (unfold is_free; cbn; lia).
  unfold allocate_in.
  destruct (a + sizeof_chunk + MIN_CHUNK_SIZE <=? c_size c); cbn [app]; split.
  - apply Forall_app. split; [exact Hpre|].
    constructor; [exact Ha|]. constructor; [|exact Hpost]. cbn [c_size].
    unfold ALIGNMENT, sizeof_chunk in *.
    rewrite <- Z.sub_add_distr, Zminus_mod, Hc, Zplus_mod, Ha. reflexivity.
  - apply naf_app_cons. split.
    + eapply naf_last_mono; [exact Hn1|]. intros Hf. destruct (Hone _ _ Hf).
    + cbn [no_adjacent_free]. split.
      * intros [Hf _]. destruct (Hone _ _ Hf).
      * eapply naf_head_mono; [exact Hn2|]. auto.
  - apply Forall_app. split; [exact Hpre|]. constructor; assumption.
  - apply naf_app_cons. split.
    + eapply naf_last_mono; [exact Hn1|]. intros Hf. destruct (Hone _ _ Hf).
    + eapply naf_head_mono; [exact Hn2|]. intros Hf. destruct (Hone _ _ Hf).
Qed.

Lemma initialize_heap_inv st :
  length (heap st) = Z.to_nat MEMLENGTH -> heap_inv (heap (P1.initialize_heap st)).
Proof.
  intros Hlen. unfold heap_inv. rewrite initialize_heap_chunks by exact Hlen.
  split; [cbn; auto|]. split; [|cbn; auto].
  constructor; [reflexivity|constructor].
Qed.

Lemma ensure_initialized_inv st :
  state_inv st ->
  heap_inv (heap (P1.ensure_initialized st))
  /\ initialized (P1.ensure_initialized st) = true.
Proof.
  intros [Hlen Hinv]. unfold P1.ensure_initialized.
  destruct (initialized st) eqn:Hinit; [auto|].
  split; [apply initialize_heap_inv; exact Hlen|reflexivity].
Qed.

Lemma mymalloc_inv st size p st' :
  0 <= size < SIZE_MOD -> state_inv st ->
  P1.mymalloc st size = Some (p, st') ->
  state_inv st' /\ initialized st' = true.
Proof.
  intros Hsize Hinv E.
  destruct (ensure_initialized_inv st Hinv) as [Hheap Hinit].
  destruct (mymalloc_frame _ _ _ _ E) as [Hi' _]. rewrite Hinit in Hi'.
  split; [|exact Hi'].
  destruct p as [|p].
  - assert (Hh : heap st' = heap (P1.ensure_initialized st)).
    { revert E. unfold P1.mymalloc. cbv zeta.
      destruct (size =? 0); [intros [= <-]; reflexivity|].
      destruct (P1.find_chunk _ _ _ _) as [[x|]|]; [discriminate| |discriminate].
      intros [= <-]. reflexivity. }
    split; [rewrite Hh, ensure_initialized_length; exact (proj1 Hinv)|].
    intros _. rewrite Hh. exact Hheap.
  - assert (Hpos : 0 < size < SIZE_MOD).
    { destruct (Z.eq_dec size 0) as [->|]; [|lia].
      rewrite mymalloc_zero in E. discriminate. }
    destruct (mymalloc_chunks st size p st' Hpos (proj1 Hinv) (proj1 Hheap) E)
      as (pre & c & post & Hcs & _ & Hfits & Hlen' & Hcs' & Ht').
    split; [rewrite Hlen'; exact (proj1 Hinv)|]. intros _.
    destruct Hheap as (_ & Ha & Hn). rewrite Hcs in Ha, Hn.
    destruct (allocate_in_inv pre c post (P1.aligned_size size)
                (aligned_size_multiple size) (proj1 Hfits) Ha Hn) as [Ha' Hn'].
    unfold heap_inv. split; [exact Ht'|]. rewrite Hcs'. split; assumption.
Qed.

(** *** What [myfree] writes *)

Lemma coalesce_forward_seg h pre c post :
  Z.of_nat (length h) = MEMLENGTH ->
  seg h 0 (pre ++ c :: post) MEMLENGTH ->
  exists c' post2,
    length (P1.coalesce_forward h (c_off c)) = length h
    /\ seg (P1.coalesce_forward h (c_off c)) 0 (pre ++ c' :: post2) MEMLENGTH
    /\ c_off c' = c_off c /\ is_free c'
    /\ ((post2 = post /\ c_size c' = c_size c
         /\ match post with n :: _ => ~ is_free n | [] => True end)
        \/ exists n, post = n :: post2 /\ is_free n
                     /\ c_size c' = c_size c + sizeof_chunk + c_size n).
Proof.
  intros Hlen Hseg.
  apply seg_app in Hseg as (m & Hpre & Hc).
  apply seg_cons_inv in Hc as (Hoff & Hsz & Hal & Hm & Hend & Hpost).
  unfold chunk_end in *. rewrite Hoff, Hsz in *. clear Hoff Hsz Hal.
  unfold P1.coalesce_forward, is_free.
  unfold sizeof_chunk, MEMLENGTH in *.
  set (s := get_size h m) in *.
  assert (Hs : 0 <= s < SIZE_MOD) by apply get_size_bound.
  assert (Hs1 : get_size (set_allocated h m 0) m = s) by (fields; reflexivity).
  assert (Ha1 : get_allocated (set_allocated h m 0) m = 0) by (fields; reflexivity).
  assert (Hsame1 : same_headers h (set_allocated h m 0) m (m + 16))
    by (apply same_headers_set_allocated; lia).
  rewrite Hs1.
  replace (advance m (16 + s)) with (m + 16 + s)
    by (rewrite advance_inside; unfold MEMLENGTH; lia).
  destruct post as [|n post'].
  - cbn [seg] in Hpost.
    replace ((m + 16 + s <? 4096) && (get_allocated (set_allocated h m 0) (m + 16 + s) =? 0))
      with false by (symmetry; apply andb_false_iff; left; lia).
    exists (mkChunk m s 0), []. cbn [c_off c_size c_alloc].
    split; [lengths; reflexivity|].
    split; [|split; [reflexivity|split; [reflexivity|left; auto]]].
    apply seg_app. exists m. split.
    + eapply seg_frame_below; [exact Hsame1|exact Hpre|lia].
    + cbn [seg]. unfold chunk_end. cbn [c_off c_size].
      unfold read_chunk. rewrite Hs1, Ha1. auto.
  - apply seg_cons_inv in Hpost as (Hnoff & Hnsz & Hnal & _ & Hnend & Hpost').
    unfold chunk_end, sizeof_chunk in *. rewrite Hnoff in *.
    pose proof (get_size_bound h (m + 16 + s)) as Hns. rewrite <- Hnsz in Hns.
    assert (Hn1 : read_chunk (set_allocated h m 0) (m + 16 + s)
                  = read_chunk h (m + 16 + s)).
    { apply Hsame1; lia. }
    pose proof Hn1 as Hn1'.
    injection Hn1 as Hns1 Hna1. rewrite Hns1, Hna1, <- Hnsz, <- Hnal.
    replace (m + 16 + s <? 4096) with true by (symmetry; lia).
    cbn [andb].
    destruct (c_alloc n =? 0) eqn:Hnfree.
    + assert (Hw : wrap (s + wrap (16 + c_size n)) = s + 16 + c_size n).
      { rewrite (wrap_small (16 + c_size n)) by (unfold SIZE_MOD in *; lia).
        rewrite wrap_small by (unfold SIZE_MOD in *; lia). lia. }
      rewrite Hw.
      assert (Hsame2 : same_headers h
                         (set_size (set_allocated h m 0) m (s + 16 + c_size n))
                         m (m + 16)).
      { eapply same_headers_trans; [exact Hsame1|].
        apply same_headers_set_size; lia. }
      exists (mkChunk m (s + 16 + c_size n) 0), post'.
      cbn [c_off c_size c_alloc].
      split; [lengths; reflexivity|]. split.
      * apply seg_app. exists m. split.
        { eapply seg_frame_below; [exact Hsame2|exact Hpre|lia]. }
        cbn [seg]. unfold chunk_end. cbn [c_off c_size].
        split; [|split; [exact Hm|]].
        { unfold read_chunk. f_equal; fields; reflexivity. }
        replace (m + sizeof_chunk + (s + 16 + c_size n))
          with (m + 16 + s + 16 + c_size n) by (unfold sizeof_chunk; lia).
        eapply seg_frame_above; [exact Hsame2|exact Hpost'|lia].
      * split; [reflexivity|]. split; [reflexivity|]. right.
        exists n. split; [reflexivity|]. split; [lia|reflexivity].
    + exists (mkChunk m s 0), (n :: post'). cbn [c_off c_size c_alloc].
      split; [lengths; reflexivity|]. split.
      * apply seg_app. exists m. split.
        { eapply seg_frame_below; [exact Hsame1|exact Hpre|lia]. }
        cbn [seg]. unfold chunk_end. cbn [c_off c_size]. unfold sizeof_chunk.
        split; [unfold read_chunk; rewrite Hs1, Ha1; reflexivity|].
        split; [exact Hm|].
        split.
        { rewrite Hn1'. unfold read_chunk.
          destruct n as [no ns na]; cbn in *. congruence. }
        split; [lia|]. rewrite Hnoff.
        eapply seg_frame_above; [exact Hsame1|exact Hpost'|lia].
      * split; [reflexivity|]. split; [reflexivity|]. left.
        split; [reflexivity|]. split; [reflexivity|]. unfold is_free. lia.
Qed.

(** The scan of [myfree] finds the chunk that ends where [m] starts. *)
Lemma find_prev_seg fuel h a pre m :
  seg h a pre m -> m <= MEMLENGTH -> enough fuel a ->
  P1.find_prev fuel h m a = Some (c_off <$> last pre).
Proof.
  revert a fuel. induction pre as [|p pre IH]; intros a fuel Hseg Hm Hfuel;
    (destruct fuel as [|fuel]; [destruct Hfuel; lia|]); cbn [P1.find_prev].
  - cbn [seg] in Hseg. subst m. rewrite Z.eqb_refl. reflexivity.
  - apply seg_cons_inv in Hseg as (Hoff & Hsz & _ & Ha & Hend & Hrest).
    pose proof (seg_span _ _ _ _ Hrest) as Hspan.
    unfold chunk_end in *. rewrite Hoff, Hsz in *.
    pose proof (get_size_bound h a) as Hs. unfold sizeof_chunk in *.
    replace (a =? m) with false by (symmetry; lia).
    replace (a <? MEMLENGTH) with true by (symmetry; lia).
    cbn [negb andb].
    replace (advance a (16 + get_size h a)) with (a + 16 + get_size h a)
      by (rewrite advance_inside; lia).
    destruct (a + 16 + get_size h a =? m) eqn:Hnext.
    + apply Z.eqb_eq in Hnext. rewrite Hnext in Hrest.
      rewrite (seg_nil_inv _ _ _ Hrest). cbn. rewrite Hoff. reflexivity.
    + apply Z.eqb_neq in Hnext.
      destruct pre as [|q pre]; [cbn [seg] in Hrest; lia|].
      cbn [length] in Hspan.
      replace ((a + 16 + get_size h a <=? a)
               || (a + 16 + get_size h a >=? MEMLENGTH))
        with false by (symmetry; apply orb_false_iff; lia).
      rewrite (IH _ fuel Hrest Hm);
        [reflexivity|eapply enough_next; [exact Hfuel|lia|lia]].
Qed.

Lemma coalesce_backward_seg h pre c post :
  Z.of_nat (length h) = MEMLENGTH ->
  seg h 0 (pre ++ c :: post) MEMLENGTH ->
  exists h',
    P1.coalesce_backward h (c_off c) = Some h'
    /\ length h' = length h
    /\ ((h' = h
         /\ match last pre with Some p => ~ is_free p | None => True end)
        \/ exists pre' p,
             pre = pre' ++ [p] /\ is_free p
             /\ seg h' 0
                    (pre' ++ mkChunk (c_off p)
                                     (c_size p + sizeof_chunk + c_size c)
                                     (c_alloc p) :: post)
                    MEMLENGTH).
Proof.
  intros Hlen Hseg.
  pose proof Hseg as Hall.
  apply seg_app in Hseg as (m & Hpre & Hc).
  apply seg_cons_inv in Hc as (Hoff & Hsz & _ & Hm & Hend & Hpost).
  assert (Hmle : m <= MEMLENGTH).
  { unfold chunk_end, sizeof_chunk in Hend. rewrite Hoff, Hsz in Hend.
    pose proof (get_size_bound h m). lia. }
  unfold P1.coalesce_backward. rewrite Hoff.
  rewrite (find_prev_seg FUEL h 0 pre m Hpre); [|lia|apply enough_FUEL].
  destruct pre as [|p pre'] using rev_ind.
  { exists h. split; [reflexivity|]. split; [reflexivity|]. left.
    split; [reflexivity|exact I]. }
  rewrite last_snoc. cbn [fmap option_fmap option_map].
  apply seg_app in Hpre as (mp & Hpre' & Hp).
  apply seg_cons_inv in Hp as (Hpoff & Hpsz & Hpal & Hmp & _ & Hnil).
  cbn [seg] in Hnil. unfold chunk_end in *.
  rewrite Hpoff, Hpsz, Hoff, Hsz in *. rewrite <- Hpal.
  pose proof (get_size_bound h mp) as Hps.
  pose proof (get_size_bound h m) as Hs.
  unfold sizeof_chunk, MEMLENGTH in *.
  destruct (c_alloc p =? 0) eqn:Hpfree.
  - eexists. split; [reflexivity|]. split; [lengths; reflexivity|]. right.
    exists pre', p. split; [reflexivity|]. split; [unfold is_free; lia|].
    assert (Hw : wrap (get_size h mp + wrap (16 + get_size h m))
                 = get_size h mp + 16 + get_size h m).
    { rewrite (wrap_small (16 + _)) by (unfold SIZE_MOD in *; lia).
      rewrite wrap_small by (unfold SIZE_MOD in *; lia). lia. }
    rewrite Hw.
    assert (Hsame : same_headers h
                      (set_size h mp (get_size h mp + 16 + get_size h m))
                      mp (mp + 16))
      by (apply same_headers_set_size; lia).
    rewrite ?Hpoff, ?Hpsz, ?Hoff, ?Hsz.
    apply seg_app. exists mp. split.
    + eapply seg_frame_below; [exact Hsame|exact Hpre'|lia].
    + cbn [seg]. unfold chunk_end. cbn [c_off c_size]. unfold sizeof_chunk.
      split; [|split; [exact Hmp|]].
      * unfold read_chunk. f_equal; [fields; reflexivity|fields; exact Hpal].
      * replace (mp + 16 + (get_size h mp + 16 + get_size h m))
          with (m + 16 + get_size h m) by lia.
        eapply seg_frame_above; [exact Hsame|exact Hpost|lia].
  - eexists. split; [reflexivity|]. split; [reflexivity|]. left.
    split; [reflexivity|]. unfold is_free. lia.
Qed.

Lemma mod_add3 a b : a mod ALIGNMENT = 0 -> b mod ALIGNMENT = 0 ->
  (a + sizeof_chunk + b) mod ALIGNMENT = 0.
Proof.
  unfold ALIGNMENT, sizeof_chunk. intros Ha Hb.
  rewrite Zplus_mod, Hb, Z.add_0_r, Z.mod_mod by lia.
  rewrite Zplus_mod, Ha. reflexivity.
Qed.

Lemma release_inv h pre c post :
  Z.of_nat (length h) = MEMLENGTH ->
  seg h 0 (pre ++ c :: post) MEMLENGTH ->
  sizes_aligned (pre ++ c :: post) ->
  no_adjacent_free (pre ++ c :: post) ->
  exists h' cs',
    P1.release h (c_off c) = Some h'
    /\ length h' = length h
    /\ seg h' 0 cs' MEMLENGTH
    /\ sizes_aligned cs' /\ no_adjacent_free cs'.
Proof.
  intros Hlen Hseg Hal Hnaf. unfold sizes_aligned in *.
  apply Forall_app in Hal as [Hapre Hal].
  apply Forall_cons in Hal as [Hac Hapost].
  apply naf_app_cons in Hnaf as [Hnpre Hnpost].
  destruct (coalesce_forward_seg h pre c post Hlen Hseg)
    as (c' & post2 & Hl2 & Hseg2 & Hoff' & Hfree' & Hcase).
  (* the chunk and what follows it, after the forward step *)
  assert (Hfw : c_size c' mod ALIGNMENT = 0
                /\ Forall (fun d => c_size d mod ALIGNMENT = 0) post2
                /\ no_adjacent_free (c' :: post2)).
  { destruct Hcase as [(-> & Hsz & Hnext)|(n & -> & Hnfree & Hsz)].
    - rewrite Hsz. split; [exact Hac|]. split; [exact Hapost|].
      apply naf_cons. split; [|eapply naf_tail; exact Hnpost].
      destruct post as [|n post]; [exact I|tauto].
    - apply Forall_cons in Hapost as [Han Hapost].
      rewrite Hsz. split; [apply mod_add3; assumption|].
      split; [exact Hapost|].
      eapply naf_head_mono; [eapply naf_tail; exact Hnpost|auto]. }
  destruct Hfw as (Hac' & Hapost2 & Hnpost2).
  unfold P1.release.
  destruct (coalesce_backward_seg (P1.coalesce_forward h (c_off c)) pre c' post2)
    as (h' & E & Hl' & Hcase'); [rewrite Hl2; exact Hlen|exact Hseg2|].
  rewrite Hoff' in E.
  destruct Hcase' as [(-> & Hlast)|(pre' & p & -> & Hpfree & Hseg')].
  - exists (P1.coalesce_forward h (c_off c)), (pre ++ c' :: post2).
    split; [exact E|]. split; [exact Hl2|].
    split; [exact Hseg2|]. split.
    + apply Forall_app. split; [exact Hapre|]. constructor; assumption.
    + apply naf_app_cons. split; [|exact Hnpost2].
      destruct pre as [|p pre'] using rev_ind; [cbn; auto|].
      rewrite last_snoc in Hlast. rewrite <- app_assoc in *. cbn [app] in *.
      apply naf_app_cons in Hnpre as [Hn1 _].
      apply naf_app_cons. split; [exact Hn1|]. cbn. tauto.
  - exists h'.
    exists (pre' ++ mkChunk (c_off p) (c_size p + sizeof_chunk + c_size c')
                            (c_alloc p) :: post2).
    split; [exact E|]. split; [rewrite Hl', Hl2; reflexivity|].
    split; [exact Hseg'|].
    apply Forall_app in Hapre as [Hapre' Hap].
    apply Forall_cons in Hap as [Hap _].
    rewrite <- app_assoc in Hnpre. cbn [app] in Hnpre.
    apply naf_app_cons in Hnpre as [Hn1 _]. split.
    + apply Forall_app. split; [exact Hapre'|].
      constructor; [|exact Hapost2]. cbn [c_size]. apply mod_add3; assumption.
    + apply naf_app_cons. split.
      * eapply naf_last_mono; [exact Hn1|]. unfold is_free. cbn. auto.
      * eapply naf_head_mono; [exact Hnpost2|auto].
Qed.

Lemma walk_reads fuel h off c :
  In c (walk fuel h off) -> c = read_chunk h (c_off c).
Proof.
  revert off. induction fuel as [|fuel IH]; intros off; [intros []|].
  rewrite walk_S. destruct (off <? MEMLENGTH); [|intros []].
  intros [<-|Hin]; [reflexivity|]. eapply IH. exact Hin.
Qed.

Lemma nothing_allocated_at_start c :
  In c (chunks (heap initial_state)) -> is_free c.
Proof.
  unfold chunks. intros Hin. apply walk_reads in Hin. rewrite Hin.
  unfold is_free, read_chunk, get_allocated, initial_state.
  cbn [c_alloc heap]. apply load_replicate_zero.
Qed.

Lemma fair_inv_state_inv st : fair_inv st -> state_inv st.
Proof.
  intros [Hlen Hcase]. split; [exact Hlen|].
  intros Hinit. rewrite Hinit in Hcase. exact Hcase.
Qed.

Lemma fair_inv_initialized st :
  fair_inv st -> (exists c, In c (chunks (heap st)) /\ is_allocated c) ->
  initialized st = true /\ heap_inv (heap st).
Proof.
  intros [Hlen Hcase] (c & Hin & Hal).
  destruct (initialized st); [split; [reflexivity|exact Hcase]|].
  rewrite Hcase in Hin. apply nothing_allocated_at_start in Hin.
  unfold is_free, is_allocated in *. lia.
Qed.

Lemma myfree_live_inv st c st' :
  length (heap st) = Z.to_nat MEMLENGTH ->
  heap_inv (heap st) -> In c (chunks (heap st)) ->
  P1.myfree st (Ptr (payload c)) = Some (Returned st') ->
  length (heap st') = length (heap st) /\ heap_inv (heap st')
  /\ initialized st' = initialized st.
Proof.
  intros Hlen (Ht & Ha & Hn) Hin E.
  destruct (accepted_dec (heap st) (payload c)) as [Hacc|Hrej].
  2:{ exfalso. apply Hrej. eapply myfree_returned_accepted. eassumption. }
  rewrite (myfree_accepted _ _ Hacc) in E.
  replace (payload c - sizeof_chunk) with (c_off c) in E
    by (unfold payload; lia).
  apply chunks_seg in Ht.
  apply in_split in Hin as (pre & post & Hcs). rewrite Hcs in *.
  destruct (release_inv (heap st) pre c post (arena_length _ Hlen) Ht Ha Hn)
    as (h' & cs' & Hrel & Hl' & Hseg' & Ha' & Hn').
  rewrite Hrel in E. injection E as <-. cbn [heap with_heap initialized].
  split; [exact Hl'|]. split; [|reflexivity].
  apply heap_inv_seg. exists cs'. auto.
Qed.

Lemma poke_inv h c i b :
  heap_inv h -> In c (chunks h) -> payload c <= i < chunk_end c ->
  heap_inv (<[Z.to_nat i := b]> h).
Proof.
  intros (Ht & Ha & Hn) Hin Hi.
  apply heap_inv_seg. exists (chunks h). split; [|split; assumption].
  apply chunks_seg in Ht.
  apply in_split in Hin as (pre & post & Hcs). rewrite Hcs in *.
  apply seg_app in Ht as (m & Hpre & Hc).
  pose proof Hc as Hc'.
  apply seg_cons_inv in Hc' as (Hoff & _ & _ & Hm & _ & Hpost).
  unfold payload, sizeof_chunk in Hi. rewrite Hoff in Hi.
  assert (Hsame : same_headers h (<[Z.to_nat i := b]> h)
                    (m + sizeof_chunk) (chunk_end c)).
  { apply same_headers_insert. unfold sizeof_chunk. lia. }
  apply seg_app. exists m. split.
  - eapply seg_frame_below; [exact Hsame|exact Hpre|unfold sizeof_chunk; lia].
  - cbn [seg] in *. destruct Hc as (Hrd & _ & _).
    split; [|split; [exact Hm|]].
    + rewrite Hsame; [exact Hrd|exact Hm|left; lia].
    + eapply seg_frame_above; [exact Hsame|exact Hpost|lia].
Qed.

Lemma fair_step_inv st st' :
  P1.fair_step st st' -> fair_inv st -> fair_inv st'.
Proof.
  intros Hstep Hinv.
  destruct Hstep as [st size p st' Hsize E|st st' E|st p st' Hlive E|st i b Hown].
  - destruct (mymalloc_inv st size p st' Hsize (fair_inv_state_inv _ Hinv) E)
      as [[Hlen Hheap] Hinit].
    split; [exact Hlen|]. rewrite Hinit. auto.
  - injection E as <-. exact Hinv.
  - destruct Hlive as (c & Hin & Hal & ->).
    destruct (fair_inv_initialized st Hinv) as [Hinit Hheap]; [eauto|].
    destruct (myfree_live_inv st c st' (proj1 Hinv) Hheap Hin E)
      as (Hlen & Hheap' & Hinit').
    split; [rewrite Hlen; exact (proj1 Hinv)|].
    rewrite Hinit', Hinit. exact Hheap'.
  - destruct Hown as (c & Hin & Hal & Hi).
    destruct (fair_inv_initialized st Hinv) as [Hinit Hheap]; [eauto|].
    unfold poke. split; cbn [heap with_heap initialized].
    + rewrite length_insert. exact (proj1 Hinv).
    + rewrite Hinit. eapply poke_inv; eassumption.
Qed.

(** In a run whose [myfree] calls are all made on null or on a pointer that
    [mymalloc] returned and that has not been freed since, the three
    invariants hold after every call. *)
Lemma fair_runs_keep_invariants st :
  P1.fair_reachable st -> initialized st = true -> heap_inv (heap st).
Proof.
  intros Hreach Hinit.
  assert (Hinv : fair_inv st).
  { clear Hinit. induction Hreach as [|st st' _ IH Hstep].
    - split; reflexivity.
    - eapply fair_step_inv; [exact Hstep|]. exact IH. }
  destruct Hinv as [_ Hcase]. rewrite Hinit in Hcase. exact Hcase.
Qed.

(** C1. The invariants do not survive every [myfree] that returns.  After
    [p = malloc(1); free(p); q = malloc(16);] the arena satisfies all three.
    [free((char * )q + 24)] is then handed an address that lies 8 bytes
    into the header of the free chunk after [q]'s: the 16 bytes before that
    address are the last 8 bytes of [q]'s payload, where the header of the
    chunk split off by [malloc(1)] has left its size 4056, and the low half
    of the size field of the next header, which reads as a non-zero
    [allocated].  Every check passes, [myfree] zeroes that "flag" and
    returns, and the chunk after [q]'s now has size 0 and is followed by
    free chunks: two adjacent chunks are both free. *)
Theorem stray_free_breaks_invariants :
  exists q st3 st4,
    before_stray_free = Some (q, st3)
    /\ P1.reachable st3
    /\ heap_inv (heap st3)
    /\ chunks (heap st3) = [mkChunk 0 16 1; mkChunk 32 4048 0]
    /\ q = 16
    /\ P1.myfree st3 (Ptr (q + 24)) = Some (Returned st4)
    /\ P1.reachable st4
    /\ take 3 (chunks (heap st4))
       = [mkChunk 0 16 1; mkChunk 32 0 0; mkChunk 48 0 0]
    /\ ~ no_adjacent_free (chunks (heap st4)).
Proof.
  eassert (E1 : P1.mymalloc initial_state 1 = Some (Ptr 16, _))
    by (vm_compute; reflexivity).
  match type of E1 with
  | _ = Some (_, ?s1) =>
    eassert (E2 : P1.myfree s1 (Ptr 16) = Some (Returned _))
      by (vm_compute; reflexivity)
  end.
  match type of E2 with
  | _ = Some (Returned ?s2) =>
    eassert (E3 : P1.mymalloc s2 16 = Some (Ptr 16, _))
      by (vm_compute; reflexivity)
  end.
  match type of E3 with
  | _ = Some (_, ?s3) =>
    eassert (E4 : P1.myfree s3 (Ptr (16 + 24)) = Some (Returned _))
      by (vm_compute; reflexivity)
  end.
  match type of E4 with
  | P1.myfree ?s3 _ = Some (Returned ?s4) =>
    assert (Hc3 : chunks (heap s3) = [mkChunk 0 16 1; mkChunk 32 4048 0])
      by (vm_compute; reflexivity);
    eassert (Hc4 : chunks (heap s4)
                   = mkChunk 0 16 1 :: mkChunk 32 0 0 :: mkChunk 48 0 0 :: _)
      by (vm_compute; reflexivity);
    assert (R3 : P1.reachable s3);
    [|exists 16, s3, s4]
  end.
  { eapply P1.reach_step;
      [eapply P1.reach_step; [eapply P1.reach_step; [apply P1.reach_start|]|]|].
    - eapply P1.step_malloc; [|exact E1]. unfold SIZE_MOD. lia.
    - eapply P1.step_free. exact E2.
    - eapply P1.step_malloc; [|exact E3]. unfold SIZE_MOD. lia. }
  split; [vm_compute; reflexivity|]. split; [exact R3|].
  split.
  { unfold heap_inv. rewrite Hc3. split; [cbn; auto|].
    split; [repeat constructor|]. cbn. unfold is_free. cbn. lia. }
  split; [exact Hc3|]. split; [reflexivity|]. split; [exact E4|].
  split; [eapply P1.reach_step; [exact R3|eapply P1.step_free; exact E4]|].
  split; [rewrite Hc4; reflexivity|].
  rewrite Hc4. intros Hnaf.
  apply naf_cons in Hnaf as [_ Hnaf]. apply naf_cons in Hnaf as [Hbad _].
  apply Hbad. split; reflexivity.
Qed.

(** ** The first draft against the final version *)

Lemma draft_take_chunk h chunk aligned :
  Draft.take_chunk h chunk aligned = P1.take_chunk h chunk aligned.
Proof.
  unfold Draft.take_chunk, P1.take_chunk.
  replace (wrap (wrap (get_size h chunk - sizeof_chunk) - aligned))
    with (wrap (wrap (get_size h chunk - aligned) - sizeof_chunk)).
  - destruct (get_size h chunk >=? _); reflexivity.
  - unfold wrap. rewrite !Zminus_mod_idemp_l. f_equal. lia.
Qed.

(** On a tiled arena the search loop of the draft stops where the search
    loop of the final version does, one test of the cursor later. *)
Lemma draft_find_chunk fuel h cur aligned :
  0 <= cur < MEMLENGTH -> tiles cur (walk fuel h cur) ->
  exists x,
    Draft.find_chunk (S fuel) h cur aligned = Some x
    /\ P1.find_chunk fuel h cur aligned
       = Some (if x <? MEMLENGTH then Some x else None).
Proof.
  revert cur. induction fuel as [|fuel IH]; intros cur Hcur Ht.
  { cbn [walk tiles] in Ht. lia. }
  destruct (tiled_step fuel h cur Hcur Ht) as (Hadv & Hend & Hrest).
  cbn [P1.find_chunk]. cbv zeta.
  change (Draft.find_chunk (S (S fuel)) h cur aligned)
    with (if cur <? MEMLENGTH then
            if (get_allocated h cur =? 0) && (get_size h cur >=? aligned)
            then Some cur
            else Draft.find_chunk (S fuel) h
                   (advance cur (sizeof_chunk + get_size h cur)) aligned
          else Some cur).
  replace (cur <? MEMLENGTH) with true by (symmetry; lia).
  destruct ((get_allocated h cur =? 0) && (get_size h cur >=? aligned)).
  { exists cur. replace (cur <? MEMLENGTH) with true by (symmetry; lia). auto. }
  rewrite Hadv.
  replace (chunk_end (read_chunk h cur) <=? cur) with false by (symmetry; lia).
  cbn [orb].
  destruct (chunk_end (read_chunk h cur) >=? MEMLENGTH) eqn:Hlast.
  - exists (chunk_end (read_chunk h cur)). cbn [Draft.find_chunk].
    replace (chunk_end (read_chunk h cur) <? MEMLENGTH) with false
      by (symmetry; lia).
    auto.
  - apply IH; [lia|exact Hrest].
Qed.

(** On a tiled arena the two versions of [mymalloc] do the same. *)
Lemma draft_mymalloc_tiled st size :
  arena_ok st -> Draft.mymalloc st size = P1.mymalloc st size.
Proof.
  intros Hok. apply ensure_initialized_tiles in Hok. unfold chunks in Hok.
  unfold Draft.mymalloc, P1.mymalloc. cbv zeta.
  change (Draft.ensure_initialized st) with (P1.ensure_initialized st).
  change (Draft.aligned_size size) with (P1.aligned_size size).
  destruct (size =? 0); [reflexivity|].
  destruct (draft_find_chunk FUEL (heap (P1.ensure_initialized st)) 0
              (P1.aligned_size size) ltac:(unfold MEMLENGTH; lia) Hok)
    as (x & -> & ->).
  destruct (x <? MEMLENGTH) eqn:Hx.
  - replace (x >=? MEMLENGTH) with false by (symmetry; lia).
    rewrite draft_take_chunk. reflexivity.
  - replace (x >=? MEMLENGTH) with true by (symmetry; lia). reflexivity.
Qed.

(** On an arena that is tiled by its chunks, the two versions of
    [mymalloc] return the same pointer and leave the same state. *)
Theorem draft_mymalloc_same (st : state) (size : Z) :
  arena_ok st -> Draft.mymalloc st size = P1.mymalloc st size.
Proof. apply draft_mymalloc_tiled. Qed.

Lemma draft_mymalloc_same_witness :
  arena_ok initial_state
  /\ Draft.mymalloc initial_state 100 = P1.mymalloc initial_state 100.
Proof.
  assert (Hok : arena_ok initial_state).
  { split; [reflexivity|]. intros H. discriminate H. }
  split; [exact Hok|]. apply (draft_mymalloc_same initial_state 100 Hok).
Defined.

(** The scan of the draft tests its cursor at the top of the loop only, the
    scan of the final version at the bottom as well: the draft takes one
    more turn to leave, and otherwise the two go the same way, in every
    state of the arena. *)
Lemma draft_leak_loop fuel h cur n b :
  cur < MEMLENGTH ->
  Draft.leak_loop (S fuel) h cur n b = P1.leak_loop fuel h cur n b.
Proof.
  revert cur n b. induction fuel as [|fuel IH]; intros cur n b Hcur.
  { cbn [Draft.leak_loop P1.leak_loop].
    replace (cur <? MEMLENGTH) with true by (symmetry; lia).
    destruct (get_allocated h cur =? 0); reflexivity. }
  cbn [P1.leak_loop]. cbv zeta.
  change (Draft.leak_loop (S (S fuel)) h cur n b)
    with (if cur <? MEMLENGTH then
            let '(n', b') :=
              if get_allocated h cur =? 0 then (n, b)
              else (n + 1, wrap (b + get_size h cur)) in
            Draft.leak_loop (S fuel) h
              (advance cur (sizeof_chunk + get_size h cur)) n' b'
          else Some (n, b)).
  replace (cur <? MEMLENGTH) with true by (symmetry; lia).
  destruct (get_allocated h cur =? 0);
    (destruct (advance cur (sizeof_chunk + get_size h cur) >=? MEMLENGTH)
       eqn:Hend;
     [cbn [Draft.leak_loop];
      replace (advance cur (sizeof_chunk + get_size h cur) <? MEMLENGTH)
        with false by (symmetry; lia);
      reflexivity
     |apply IH; lia]).
Qed.

(** The two versions of the leak scan compute the same function. *)
Lemma draft_leak_detection_same st :
  Draft.leak_detection st = P1.leak_detection st.
Proof.
  unfold Draft.leak_detection, P1.leak_detection.
  rewrite draft_leak_loop by (unfold MEMLENGTH; lia). reflexivity.
Qed.

Lemma draft_exit_same status st : Draft.exit status st = P1.exit status st.
Proof.
  unfold Draft.exit, P1.exit, exit_with.
  assert (H : forall fs s, run_handlers Draft.leak_detection fs s
                           = run_handlers P1.leak_detection fs s).
  { induction fs as [|f fs IH]; intros s; cbn [run_handlers]; [reflexivity|].
    destruct f. cbn [run_handler]. rewrite draft_leak_detection_same.
    destruct (P1.leak_detection s); [apply IH|reflexivity]. }
  rewrite H. reflexivity.
Qed.

Lemma draft_fatal_frame st d o :
  Draft.fatal st d = Some o ->
  exists e, o = Exited e
            /\ exit_status e = 2 /\ initialized (final e) = initialized st.
Proof.
  unfold Draft.fatal. rewrite draft_exit_same.
  destruct (P1.exit 2 (fprintf st d)) as [e|] eqn:E; [|discriminate].
  intros [= <-]. apply exit_frame in E as (Hs & _ & _ & Hi).
  exists e. auto.
Qed.

(** In the first draft, [myfree] does initialize the arena. *)
Lemma draft_myfree_initializes st ptr o :
  Draft.myfree st ptr = Some o -> initialized (state_after o) = true.
Proof.
  unfold Draft.myfree. cbv zeta.
  assert (Hinit : initialized (Draft.ensure_initialized st) = true).
  { unfold Draft.ensure_initialized.
    destruct (initialized st) eqn:E; [exact E|reflexivity]. }
  destruct ptr as [|p]; [intros [= <-]; exact Hinit|].
  repeat match goal with
  | |- (if ?b then Draft.fatal ?s ?d else _) = _ -> _ =>
    destruct b;
    [let E := fresh "E" in
     intros E; apply draft_fatal_frame in E as (e & -> & _ & Hi);
     cbn [state_after]; rewrite Hi; exact Hinit|]
  end.
  destruct (Draft.release _ _); [|discriminate].
  intros [= <-]. exact Hinit.
Qed.

(** The first draft checks the size in a header against the capacity, not
    the end of the chunk against the end of the arena: a header 24 bytes
    before the end of the arena with a size of 16 passes its checks, and
    [myfree] returns; the final version ends the process. *)
Lemma draft_myfree_accepts_overlong_header :
  get_size (heap forged_tail) (4088 - sizeof_chunk) = 16
  /\ MEMLENGTH < 4088 - sizeof_chunk + sizeof_chunk
                 + get_size (heap forged_tail) (4088 - sizeof_chunk)
  /\ (exists st', Draft.myfree forged_tail (Ptr 4088) = Some (Returned st'))
  /\ (exists e, P1.myfree forged_tail (Ptr 4088) = Some (Exited e)
                /\ exit_status e = 2).
Proof.
  split; [vm_compute; reflexivity|]. split; [vm_compute; reflexivity|].
  split; eexists; [|split]; vm_compute; reflexivity.
Qed.

(** ** The debugging dump *)

Lemma dump_loop_walk fuel h cur count :
  0 <= cur -> enough fuel cur -> tiles cur (walk fuel h cur) ->
  P1.dump_loop fuel h cur count
  = Some (imap (fun i c => P1.mkDumpLine (count + Z.of_nat i) (c_off c)
                             (c_size c) (P1.as_int (c_alloc c)) (payload c))
               (walk fuel h cur)).
Proof.
  revert cur count. induction fuel as [|fuel IH]; intros cur count Hcur Hfuel Ht.
  - destruct Hfuel. lia.
  - cbn [P1.dump_loop]. cbv zeta.
    destruct (cur <? MEMLENGTH) eqn:Hin; [|rewrite walk_S, Hin; reflexivity].
    destruct (tiled_step fuel h cur ltac:(lia) Ht) as (-> & Hend & Hrest).
    rewrite walk_S, Hin.
    rewrite imap_cons. unfold payload at 1.
    cbn [read_chunk c_off c_size c_alloc]. rewrite Z.add_0_r.
    destruct (chunk_end (read_chunk h cur) >=? MEMLENGTH) eqn:Hlast.
    + rewrite walk_outside by lia. reflexivity.
    + rewrite IH; [|lia|eapply enough_next; [exact Hfuel|lia|lia]|exact Hrest].
      do 2 f_equal. apply imap_ext. intros i c _. cbn. f_equal. lia.
Qed.

(** On an arena that is tiled by its chunks, [dump_heap] comes back, and
    what it prints between its banners is one line for each chunk, in
    address order and numbered from 0, the payload address being the chunk
    address plus the header size. *)
Theorem dump_heap_lists_chunks (st : state) :
  tiles 0 (chunks (heap st)) ->
  P1.dump_heap st
  = Some (imap (fun i c => P1.mkDumpLine (Z.of_nat i) (c_off c) (c_size c)
                             (P1.as_int (c_alloc c))
                             (c_off c + sizeof_chunk))
               (chunks (heap st))).
Proof.
  unfold P1.dump_heap, chunks. intros Ht.
  rewrite (dump_loop_walk FUEL (heap st) 0 0 ltac:(lia) enough_FUEL Ht).
  f_equal.
Qed.

Lemma dump_heap_lists_chunks_witness :
  tiles 0 (chunks (heap five_leaks))
  /\ P1.dump_heap five_leaks
     = Some (imap (fun i c => P1.mkDumpLine (Z.of_nat i) (c_off c) (c_size c)
                                (P1.as_int (c_alloc c))
                                (c_off c + sizeof_chunk))
                  (chunks (heap five_leaks))).
Proof.
  assert (Ht : tiles 0 (chunks (heap five_leaks)))
    by (vm_compute; repeat split).
  split; [exact Ht|]. exact (dump_heap_lists_chunks five_leaks Ht).
Defined.

(** ** Runs of fair clients *)

Lemma mallocs_fair st sizes ps st' :
  P1.fair_reachable st -> Forall (fun s => 0 <= s < SIZE_MOD) sizes ->
  mallocs st sizes = Some (ps, st') -> P1.fair_reachable st'.
Proof.
  intros R Hs. revert st ps R.
  induction Hs as [|s sizes Hs _ IH]; intros st ps R.
  - intros [= _ <-]. exact R.
  - cbn [mallocs].
    destruct (P1.mymalloc st s) as [[p st1]|] eqn:E1; [|discriminate].
    cbn. destruct (mallocs st1 sizes) as [[ps' st2]|] eqn:E2; [|discriminate].
    cbn. intros [= _ <-]. eapply IH; [|exact E2].
    eapply P1.fair_more; [exact R|]. eapply P1.fair_malloc; eassumption.
Qed.

Lemma five_leaks_fair : P1.fair_reachable five_leaks.
Proof.
  unfold five_leaks.
  destruct (mallocs initial_state [32; 32; 32; 32; 32]) as [[ps st]|] eqn:E;
    [|apply P1.fair_start].
  eapply mallocs_fair; [apply P1.fair_start| |exact E].
  repeat constructor; unfold SIZE_MOD; lia.
Qed.

Lemma fair_runs_keep_invariants_witness :
  P1.fair_reachable five_leaks
  /\ initialized five_leaks = true
  /\ heap_inv (heap five_leaks).
Proof.
  split; [exact five_leaks_fair|]. split; [vm_compute; reflexivity|].
  apply (fair_runs_keep_invariants five_leaks five_leaks_fair).
  vm_compute. reflexivity.
Defined.

(** The padded size of a request of 1 to 2^64 - 8 bytes is the least
    multiple of 8 that is not below the request. *)
Theorem padded_size_is_least_multiple (size : Z) :
  0 < size <= SIZE_MOD - ALIGNMENT ->
  P1.aligned_size size mod ALIGNMENT = 0
  /\ size <= P1.aligned_size size < size + ALIGNMENT
  /\ forall m, m mod ALIGNMENT = 0 -> size <= m -> P1.aligned_size size <= m.
Proof. apply aligned_size_least_multiple. Qed.

Lemma padded_size_is_least_multiple_witness :
  0 < 10 <= SIZE_MOD - ALIGNMENT
  /\ P1.aligned_size 10 mod ALIGNMENT = 0
  /\ 10 <= P1.aligned_size 10 < 10 + ALIGNMENT
  /\ forall m, m mod ALIGNMENT = 0 -> 10 <= m -> P1.aligned_size 10 <= m.
Proof.
  assert (H : 0 < 10 <= SIZE_MOD - ALIGNMENT)
    by (vm_compute; split; [reflexivity|discriminate]).
  split; [exact H|]. exact (padded_size_is_least_multiple 10 H).
Defined.

(** ** Where the chunks lie *)

Lemma seg_in_bounds h a cs b c :
  seg h a cs b -> In c cs ->
  0 <= c_off c /\ a <= c_off c /\ chunk_end c <= b /\ 0 <= c_size c.
Proof.
  revert a. induction cs as [|d cs IH]; intros a Hseg; [intros []|].
  pose proof Hseg as Hd.
  apply seg_cons_inv in Hd as (Hoff & Hsz & _ & Ha & Hend & Hrest).
  pose proof (get_size_bound h a) as Hs.
  intros [<-|Hin].
  - rewrite Hsz. lia.
  - destruct (IH _ Hrest Hin) as (H0 & H1 & H2 & H3).
    unfold chunk_end, sizeof_chunk in H1. lia.
Qed.

Lemma chunks_in_bounds h c :
  tiles 0 (chunks h) -> In c (chunks h) ->
  0 <= c_off c /\ chunk_end c <= MEMLENGTH /\ 0 <= c_size c.
Proof.
  intros Ht Hin. apply chunks_seg in Ht.
  destruct (seg_in_bounds _ _ _ _ _ Ht Hin) as (H0 & _ & H2 & H3). auto.
Qed.

(** On an arena that is tiled by its chunks, a request for more than the
    capacity less one header, 4080 bytes, and for no more than [2^64 - 8]
    bytes, the largest size whose padding does not wrap round, is refused
    whatever the chunks are: [mymalloc] returns [NULL], leaves the arena as
    it is and reports the failure. *)
Theorem oversized_request_fails (st : state) (size : Z) :
  arena_ok st ->
  MEMLENGTH - sizeof_chunk < size <= SIZE_MOD - ALIGNMENT ->
  P1.mymalloc st size
  = Some (NULL, fprintf (P1.ensure_initialized st) (MallocFailed size)).
Proof.
  intros Hok Hsize. unfold P1.mymalloc. cbv zeta.
  assert (Hpos : 0 < size) by (unfold MEMLENGTH, sizeof_chunk in Hsize; lia).
  destruct (size =? 0) eqn:Hz; [lia|].
  destruct (find_chunk_total FUEL (heap (P1.ensure_initialized st)) 0
              (P1.aligned_size size) enough_FUEL) as [r E].
  rewrite E. destruct r as [x|]; [|reflexivity].
  pose proof (ensure_initialized_tiles st Hok) as Ht.
  apply find_chunk_chunks in E; [|exact Ht].
  destruct E as (pre & c & post & Hcs & _ & [_ Hfit] & _).
  destruct (chunks_in_bounds _ c Ht) as (H0 & H1 & _).
  { rewrite Hcs. apply in_or_app. right. left. reflexivity. }
  destruct (aligned_size_least_multiple size) as (_ & Hle & _); [lia|].
  unfold chunk_end in H1. lia.
Qed.

Lemma oversized_request_fails_witness :
  arena_ok initial_state
  /\ MEMLENGTH - sizeof_chunk < 4081 <= SIZE_MOD - ALIGNMENT
  /\ P1.mymalloc initial_state 4081
     = Some (NULL, fprintf (P1.ensure_initialized initial_state)
                           (MallocFailed 4081)).
Proof.
  assert (Hok : arena_ok initial_state).
  { split; [reflexivity|]. cbn. discriminate. }
  assert (Hs : MEMLENGTH - sizeof_chunk < 4081 <= SIZE_MOD - ALIGNMENT)
    by (vm_compute; split; [reflexivity|discriminate]).
  split; [exact Hok|]. split; [exact Hs|].
  exact (oversized_request_fails initial_state 4081 Hok Hs).
Defined.

Lemma one_free_chunk (h : list byte) :
  heap_inv h -> Forall is_free (chunks h) ->
  chunks h = [mkChunk 0 (MEMLENGTH - sizeof_chunk) 0].
Proof.
  intros (Ht & _ & Hn) Hfree.
  destruct (chunks h) as [|c [|d cs]] eqn:Hcs.
  - cbn in Ht. discriminate.
  - cbn [tiles] in Ht. destruct Ht as [Hoff Hend].
    apply Forall_cons in Hfree as [Hc _]. unfold is_free in Hc.
    destruct c as [o s a]. unfold chunk_end in Hend.
    cbn [c_off c_size c_alloc] in *.
    replace s with (MEMLENGTH - sizeof_chunk) by lia. subst o a. reflexivity.
  - apply Forall_cons in Hfree as [Hc Hfree].
    apply Forall_cons in Hfree as [Hd _].
    apply naf_cons in Hn as [Hn _]. tauto.
Qed.

(** ** More about the first draft *)

(** At exit the first draft reports the same leaks as the final version:
    its scan, which lacks the early exit from the loop, computes the same
    message or silence in every state. *)
Theorem draft_leak_report_same (st : state) :
  Draft.leak_detection st = P1.leak_detection st.
Proof. apply draft_leak_detection_same. Qed.

Lemma draft_myfree_initializes_witness :
  Draft.myfree initial_state NULL
  = Some (Returned (Draft.ensure_initialized initial_state))
  /\ initialized
       (state_after (Returned (Draft.ensure_initialized initial_state)))
     = true.
Proof.
  split; [reflexivity|].
  apply (draft_myfree_initializes initial_state NULL). reflexivity.
Defined.

Lemma draft_find_prev_stuck fuel h header scan :
  0 <= scan -> scan < header -> scan < MEMLENGTH -> get_size h scan = 0 ->
  Draft.find_prev fuel h header scan = None.
Proof.
  intros H0 H1 H2 H3. induction fuel as [|fuel IH]; [reflexivity|].
  cbn [Draft.find_prev]. rewrite H3, advance_inside, Z.add_0_r by lia.
  destruct (scan <? header) eqn:E1; [|lia].
  destruct (scan <? MEMLENGTH) eqn:E2; [|lia].
  cbn [andb]. destruct (scan =? header) eqn:E3; [lia|]. exact IH.
Qed.

Lemma draft_release_forward h header :
  Draft.release h header =
  match Draft.find_prev (S FUEL) (Draft.forward_step h header) header 0 with
  | None => None
  | Some (Some prev_chunk) =>
    Some (if get_allocated (Draft.forward_step h header) prev_chunk =? 0
          then set_size (Draft.forward_step h header) prev_chunk
                 (wrap (get_size (Draft.forward_step h header) prev_chunk
                        + get_size (Draft.forward_step h header) header))
          else Draft.forward_step h header)
  | Some None => Some (Draft.forward_step h header)
  end.
Proof. reflexivity. Qed.

(** In the first draft the scan for the chunk before the one being freed
    steps by the size field alone, without the header.  When the chunk at
    the base has a payload of 8 bytes and is free, so that the eight bytes
    of its flag and padding read as a size of 0, the scan for any other
    chunk goes from the base to offset 8 and stays there: with whatever
    fuel the loop does not end, and [myfree] does not come back. *)
Theorem draft_scan_never_ends (h : list byte) (header : Z) :
  16 <= header ->
  get_size h 0 = 8 -> get_size h 8 = 0 ->
  (forall fuel,
     Draft.find_prev fuel (Draft.forward_step h header) header 0 = None)
  /\ Draft.release h header = None.
Proof.
  intros Hhdr H0 H8.
  assert (Hscan : forall fuel,
    Draft.find_prev fuel (Draft.forward_step h header) header 0 = None).
  { intros [|fuel]; [reflexivity|].
    assert (E0 : get_size (Draft.forward_step h header) 0 = 8).
    { unfold Draft.forward_step. cbv zeta.
      destruct (_ && _); fields; exact H0. }
    assert (E8 : get_size (Draft.forward_step h header) 8 = 0).
    { unfold Draft.forward_step. cbv zeta.
      destruct (_ && _); fields; exact H8. }
    cbn [Draft.find_prev]. rewrite E0.
    replace (0 <? header) with true by (symmetry; lia).
    change (0 <? MEMLENGTH) with true. cbn [andb].
    change (advance 0 8) with 8.
    replace (8 =? header) with false by (symmetry; lia).
    apply draft_find_prev_stuck; [lia|lia|unfold MEMLENGTH; lia|exact E8]. }
  split; [exact Hscan|].
  rewrite draft_release_forward, Hscan. reflexivity.
Qed.

Lemma draft_scan_never_ends_witness :
  DraftMemgrind.second_pointer = Ptr (24 + sizeof_chunk)
  /\ 16 <= 24
  /\ get_size (heap DraftMemgrind.after_first_free) 0 = 8
  /\ get_size (heap DraftMemgrind.after_first_free) 8 = 0
  /\ (forall fuel,
        Draft.find_prev fuel
          (Draft.forward_step (heap DraftMemgrind.after_first_free) 24) 24 0
        = None)
  /\ Draft.release (heap DraftMemgrind.after_first_free) 24 = None.
Proof.
  assert (H0 : get_size (heap DraftMemgrind.after_first_free) 0 = 8)
    by (vm_compute; reflexivity).
  assert (H8 : get_size (heap DraftMemgrind.after_first_free) 8 = 0)
    by (vm_compute; reflexivity).
  split; [vm_compute; reflexivity|].
  split; [lia|]. split; [exact H0|]. split; [exact H8|].
  apply (draft_scan_never_ends (heap DraftMemgrind.after_first_free) 24);
    [lia|exact H0|exact H8].
Defined.

Ltac bool_lia E :=
  first [ apply orb_true_iff in E; destruct E as [E|E]; bool_lia E
        | apply negb_true_iff in E; lia
        | lia ].

(** The checks of the first draft are the weaker ones: a pointer that the
    final version accepts, and whose chunk ends inside the arena by the size
    in its header, never makes the draft end the process. *)
Theorem draft_frees_what_final_frees (st : state) (p : Z) :
  initialized st = true -> accepted (heap st) p ->
  p + get_size (heap st) (p - sizeof_chunk) <= MEMLENGTH ->
  forall e, Draft.myfree st (Ptr p) <> Some (Exited e).
Proof.
  intros Hinit (Hp & Hal & Hc & _ & Hnz & Hsal & Halloc) Hend e.
  unfold Draft.myfree, Draft.ensure_initialized. rewrite Hinit. cbv zeta.
  pose proof (get_size_bound (heap st) (p - sizeof_chunk)) as Hs.
  unfold ALIGNMENT in *.
  repeat match goal with
  | |- (if ?b then Draft.fatal _ _ else _) <> _ =>
    let E := fresh "E" in
    destruct b eqn:E; [exfalso; unfold sizeof_chunk, MEMLENGTH in *; bool_lia E|]
  end.
  destruct (Draft.release _ _); discriminate.
Qed.

Lemma draft_frees_what_final_frees_witness :
  initialized one_block = true
  /\ accepted (heap one_block) 16
  /\ 16 + get_size (heap one_block) (16 - sizeof_chunk) <= MEMLENGTH
  /\ forall e, Draft.myfree one_block (Ptr 16) <> Some (Exited e).
Proof.
  assert (Hinit : initialized one_block = true) by (vm_compute; reflexivity).
  assert (Hacc : accepted (heap one_block) 16).
  { unfold accepted.
    repeat split; vm_compute; first [reflexivity | discriminate]. }
  assert (Hend : 16 + get_size (heap one_block) (16 - sizeof_chunk)
                 <= MEMLENGTH) by (vm_compute; discriminate).
  split; [exact Hinit|]. split; [exact Hacc|]. split; [exact Hend|].
  exact (draft_frees_what_final_frees one_block 16 Hinit Hacc Hend).
Defined.

(** ** What [myfree] does to the chunk list *)

Lemma join_prev_snoc pre p c' rest :
  join_prev (pre ++ [p]) c' rest
  = pre ++ (if c_alloc p =? 0
            then [mkChunk (c_off p) (c_size p + sizeof_chunk + c_size c') 0]
            else [p; c']) ++ rest.
Proof.
  induction pre as [|q pre IH].
  - cbn. destruct (c_alloc p =? 0); reflexivity.
  - cbn [app join_prev]. rewrite IH.
    destruct pre; reflexivity.
Qed.

Lemma join_prev_keep pre c' rest :
  match last pre with Some p => ~ is_free p | None => True end ->
  join_prev pre c' rest = pre ++ c' :: rest.
Proof.
  destruct pre as [|p pre _] using rev_ind; [reflexivity|].
  rewrite last_snoc, join_prev_snoc. unfold is_free. intros Hp.
  apply Z.eqb_neq in Hp. rewrite Hp, <- app_assoc. reflexivity.
Qed.

Lemma release_chunks h pre c post :
  Z.of_nat (length h) = MEMLENGTH ->
  seg h 0 (pre ++ c :: post) MEMLENGTH ->
  exists h',
    P1.release h (c_off c) = Some h'
    /\ length h' = length h
    /\ seg h' 0 (free_in pre c post) MEMLENGTH.
Proof.
  intros Hlen Hseg.
  destruct (coalesce_forward_seg h pre c post Hlen Hseg)
    as (c' & post2 & Hl2 & Hseg2 & Hoff' & Hfree' & Hcase).
  assert (Habs : absorb_next c post = (c', post2)).
  { destruct c' as [o' s' a']. unfold is_free in Hfree'.
    cbn [c_off c_size c_alloc] in *. subst o' a'.
    destruct Hcase as [(-> & -> & Hnext)|(n & -> & Hn & ->)].
    - destruct post as [|n post]; [reflexivity|].
      unfold is_free in Hnext. apply Z.eqb_neq in Hnext.
      cbn [absorb_next]. rewrite Hnext. reflexivity.
    - unfold is_free in Hn. cbn [absorb_next]. rewrite Hn. reflexivity. }
  unfold free_in. rewrite Habs. unfold P1.release.
  destruct (coalesce_backward_seg (P1.coalesce_forward h (c_off c)) pre c' post2)
    as (h' & E & Hl' & Hcase'); [rewrite Hl2; exact Hlen|exact Hseg2|].
  rewrite Hoff' in E. exists h'. split; [exact E|].
  split; [rewrite Hl', Hl2; reflexivity|].
  destruct Hcase' as [(-> & Hlast)|(pre' & p & -> & Hp & Hseg')].
  - rewrite join_prev_keep by exact Hlast. exact Hseg2.
  - rewrite join_prev_snoc. unfold is_free in Hp. rewrite Hp in *.
    exact Hseg'.
Qed.

Lemma seg_aligned h a cs b :
  seg h a cs b -> sizes_aligned cs -> a mod ALIGNMENT = 0 ->
  b mod ALIGNMENT = 0.
Proof.
  revert a. induction cs as [|c cs IH]; intros a Hseg Hal Ha.
  - cbn in Hseg. subst b. exact Ha.
  - apply Forall_cons in Hal as [Hc Hal].
    apply seg_cons_inv in Hseg as (Hoff & _ & _ & _ & _ & Hrest).
    apply (IH _ Hrest Hal). unfold chunk_end. rewrite Hoff.
    apply mod_add3; assumption.
Qed.

Lemma member_accepted h pre c post :
  seg h 0 (pre ++ c :: post) MEMLENGTH ->
  sizes_aligned (pre ++ c :: post) ->
  is_allocated c -> c_size c <> 0 ->
  accepted h (payload c).
Proof.
  intros Hseg Hal Hc Hnz.
  apply seg_app in Hseg as (m & Hpre & Hrest).
  unfold sizes_aligned in Hal. apply Forall_app in Hal as [Hapre Hal].
  apply Forall_cons in Hal as [Hac _].
  pose proof (seg_aligned _ _ _ _ Hpre Hapre eq_refl) as Hm.
  apply seg_cons_inv in Hrest as (Hoff & Hsz & Halloc & H0 & Hend & _).
  pose proof (get_size_bound h m) as Hs.
  unfold accepted, payload. rewrite Hoff.
  replace (m + sizeof_chunk - sizeof_chunk) with m by lia.
  rewrite <- Hsz, <- Halloc. unfold chunk_end in Hend. rewrite Hoff in Hend.
  unfold is_allocated in Hc.
  assert (Hp : (m + sizeof_chunk) mod ALIGNMENT = 0).
  { unfold sizeof_chunk, ALIGNMENT in *.
    pose proof (Z.div_mod m 8) as D1.
    pose proof (Z.div_mod (m + 16) 8) as D2.
    pose proof (Z.mod_pos_bound (m + 16) 8) as D3. lia. }
  rewrite advance_inside by (unfold sizeof_chunk in *; lia).
  unfold sizeof_chunk in *. repeat split; try assumption; lia.
Qed.

Lemma myfree_member st pre c post :
  length (heap st) = Z.to_nat MEMLENGTH ->
  seg (heap st) 0 (pre ++ c :: post) MEMLENGTH ->
  sizes_aligned (pre ++ c :: post) ->
  is_allocated c -> c_size c <> 0 ->
  exists h',
    P1.myfree st (Ptr (payload c)) = Some (Returned (with_heap st h'))
    /\ length h' = length (heap st)
    /\ seg h' 0 (free_in pre c post) MEMLENGTH.
Proof.
  intros Hlen Hseg Hal Hc Hnz.
  rewrite (myfree_accepted _ _ (member_accepted _ _ _ _ Hseg Hal Hc Hnz)).
  replace (payload c - sizeof_chunk) with (c_off c) by (unfold payload; lia).
  destruct (release_chunks (heap st) pre c post (arena_length _ Hlen) Hseg)
    as (h' & E & Hl' & Hseg').
  rewrite E. exists h'. auto.
Qed.

(** Freeing a live block gives the chunk list that exhaustive coalescing
    asks for: the chunk of the block becomes free, takes in the chunk after
    it if that is free, and is taken in by the chunk before it if that is
    free; every other chunk stays as it is, and nothing is reported. *)
Theorem myfree_coalesces (st : state) (pre : list chunk) (c : chunk)
    (post : list chunk) :
  length (heap st) = Z.to_nat MEMLENGTH ->
  tiles 0 (chunks (heap st)) ->
  sizes_aligned (chunks (heap st)) ->
  chunks (heap st) = pre ++ c :: post ->
  is_allocated c -> c_size c <> 0 ->
  exists st',
    P1.myfree st (Ptr (payload c)) = Some (Returned st')
    /\ chunks (heap st') = free_in pre c post
    /\ stderr st' = stderr st.
Proof.
  intros Hlen Ht Hal Hcs Hc Hnz. apply chunks_seg in Ht. rewrite Hcs in *.
  destruct (myfree_member st pre c post Hlen Ht Hal Hc Hnz)
    as (h' & E & _ & Hseg').
  exists (with_heap st h'). split; [exact E|]. split; [|reflexivity].
  apply seg_chunks. exact Hseg'.
Qed.

Lemma five_leaks_chunks :
  chunks (heap five_leaks)
  = [mkChunk 0 32 1; mkChunk 48 32 1] ++ mkChunk 96 32 1
    :: [mkChunk 144 32 1; mkChunk 192 32 1; mkChunk 240 3840 0].
Proof. vm_compute. reflexivity. Qed.

Lemma myfree_coalesces_witness :
  exists st',
    P1.myfree five_leaks (Ptr (payload (mkChunk 96 32 1))) = Some (Returned st')
    /\ chunks (heap st')
       = free_in [mkChunk 0 32 1; mkChunk 48 32 1] (mkChunk 96 32 1)
                 [mkChunk 144 32 1; mkChunk 192 32 1; mkChunk 240 3840 0]
    /\ stderr st' = stderr five_leaks.
Proof.
  apply (myfree_coalesces five_leaks).
  - vm_compute. reflexivity.
  - rewrite five_leaks_chunks. vm_compute. auto 10.
  - rewrite five_leaks_chunks. repeat constructor.
  - exact five_leaks_chunks.
  - unfold is_allocated. cbn. lia.
  - cbn. lia.
Defined.

(** ** The blocks that are handed out *)

Lemma allocations_cons c cs :
  allocations (c :: cs)
  = if c_alloc c =? 0 then allocations cs
    else (payload c, c_size c) :: allocations cs.
Proof.
  unfold allocations. rewrite filter_cons.
  destruct (decide (is_allocated c)) as [Ha|Hf]; unfold is_allocated in *.
  - apply Z.eqb_neq in Ha. rewrite Ha. reflexivity.
  - assert (Hz : c_alloc c = 0) by lia. rewrite Hz. reflexivity.
Qed.

Lemma allocations_app xs ys :
  allocations (xs ++ ys) = allocations xs ++ allocations ys.
Proof. unfold allocations. rewrite filter_app, map_app. reflexivity. Qed.

Lemma allocations_allocate_in a c :
  allocations (allocate_in a c)
  = [(payload c,
      if a + sizeof_chunk + MIN_CHUNK_SIZE <=? c_size c then a else c_size c)].
Proof.
  unfold allocate_in.
  destruct (a + sizeof_chunk + MIN_CHUNK_SIZE <=? c_size c);
    rewrite !allocations_cons; reflexivity.
Qed.

Lemma allocations_free_in pre c post :
  is_allocated c ->
  allocations (pre ++ c :: post)
  = allocations pre ++ (payload c, c_size c) :: allocations post
  /\ allocations (free_in pre c post) = allocations pre ++ allocations post.
Proof.
  intros Hc. unfold is_allocated in Hc. apply Z.eqb_neq in Hc. split.
  - rewrite allocations_app, allocations_cons, Hc. reflexivity.
  - unfold free_in.
    assert (Hnext : exists c' rest,
              absorb_next c post = (c', rest) /\ c_alloc c' = 0
              /\ allocations rest = allocations post).
    { destruct post as [|n post]; cbn [absorb_next]; [eauto|].
      destruct (c_alloc n =? 0) eqn:Hn; [|eauto].
      eexists _, _. split; [reflexivity|]. split; [reflexivity|].
      rewrite allocations_cons, Hn. reflexivity. }
    destruct Hnext as (c' & rest & -> & Hc' & <-).
    apply Z.eqb_eq in Hc'.
    destruct pre as [|p pre _] using rev_ind.
    + cbn [join_prev app]. rewrite allocations_cons, Hc'. reflexivity.
    + rewrite join_prev_snoc, !allocations_app, <- app_assoc.
      destruct (c_alloc p =? 0) eqn:Hp;
        rewrite !allocations_cons; cbn [c_alloc]; rewrite ?Hp, ?Hc';
        change (0 =? 0) with true; cbv iota; reflexivity.
Qed.

Lemma mymalloc_allocations st size p st' :
  0 < size < SIZE_MOD -> arena_ok st ->
  P1.mymalloc st size = Some (Ptr p, st') ->
  exists l1 l2 s,
    allocations (chunks (heap (P1.ensure_initialized st))) = l1 ++ l2
    /\ allocations (chunks (heap st')) = l1 ++ (p, s) :: l2
    /\ P1.aligned_size size <= s
       < P1.aligned_size size + sizeof_chunk + MIN_CHUNK_SIZE.
Proof.
  intros Hsize Hok E.
  destruct (mymalloc_chunks st size p st' Hsize (proj1 Hok)
              (ensure_initialized_tiles st Hok) E)
    as (pre & c & post & Hcs & -> & [Hfree Hfit] & _ & Hcs' & _).
  unfold is_free in Hfree. apply Z.eqb_eq in Hfree.
  exists (allocations pre), (allocations post).
  exists (if P1.aligned_size size + sizeof_chunk + MIN_CHUNK_SIZE <=? c_size c
          then P1.aligned_size size else c_size c).
  split; [rewrite Hcs, allocations_app, allocations_cons, Hfree; reflexivity|].
  split.
  - rewrite Hcs', !allocations_app, allocations_allocate_in. reflexivity.
  - destruct (_ <=? c_size c) eqn:Hsplit;
      unfold sizeof_chunk, MIN_CHUNK_SIZE in *; lia.
Qed.

(** A successful [mymalloc] changes the set of blocks that are handed out
    by exactly the block it returns: the blocks handed out before keep
    their addresses and sizes, and the new block has at least the padded
    size and less than 32 bytes more. *)
Theorem malloc_adds_one_block (st : state) (size p : Z) (st' : state) :
  0 < size < SIZE_MOD -> arena_ok st ->
  P1.mymalloc st size = Some (Ptr p, st') ->
  exists l1 l2 s,
    allocations (chunks (heap (P1.ensure_initialized st))) = l1 ++ l2
    /\ allocations (chunks (heap st')) = l1 ++ (p, s) :: l2
    /\ P1.aligned_size size <= s
       < P1.aligned_size size + sizeof_chunk + MIN_CHUNK_SIZE.
Proof. apply mymalloc_allocations. Qed.

Lemma five_leaks_ok : arena_ok five_leaks.
Proof.
  split; [vm_compute; reflexivity|]. intros _.
  rewrite five_leaks_chunks. vm_compute. auto 10.
Qed.

Lemma malloc_adds_one_block_witness :
  0 < 10 < SIZE_MOD
  /\ arena_ok five_leaks
  /\ P1.mymalloc five_leaks 10 = Some (Ptr 256, after_malloc five_leaks 10)
  /\ exists l1 l2 s,
       allocations (chunks (heap (P1.ensure_initialized five_leaks))) = l1 ++ l2
       /\ allocations (chunks (heap (after_malloc five_leaks 10)))
          = l1 ++ (256, s) :: l2
       /\ P1.aligned_size 10 <= s
          < P1.aligned_size 10 + sizeof_chunk + MIN_CHUNK_SIZE.
Proof.
  assert (Hs : 0 < 10 < SIZE_MOD) by (vm_compute; auto).
  assert (E : P1.mymalloc five_leaks 10
              = Some (Ptr 256, after_malloc five_leaks 10))
    by (vm_compute; reflexivity).
  split; [exact Hs|]. split; [exact five_leaks_ok|]. split; [exact E|].
  exact (malloc_adds_one_block five_leaks 10 256 _ Hs five_leaks_ok E).
Defined.

Lemma myfree_allocations st c :
  length (heap st) = Z.to_nat MEMLENGTH ->
  tiles 0 (chunks (heap st)) -> sizes_aligned (chunks (heap st)) ->
  In c (chunks (heap st)) -> is_allocated c -> c_size c <> 0 ->
  exists h' l1 l2,
    P1.myfree st (Ptr (payload c)) = Some (Returned (with_heap st h'))
    /\ length h' = length (heap st)
    /\ tiles 0 (chunks h')
    /\ allocations (chunks (heap st)) = l1 ++ (payload c, c_size c) :: l2
    /\ allocations (chunks h') = l1 ++ l2.
Proof.
  intros Hlen Ht Hal Hin Hc Hnz. apply chunks_seg in Ht.
  apply in_split in Hin as (pre & post & Hcs). rewrite Hcs in *.
  destruct (myfree_member st pre c post Hlen Ht Hal Hc Hnz)
    as (h' & E & Hl' & Hseg').
  destruct (allocations_free_in pre c post Hc) as [Hbefore Hafter].
  exists h', (allocations pre), (allocations post).
  split; [exact E|]. split; [exact Hl'|].
  rewrite (seg_chunks _ _ Hseg').
  split; [eapply seg_tiles; exact Hseg'|]. auto.
Qed.

(** Freeing a live block changes the set of blocks that are handed out by
    exactly that block: every other block keeps its address and size. *)
Theorem free_removes_one_block (st : state) (c : chunk) :
  length (heap st) = Z.to_nat MEMLENGTH ->
  tiles 0 (chunks (heap st)) -> sizes_aligned (chunks (heap st)) ->
  In c (chunks (heap st)) -> is_allocated c -> c_size c <> 0 ->
  exists st' l1 l2,
    P1.myfree st (Ptr (payload c)) = Some (Returned st')
    /\ allocations (chunks (heap st)) = l1 ++ (payload c, c_size c) :: l2
    /\ allocations (chunks (heap st')) = l1 ++ l2.
Proof.
  intros Hlen Ht Hal Hin Hc Hnz.
  destruct (myfree_allocations st c Hlen Ht Hal Hin Hc Hnz)
    as (h' & l1 & l2 & E & _ & _ & H1 & H2).
  exists (with_heap st h'), l1, l2. auto.
Qed.

Lemma free_removes_one_block_witness :
  exists st' l1 l2,
    P1.myfree five_leaks (Ptr (payload (mkChunk 96 32 1)))
    = Some (Returned st')
    /\ allocations (chunks (heap five_leaks))
       = l1 ++ (payload (mkChunk 96 32 1), c_size (mkChunk 96 32 1)) :: l2
    /\ allocations (chunks (heap st')) = l1 ++ l2.
Proof.
  apply (free_removes_one_block five_leaks).
  - vm_compute. reflexivity.
  - rewrite five_leaks_chunks. vm_compute. auto 10.
  - rewrite five_leaks_chunks. repeat constructor.
  - rewrite five_leaks_chunks. apply in_or_app. right. left. reflexivity.
  - unfold is_allocated. cbn. lia.
  - cbn. lia.
Defined.

(** ** A block that is freed is handed out again *)

Lemma naf_neighbours pre c post :
  no_adjacent_free (pre ++ c :: post) -> is_free c ->
  match last pre with Some p => ~ is_free p | None => True end
  /\ match post with n :: _ => ~ is_free n | [] => True end.
Proof.
  intros Hn Hc. apply naf_app_cons in Hn as [Hpre Hpost]. split.
  - destruct pre as [|p pre _] using rev_ind; [exact I|].
    rewrite last_snoc. rewrite <- app_assoc in Hpre. cbn [app] in Hpre.
    apply naf_app_cons in Hpre as [_ Hpc]. apply naf_cons in Hpc as [Hpc _].
    tauto.
  - destruct post as [|n post]; [exact I|].
    apply naf_cons in Hpost as [Hcn _]. tauto.
Qed.

Lemma mymalloc_by_chunks st size :
  0 < size < SIZE_MOD ->
  length (heap st) = Z.to_nat MEMLENGTH ->
  tiles 0 (chunks (heap (P1.ensure_initialized st))) ->
  exists r st',
    P1.mymalloc st size = Some (r, st')
    /\ length (heap st') = length (heap st)
    /\ initialized st' = initialized (P1.ensure_initialized st)
    /\ match r with
       | Ptr p =>
           exists pre c post,
             chunks (heap (P1.ensure_initialized st)) = pre ++ c :: post
             /\ p = payload c
             /\ fits (P1.aligned_size size) c
             /\ Forall (fun d => ~ fits (P1.aligned_size size) d) pre
             /\ chunks (heap st')
                = pre ++ allocate_in (P1.aligned_size size) c ++ post
             /\ tiles 0 (chunks (heap st'))
             /\ stderr st' = stderr st
       | NULL =>
           Forall (fun d => ~ fits (P1.aligned_size size) d)
                  (chunks (heap (P1.ensure_initialized st)))
           /\ heap st' = heap (P1.ensure_initialized st)
       end.
Proof.
  intros Hsize Hlen Htiles. unfold P1.mymalloc. cbv zeta.
  replace (size =? 0) with false by (symmetry; lia).
  destruct (find_chunk_total FUEL (heap (P1.ensure_initialized st)) 0
              (P1.aligned_size size) enough_FUEL) as [r E].
  rewrite E. apply find_chunk_chunks in E; [|exact Htiles]. destruct r as [x|].
  - destruct E as (pre & c & post & Hw & <- & Hfits & Hpre).
    eexists _, _. split; [reflexivity|].
    apply chunks_seg in Htiles. rewrite Hw in Htiles.
    assert (Hlen' : Z.of_nat (length (heap (P1.ensure_initialized st)))
                    = MEMLENGTH).
    { rewrite ensure_initialized_length. apply arena_length. exact Hlen. }
    destruct (take_chunk_seg _ _ _ _ (P1.aligned_size size) Hlen' Htiles)
      as [Hl Hs].
    { destruct Hfits as [_ Hle]. pose proof (aligned_size_bound size). lia. }
    cbn [heap with_heap initialized stderr].
    split; [rewrite Hl; apply ensure_initialized_length|].
    split; [reflexivity|].
    exists pre, c, post. split; [exact Hw|]. split; [reflexivity|].
    split; [exact Hfits|]. split; [exact Hpre|].
    split; [apply seg_chunks; exact Hs|].
    split; [rewrite (seg_chunks _ _ Hs); eapply seg_tiles; exact Hs|].
    unfold P1.ensure_initialized. destruct (initialized st); reflexivity.
  - eexists _, _. split; [reflexivity|]. cbn [heap fprintf initialized].
    split; [apply ensure_initialized_length|]. auto.
Qed.

Lemma first_fit_unique (a : Z) pre c post pre' c' post' :
  pre ++ c :: post = pre' ++ c' :: post' ->
  fits a c -> Forall (fun d => ~ fits a d) pre ->
  fits a c' -> Forall (fun d => ~ fits a d) pre' ->
  pre = pre' /\ c = c' /\ post = post'.
Proof.
  revert pre'. induction pre as [|x pre IH]; intros [|x' pre'] E Hc Hpre Hc' Hpre'.
  - injection E as -> ->. auto.
  - injection E as -> _. apply Forall_cons in Hpre' as [Hx _]. tauto.
  - injection E as -> _. apply Forall_cons in Hpre as [Hx _]. tauto.
  - injection E as -> E. apply Forall_cons in Hpre as [_ Hpre].
    apply Forall_cons in Hpre' as [_ Hpre'].
    destruct (IH pre' E Hc Hpre Hc' Hpre') as (-> & -> & ->). auto.
Qed.

Lemma ensure_initialized_id st :
  initialized st = true -> P1.ensure_initialized st = st.
Proof. intros H. unfold P1.ensure_initialized. rewrite H. reflexivity. Qed.

Lemma round_trip st size p st1 :
  length (heap st) = Z.to_nat MEMLENGTH ->
  initialized st = true -> heap_inv (heap st) ->
  0 < size <= SIZE_MOD - ALIGNMENT ->
  P1.mymalloc st size = Some (Ptr p, st1) ->
  exists h2,
    P1.myfree st1 (Ptr p) = Some (Returned (with_heap st1 h2))
    /\ length h2 = length (heap st)
    /\ chunks h2 = chunks (heap st)
    /\ length (heap st1) = length (heap st)
    /\ heap_inv (heap st1)
    /\ initialized st1 = true
    /\ stderr st1 = stderr st.
Proof.
  intros Hlen Hinit (Ht & Hal & Hn) Hsize E.
  assert (Hsize' : 0 < size < SIZE_MOD) by (unfold ALIGNMENT in *; lia).
  destruct (mymalloc_by_chunks st size Hsize' Hlen) as (r & st' & E' & Hl1 & Hi1 & Hr).
  { rewrite ensure_initialized_id by exact Hinit. exact Ht. }
  rewrite E in E'. injection E' as <- <-.
  rewrite ensure_initialized_id in * by exact Hinit.
  destruct Hr
    as (pre & c & post & Hcs & -> & [Hfree Hfit] & _ & Hcs1 & Ht1 & Herr).
  destruct (aligned_size_least_multiple size Hsize) as (Ha8 & [Hale _] & _).
  rewrite Hcs in Hal, Hn.
  destruct (allocate_in_inv pre c post _ Ha8 Hfree Hal Hn) as [Hal1 Hn1].
  destruct (naf_neighbours pre c post Hn Hfree) as [Hlast Hnext].
  assert (Hc : c = mkChunk (c_off c) (c_size c) 0).
  { destruct c as [o s a]. unfold is_free in Hfree. cbn in *. subst a.
    reflexivity. }
  assert (Hseg1 : seg (heap st1) 0
                    (pre ++ allocate_in (P1.aligned_size size) c ++ post)
                    MEMLENGTH).
  { rewrite <- Hcs1. apply chunks_seg. exact Ht1. }
  assert (Hinv1 : heap_inv (heap st1)).
  { apply heap_inv_seg. eauto. }
  rewrite Hl1 in *.
  assert (Hl1' : length (heap st1) = Z.to_nat MEMLENGTH) by congruence.
  unfold allocate_in in Hseg1, Hal1.
  destruct (P1.aligned_size size + sizeof_chunk + MIN_CHUNK_SIZE <=? c_size c)
    eqn:Hsplit.
  - cbn [app] in Hseg1, Hal1.
    destruct (myfree_member st1 pre
                (mkChunk (c_off c) (P1.aligned_size size) 1)
                (mkChunk (c_off c + sizeof_chunk + P1.aligned_size size)
                         (c_size c - P1.aligned_size size - sizeof_chunk) 0
                 :: post) Hl1' Hseg1 Hal1)
      as (h2 & E2 & Hl2 & Hseg2);
      [unfold is_allocated; cbn; lia|cbn; lia|].
    exists h2. split; [exact E2|]. split; [congruence|].
    split; [|split; [reflexivity|split; [exact Hinv1|split; [congruence|exact Herr]]]].
    rewrite (seg_chunks _ _ Hseg2), Hcs. unfold free_in.
    cbn [absorb_next c_alloc c_off c_size]. change (0 =? 0) with true.
    cbv iota. rewrite join_prev_keep by exact Hlast.
    rewrite Hc at 3. do 3 f_equal. lia.
  - cbn [app] in Hseg1, Hal1.
    destruct (myfree_member st1 pre (mkChunk (c_off c) (c_size c) 1) post
                Hl1' Hseg1 Hal1)
      as (h2 & E2 & Hl2 & Hseg2);
      [unfold is_allocated; cbn; lia|cbn; lia|].
    exists h2. split; [exact E2|]. split; [congruence|].
    split; [|split; [reflexivity|split; [exact Hinv1|split; [congruence|exact Herr]]]].
    rewrite (seg_chunks _ _ Hseg2), Hcs. unfold free_in.
    assert (Habs : absorb_next (mkChunk (c_off c) (c_size c) 1) post
                   = (mkChunk (c_off c) (c_size c) 0, post)).
    { destruct post as [|n post]; [reflexivity|].
      unfold is_free in Hnext. apply Z.eqb_neq in Hnext.
      cbn [absorb_next]. rewrite Hnext. reflexivity. }
    rewrite Habs, join_prev_keep by exact Hlast. rewrite <- Hc. reflexivity.
Qed.

(** A block that is handed out and freed at once leaves the chunk list as
    it was before the two calls: the split, if there was one, is undone. *)
Theorem malloc_free_round_trip (st : state) (size p : Z) (st1 : state) :
  length (heap st) = Z.to_nat MEMLENGTH ->
  initialized st = true -> heap_inv (heap st) ->
  0 < size <= SIZE_MOD - ALIGNMENT ->
  P1.mymalloc st size = Some (Ptr p, st1) ->
  exists st2,
    P1.myfree st1 (Ptr p) = Some (Returned st2)
    /\ chunks (heap st2) = chunks (heap st)
    /\ stderr st2 = stderr st.
Proof.
  intros Hlen Hinit Hinv Hsize E.
  destruct (round_trip st size p st1 Hlen Hinit Hinv Hsize E)
    as (h2 & E2 & _ & Hcs & _ & _ & _ & Herr).
  exists (with_heap st1 h2). auto.
Qed.

Lemma five_leaks_inv : heap_inv (heap five_leaks).
Proof.
  unfold heap_inv. rewrite five_leaks_chunks.
  split; [vm_compute; auto 10|]. split; [repeat constructor|].
  cbn. unfold is_free. cbn. lia.
Qed.

Lemma malloc_free_round_trip_witness :
  exists st2,
    P1.myfree (after_malloc five_leaks 10) (Ptr 256) = Some (Returned st2)
    /\ chunks (heap st2) = chunks (heap five_leaks)
    /\ stderr st2 = stderr five_leaks.
Proof.
  apply (malloc_free_round_trip five_leaks 10 256).
  - vm_compute. reflexivity.
  - vm_compute. reflexivity.
  - exact five_leaks_inv.
  - vm_compute. split; [reflexivity|discriminate].
  - vm_compute. reflexivity.
Defined.

Lemma mymalloc_same_chunks st st2 size p st1 :
  0 < size < SIZE_MOD ->
  length (heap st) = Z.to_nat MEMLENGTH ->
  length (heap st2) = Z.to_nat MEMLENGTH ->
  initialized st = true -> initialized st2 = true ->
  tiles 0 (chunks (heap st)) ->
  chunks (heap st2) = chunks (heap st) ->
  P1.mymalloc st size = Some (Ptr p, st1) ->
  exists st3,
    P1.mymalloc st2 size = Some (Ptr p, st3)
    /\ chunks (heap st3) = chunks (heap st1).
Proof.
  intros Hsize Hlen Hlen2 Hinit Hinit2 Ht Hcs E.
  destruct (mymalloc_by_chunks st size Hsize Hlen) as (r & st' & E' & _ & _ & Hr).
  { rewrite ensure_initialized_id by exact Hinit. exact Ht. }
  rewrite E in E'. injection E' as <- <-.
  destruct (mymalloc_by_chunks st2 size Hsize Hlen2)
    as (r2 & st3 & E2 & _ & _ & Hr2).
  { rewrite ensure_initialized_id by exact Hinit2. rewrite Hcs. exact Ht. }
  rewrite ensure_initialized_id in * by assumption.
  destruct Hr as (pre & c & post & Hc & -> & Hfit & Hpre & Hc1 & _).
  exists st3. destruct r2 as [|p2].
  - destruct Hr2 as [Hnone _]. rewrite Hcs, Hc in Hnone.
    apply Forall_app in Hnone as [_ Hnone].
    apply Forall_cons in Hnone as [Hnone _]. destruct (Hnone Hfit).
  - destruct Hr2 as (pre2 & c2 & post2 & Hc2 & -> & Hfit2 & Hpre2 & Hc3 & _).
    rewrite Hcs, Hc in Hc2.
    destruct (first_fit_unique _ _ _ _ _ _ _ Hc2 Hfit Hpre Hfit2 Hpre2)
      as (-> & -> & ->).
    split; [exact E2|]. congruence.
Qed.

(** A block that is freed is the one that the same request gets next: when
    [mymalloc] hands out a block, [myfree] takes it back and the request is
    made again, the answer is the same address, and the chunk list is the
    one of the first time. *)
Theorem freed_block_is_reused (st : state) (size p : Z) (st1 st2 : state) :
  length (heap st) = Z.to_nat MEMLENGTH ->
  initialized st = true -> heap_inv (heap st) ->
  0 < size <= SIZE_MOD - ALIGNMENT ->
  P1.mymalloc st size = Some (Ptr p, st1) ->
  P1.myfree st1 (Ptr p) = Some (Returned st2) ->
  exists st3,
    P1.mymalloc st2 size = Some (Ptr p, st3)
    /\ chunks (heap st3) = chunks (heap st1).
Proof.
  intros Hlen Hinit Hinv Hsize E E2.
  destruct (round_trip st size p st1 Hlen Hinit Hinv Hsize E)
    as (h2 & E2' & Hl2 & Hcs & _ & _ & Hi1 & _).
  rewrite E2 in E2'. injection E2' as ->.
  apply (mymalloc_same_chunks st (with_heap st1 h2) size p st1);
    try assumption.
  - unfold SIZE_MOD, ALIGNMENT in *. lia.
  - cbn [heap with_heap]. congruence.
  - exact (proj1 Hinv).
Qed.

Lemma freed_block_is_reused_witness :
  exists st3,
    P1.mymalloc (after_free (after_malloc five_leaks 10) (Ptr 256)) 10
    = Some (Ptr 256, st3)
    /\ chunks (heap st3) = chunks (heap (after_malloc five_leaks 10)).
Proof.
  apply (freed_block_is_reused five_leaks 10 256).
  - vm_compute. reflexivity.
  - vm_compute. reflexivity.
  - exact five_leaks_inv.
  - vm_compute. split; [reflexivity|discriminate].
  - vm_compute. reflexivity.
  - vm_compute. reflexivity.
Defined.

(** ** The block that [mymalloc] returns *)

Lemma add_header_aligned m :
  m mod ALIGNMENT = 0 -> (m + sizeof_chunk) mod ALIGNMENT = 0.
Proof.
  unfold sizeof_chunk, ALIGNMENT. intros Hm.
  pose proof (Z.div_mod m 8) as D1.
  pose proof (Z.div_mod (m + 16) 8) as D2.
  pose proof (Z.mod_pos_bound (m + 16) 8) as D3. lia.
Qed.

Lemma seg_split_bounds h pre c post d :
  seg h 0 (pre ++ c :: post) MEMLENGTH ->
  (In d pre -> chunk_end d <= c_off c)
  /\ (In d post -> chunk_end c <= c_off d).
Proof.
  intros Hseg. apply seg_app in Hseg as (m & Hpre & Hrest).
  apply seg_cons_inv in Hrest as (Hoff & _ & _ & _ & _ & Hpost).
  split; intros Hin.
  - destruct (seg_in_bounds _ _ _ _ _ Hpre Hin) as (_ & _ & H & _). lia.
  - destruct (seg_in_bounds _ _ _ _ _ Hpost Hin) as (_ & H & _). lia.
Qed.

Lemma allocate_in_head a c :
  exists tl,
    allocate_in a c
    = mkChunk (c_off c)
              (if a + sizeof_chunk + MIN_CHUNK_SIZE <=? c_size c
               then a else c_size c) 1 :: tl.
Proof.
  unfold allocate_in.
  destruct (a + sizeof_chunk + MIN_CHUNK_SIZE <=? c_size c); eauto.
Qed.

Lemma mymalloc_block_at st size p st' :
  state_inv st ->
  0 < size <= SIZE_MOD - ALIGNMENT ->
  P1.mymalloc st size = Some (Ptr p, st') ->
  exists pre c post s,
    chunks (heap (P1.ensure_initialized st)) = pre ++ c :: post
    /\ is_free c /\ p = payload c
    /\ seg (heap (P1.ensure_initialized st)) 0 (pre ++ c :: post) MEMLENGTH
    /\ In (mkChunk (c_off c) s 1) (chunks (heap st'))
    /\ size <= s <= c_size c
    /\ c_off c mod ALIGNMENT = 0.
Proof.
  intros Hinv Hsize E.
  destruct (ensure_initialized_inv st Hinv) as [(Ht & Hal & _) _].
  assert (Hsize' : 0 < size < SIZE_MOD) by (unfold ALIGNMENT in *; lia).
  destruct (mymalloc_by_chunks st size Hsize' (proj1 Hinv) Ht)
    as (r & st1 & E' & _ & _ & Hr).
  rewrite E in E'. injection E' as <- <-.
  destruct Hr as (pre & c & post & Hcs & -> & [Hfree Hfit] & _ & Hcs' & _).
  destruct (aligned_size_least_multiple size Hsize) as (_ & [Hle _] & _).
  destruct (allocate_in_head (P1.aligned_size size) c) as [tl Hhd].
  apply chunks_seg in Ht. rewrite Hcs in Ht, Hal.
  exists pre, c, post. eexists.
  split; [exact Hcs|]. split; [exact Hfree|]. split; [reflexivity|].
  split; [exact Ht|]. split; [|split].
  - rewrite Hcs', Hhd. apply in_or_app. right. left. reflexivity.
  - destruct (_ <=? c_size c) eqn:Hsplit;
      unfold sizeof_chunk, MIN_CHUNK_SIZE in *; lia.
  - apply seg_app in Ht as (m & Hpre & Hrest).
    apply Forall_app in Hal as [Hapre _].
    apply seg_cons_inv in Hrest as (-> & _).
    exact (seg_aligned _ _ _ _ Hpre Hapre eq_refl).
Qed.

(** The block that [mymalloc] returns is usable and fresh: its address is
    a multiple of 8, its [size] bytes lie inside the arena after one header,
    they are payload of an allocated chunk from then on, and none of them
    was payload of an allocated chunk before the call. *)
Theorem mymalloc_block (st : state) (size p : Z) (st' : state) :
  state_inv st ->
  0 < size <= SIZE_MOD - ALIGNMENT ->
  P1.mymalloc st size = Some (Ptr p, st') ->
  p mod ALIGNMENT = 0
  /\ sizeof_chunk <= p /\ p + size <= MEMLENGTH
  /\ live (heap st') (Ptr p)
  /\ forall i, p <= i < p + size ->
       owned (heap st') i
       /\ ~ owned (heap (P1.ensure_initialized st)) i.
Proof.
  intros Hinv Hsize E.
  destruct (mymalloc_block_at st size p st' Hinv Hsize E)
    as (pre & c & post & s & Hcs & Hfree & -> & Hseg & Hin & Hs & Hal).
  destruct (seg_in_bounds _ _ _ _ c Hseg) as (H0 & _ & Hend & _).
  { apply in_or_app. right. left. reflexivity. }
  unfold payload, chunk_end in *.
  split; [apply add_header_aligned; exact Hal|].
  split; [lia|]. split; [lia|]. split.
  - eexists. split; [exact Hin|]. split; [|reflexivity].
    unfold is_allocated. cbn. lia.
  - intros i Hi. split.
    + eexists. split; [exact Hin|]. split; [unfold is_allocated; cbn; lia|].
      unfold payload, chunk_end. cbn [c_off c_size]. lia.
    + intros (d & Hd & Hda & Hdi). rewrite Hcs in Hd.
      destruct (seg_split_bounds _ _ _ _ d Hseg) as [Hbefore Hafter].
      pose proof (chunks_sizes_nonneg (heap (P1.ensure_initialized st))) as Hnn.
      rewrite Hcs in Hnn.
      unfold payload, chunk_end, sizeof_chunk in *.
      apply in_app_or in Hd as [Hd|[<-|Hd]].
      * specialize (Hbefore Hd). lia.
      * unfold is_free, is_allocated in *. lia.
      * specialize (Hafter Hd). lia.
Qed.

Lemma five_leaks_state_inv : state_inv five_leaks.
Proof.
  split; [vm_compute; reflexivity|]. intros _. exact five_leaks_inv.
Qed.

Lemma mymalloc_block_witness :
  256 mod ALIGNMENT = 0
  /\ sizeof_chunk <= 256 /\ 256 + 10 <= MEMLENGTH
  /\ live (heap (after_malloc five_leaks 10)) (Ptr 256)
  /\ forall i, 256 <= i < 256 + 10 ->
       owned (heap (after_malloc five_leaks 10)) i
       /\ ~ owned (heap (P1.ensure_initialized five_leaks)) i.
Proof.
  apply (mymalloc_block five_leaks 10 256).
  - exact five_leaks_state_inv.
  - vm_compute. split; [reflexivity|discriminate].
  - vm_compute. reflexivity.
Defined.

(** ** The bytes that a call writes *)

Lemma lookup_set_size h off v (i : nat) :
  0 <= off -> Z.of_nat i < off \/ off + 8 <= Z.of_nat i ->
  set_size h off v !! i = h !! i.
Proof. intros. unfold set_size. apply lookup_store_outside. lia. Qed.

Lemma lookup_set_allocated h off v (i : nat) :
  0 <= off -> Z.of_nat i < off + 8 \/ off + 12 <= Z.of_nat i ->
  set_allocated h off v !! i = h !! i.
Proof. intros. unfold set_allocated. apply lookup_store_outside. lia. Qed.

Lemma take_chunk_bytes h m a (i : nat) :
  0 <= m -> m + sizeof_chunk + get_size h m <= MEMLENGTH ->
  0 <= a <= get_size h m ->
  Z.of_nat i < m \/ m + sizeof_chunk + get_size h m <= Z.of_nat i ->
  P1.take_chunk h m a !! i = h !! i.
Proof.
  intros Hm Hend Ha Hi. unfold P1.take_chunk. cbv zeta.
  unfold sizeof_chunk, MIN_CHUNK_SIZE, MEMLENGTH in *.
  rewrite lookup_set_allocated by lia.
  destruct (get_size h m >=? _) eqn:Hsplit; [|reflexivity].
  rewrite (wrap_small (a + 16)) in Hsplit by (unfold SIZE_MOD; lia).
  rewrite wrap_small in Hsplit by (unfold SIZE_MOD; lia).
  replace (advance m (16 + a)) with (m + 16 + a)
    by (rewrite advance_inside; unfold MEMLENGTH; lia).
  rewrite lookup_set_size, lookup_set_allocated, lookup_set_size by lia.
  reflexivity.
Qed.

Lemma mymalloc_bytes (st : state) (size : Z) (r : pointer)
    (st' : state) (i : nat) :
  arena_ok st -> 0 < size < SIZE_MOD ->
  P1.mymalloc st size = Some (r, st') ->
  heap st' !! i <> heap (P1.ensure_initialized st) !! i ->
  exists c, In c (chunks (heap (P1.ensure_initialized st)))
            /\ is_free c /\ c_off c <= Z.of_nat i < chunk_end c.
Proof.
  intros Hok Hsize. unfold P1.mymalloc. cbv zeta.
  replace (size =? 0) with false by (symmetry; lia).
  pose proof (ensure_initialized_tiles st Hok) as Ht.
  destruct (P1.find_chunk FUEL (heap (P1.ensure_initialized st)) 0
              (P1.aligned_size size)) as [[x|]|] eqn:E; [| |discriminate].
  2:{ intros [= <- <-] Hne. destruct Hne. reflexivity. }
  apply find_chunk_chunks in E; [|exact Ht].
  destruct E as (pre & c & post & Hcs & <- & [Hfree Hfit] & _).
  intros [= <- <-]. cbn [heap with_heap]. intros Hne.
  exists c. split; [rewrite Hcs; apply in_or_app; right; left; reflexivity|].
  split; [exact Hfree|].
  destruct (decide (c_off c <= Z.of_nat i < chunk_end c)) as [Hi|Hi];
    [exact Hi|].
  destruct Hne. apply chunks_seg in Ht. rewrite Hcs in Ht.
  apply seg_app in Ht as (m & _ & Hrest).
  apply seg_cons_inv in Hrest as (Hoff & Hsz & _ & Hm & Hend & _).
  pose proof (aligned_size_bound size) as Ha.
  unfold chunk_end in *. rewrite Hoff, Hsz in *.
  apply take_chunk_bytes; lia.
Qed.

(** [mymalloc] writes inside one free chunk and nowhere else: a byte that
    the call changes lies in a chunk that was free when the call was made,
    so the headers and payloads of all allocated chunks are left alone. *)
Theorem mymalloc_writes_one_free_chunk (st : state) (size : Z) (r : pointer)
    (st' : state) (i : nat) :
  arena_ok st -> 0 < size < SIZE_MOD ->
  P1.mymalloc st size = Some (r, st') ->
  heap st' !! i <> heap (P1.ensure_initialized st) !! i ->
  exists c, In c (chunks (heap (P1.ensure_initialized st)))
            /\ is_free c /\ c_off c <= Z.of_nat i < chunk_end c.
Proof. apply mymalloc_bytes. Qed.

Lemma mymalloc_writes_one_free_chunk_witness :
  exists c, In c (chunks (heap (P1.ensure_initialized five_leaks)))
            /\ is_free c /\ c_off c <= Z.of_nat 248 < chunk_end c.
Proof.
  apply (mymalloc_writes_one_free_chunk five_leaks 10 (Ptr 256)
           (after_malloc five_leaks 10) 248).
  - exact five_leaks_ok.
  - vm_compute. auto.
  - vm_compute. reflexivity.
  - vm_compute. discriminate.
Defined.

Lemma seg_reads h a cs b c :
  seg h a cs b -> In c cs -> c = read_chunk h (c_off c).
Proof.
  revert a. induction cs as [|d cs IH]; intros a Hseg; [intros []|].
  cbn [seg] in Hseg. destruct Hseg as (Hd & _ & Hrest).
  intros [<-|Hin]; [|eapply IH; eassumption].
  rewrite Hd at 1. rewrite Hd. reflexivity.
Qed.

Lemma coalesce_forward_bytes h chunk (i : nat) :
  0 <= chunk -> Z.of_nat i < chunk \/ chunk + 12 <= Z.of_nat i ->
  P1.coalesce_forward h chunk !! i = h !! i.
Proof.
  intros Hc Hi. unfold P1.coalesce_forward. cbv zeta.
  destruct (_ && _); rewrite ?lookup_set_size, lookup_set_allocated by lia;
    reflexivity.
Qed.

Lemma coalesce_backward_found h chunk r :
  P1.find_prev FUEL h chunk 0 = Some r ->
  P1.coalesce_backward h chunk
  = Some match r with
         | Some prev =>
           if get_allocated h prev =? 0
           then set_size h prev
                  (wrap (get_size h prev
                         + wrap (sizeof_chunk + get_size h chunk)))
           else h
         | None => h
         end.
Proof.
  intros E. unfold P1.coalesce_backward. rewrite E.
  destruct r; reflexivity.
Qed.

Lemma release_bytes h pre c post h' (i : nat) :
  Z.of_nat (length h) = MEMLENGTH ->
  seg h 0 (pre ++ c :: post) MEMLENGTH ->
  P1.release h (c_off c) = Some h' ->
  h' !! i <> h !! i ->
  c_off c <= Z.of_nat i < c_off c + 12
  \/ exists p, last pre = Some p /\ is_free p
               /\ c_off p <= Z.of_nat i < c_off p + 8.
Proof.
  intros Hlen Hseg Hrel Hne.
  destruct (seg_in_bounds _ _ _ _ c Hseg) as (H0 & _).
  { apply in_or_app. right. left. reflexivity. }
  destruct (decide (c_off c <= Z.of_nat i < c_off c + 12)) as [Hi|Hi];
    [left; exact Hi|right].
  assert (Hfw : P1.coalesce_forward h (c_off c) !! i = h !! i)
    by (apply coalesce_forward_bytes; lia).
  destruct (coalesce_forward_seg h pre c post Hlen Hseg)
    as (c' & post2 & _ & Hseg2 & Hoff' & _).
  apply seg_app in Hseg2 as (m & Hpre & Hrest).
  apply seg_cons_inv in Hrest as (Hm & Hsz & _ & _ & Hend & _).
  assert (Hmle : m <= MEMLENGTH).
  { pose proof (get_size_bound (P1.coalesce_forward h (c_off c)) m).
    unfold chunk_end, sizeof_chunk in *. lia. }
  rewrite <- Hm in Hpre, Hmle. rewrite Hoff' in Hpre, Hmle.
  pose proof (find_prev_seg FUEL _ 0 pre _ Hpre Hmle enough_FUEL) as Hfp.
  revert Hrel. unfold P1.release.
  rewrite (coalesce_backward_found _ _ _ Hfp). intros [= Hh'].
  destruct (last pre) as [p|] eqn:Hlast; cbn [fmap option_fmap option_map] in Hh'.
  2:{ destruct Hne. rewrite <- Hh'. exact Hfw. }
  assert (Hp : In p pre).
  { apply last_Some in Hlast as [l ->]. apply in_or_app. right. left.
    reflexivity. }
  pose proof (seg_reads _ _ _ _ _ Hpre Hp) as Hrd.
  destruct (seg_in_bounds _ _ _ _ _ Hpre Hp) as (Hp0 & _).
  assert (Hpa : get_allocated (P1.coalesce_forward h (c_off c)) (c_off p)
                = c_alloc p) by (rewrite Hrd; reflexivity).
  rewrite Hpa in Hh'.
  destruct (c_alloc p =? 0) eqn:Hfree.
  2:{ destruct Hne. rewrite <- Hh'. exact Hfw. }
  exists p. split; [reflexivity|]. split; [apply Z.eqb_eq; exact Hfree|].
  destruct (decide (c_off p <= Z.of_nat i < c_off p + 8)) as [Hj|Hj];
    [exact Hj|].
  destruct Hne. rewrite <- Hh'.
  rewrite lookup_set_size by lia. exact Hfw.
Qed.

Lemma myfree_bytes (st : state) (pre : list chunk)
    (c : chunk) (post : list chunk) (st' : state) (i : nat) :
  length (heap st) = Z.to_nat MEMLENGTH ->
  tiles 0 (chunks (heap st)) ->
  chunks (heap st) = pre ++ c :: post ->
  P1.myfree st (Ptr (payload c)) = Some (Returned st') ->
  heap st' !! i <> heap st !! i ->
  c_off c <= Z.of_nat i < c_off c + 12
  \/ exists p, last pre = Some p /\ is_free p
               /\ c_off p <= Z.of_nat i < c_off p + 8.
Proof.
  intros Hlen Ht Hcs E Hne. apply chunks_seg in Ht. rewrite Hcs in Ht.
  destruct (accepted_dec (heap st) (payload c)) as [Hacc|Hrej].
  2:{ exfalso. apply Hrej. eapply myfree_returned_accepted. eassumption. }
  rewrite (myfree_accepted _ _ Hacc) in E.
  replace (payload c - sizeof_chunk) with (c_off c) in E
    by (unfold payload; lia).
  destruct (P1.release (heap st) (c_off c)) as [h'|] eqn:Hrel; [|discriminate].
  injection E as <-. cbn [heap with_heap] in Hne.
  exact (release_bytes _ _ _ _ _ _ (arena_length _ Hlen) Ht Hrel Hne).
Qed.

(** [myfree] writes to headers only: a byte that a returning call changes
    lies in the size or flag field of the freed chunk, or in the size field
    of the chunk before it when that one is free.  No payload byte of any
    chunk, and no field of any other header, is touched. *)
Theorem myfree_writes_headers_only (st : state) (pre : list chunk)
    (c : chunk) (post : list chunk) (st' : state) (i : nat) :
  length (heap st) = Z.to_nat MEMLENGTH ->
  tiles 0 (chunks (heap st)) ->
  chunks (heap st) = pre ++ c :: post ->
  P1.myfree st (Ptr (payload c)) = Some (Returned st') ->
  heap st' !! i <> heap st !! i ->
  c_off c <= Z.of_nat i < c_off c + 12
  \/ exists p, last pre = Some p /\ is_free p
               /\ c_off p <= Z.of_nat i < c_off p + 8.
Proof. apply myfree_bytes. Qed.

Lemma myfree_writes_headers_only_witness :
  c_off (mkChunk 96 32 1) <= Z.of_nat 104 < c_off (mkChunk 96 32 1) + 12
  \/ exists p, last [mkChunk 0 32 1; mkChunk 48 32 1] = Some p /\ is_free p
               /\ c_off p <= Z.of_nat 104 < c_off p + 8.
Proof.
  apply (myfree_writes_headers_only five_leaks
           [mkChunk 0 32 1; mkChunk 48 32 1] (mkChunk 96 32 1)
           [mkChunk 144 32 1; mkChunk 192 32 1; mkChunk 240 3840 0]
           (after_free five_leaks (Ptr 112)) 104).
  - vm_compute. reflexivity.
  - rewrite five_leaks_chunks. vm_compute. auto 10.
  - exact five_leaks_chunks.
  - vm_compute. reflexivity.
  - vm_compute. discriminate.
Defined.

(** ** Freeing the same pointer twice *)

Lemma release_marks_free h pre c post h' :
  Z.of_nat (length h) = MEMLENGTH ->
  seg h 0 (pre ++ c :: post) MEMLENGTH ->
  P1.release h (c_off c) = Some h' -> get_allocated h' (c_off c) = 0.
Proof.
  intros Hlen Hseg Hrel.
  destruct (coalesce_forward_seg h pre c post Hlen Hseg)
    as (c' & post2 & _ & Hseg2 & Hoff' & Hfree' & _).
  apply seg_app in Hseg2 as (m & Hpre & Hrest).
  apply seg_cons_inv in Hrest as (Hm & Hsz & Hal & Hm0 & Hend & _).
  assert (Hmle : m <= MEMLENGTH).
  { pose proof (get_size_bound (P1.coalesce_forward h (c_off c)) m).
    unfold chunk_end, sizeof_chunk in *. lia. }
  rewrite <- Hm in Hpre, Hmle, Hal. rewrite Hoff' in Hpre, Hmle, Hal.
  assert (Hfw : get_allocated (P1.coalesce_forward h (c_off c)) (c_off c) = 0).
  { rewrite <- Hal. exact Hfree'. }
  pose proof (find_prev_seg FUEL _ 0 pre _ Hpre Hmle enough_FUEL) as Hfp.
  revert Hrel. unfold P1.release.
  rewrite (coalesce_backward_found _ _ _ Hfp). intros [= <-].
  destruct (last pre) as [p|] eqn:Hlast; cbn [fmap option_fmap option_map];
    [|exact Hfw].
  destruct (get_allocated _ (c_off p) =? 0); [|exact Hfw].
  apply last_Some in Hlast as [l ->].
  apply seg_app in Hpre as (mp & _ & Hp).
  apply seg_cons_inv in Hp as (Hpoff & Hpsz & _ & Hmp & _ & Hnil).
  cbn [seg] in Hnil.
  pose proof (get_size_bound (P1.coalesce_forward h (c_off c)) mp) as Hps.
  unfold chunk_end, sizeof_chunk in *.
  rewrite get_allocated_set_size by lia. exact Hfw.
Qed.

Lemma double_free_exits st c st' :
  length (heap st) = Z.to_nat MEMLENGTH ->
  tiles 0 (chunks (heap st)) ->
  In c (chunks (heap st)) ->
  P1.myfree st (Ptr (payload c)) = Some (Returned st') ->
  tiles 0 (chunks (heap st'))
  /\ get_allocated (heap st') (c_off c) = 0
  /\ exists e, P1.myfree st' (Ptr (payload c)) = Some (Exited e)
               /\ exit_status e = 2 /\ ran e = handlers st'
               /\ heap (final e) = heap st'.
Proof.
  intros Hlen Ht Hin E. apply arena_length in Hlen.
  apply chunks_seg in Ht.
  apply in_split in Hin as (pre & post & Hcs). rewrite Hcs in Ht.
  pose proof (myfree_returned_accepted _ _ _ E) as Hacc.
  rewrite (myfree_accepted _ _ Hacc) in E.
  replace (payload c - sizeof_chunk) with (c_off c) in E
    by (unfold payload; lia).
  destruct (release_chunks (heap st) pre c post Hlen Ht)
    as (h' & Hrel & _ & Hseg').
  pose proof (release_marks_free _ _ _ _ _ Hlen Ht Hrel) as Hfree.
  rewrite Hrel in E. injection E as <-. cbn [heap with_heap].
  assert (Ht' : tiles 0 (chunks h')).
  { rewrite (seg_chunks _ _ Hseg'). eapply seg_tiles. exact Hseg'. }
  split; [exact Ht'|]. split; [exact Hfree|].
  destruct (myfree_rejected_tiled (with_heap st h') (payload c))
    as (e & E' & Hst & Hr & Hh & _).
  - exact Ht'.
  - intros (_ & _ & _ & _ & _ & _ & Hal). apply Hal.
    replace (payload c - sizeof_chunk) with (c_off c)
      by (unfold payload; lia).
    exact Hfree.
  - exists e. auto.
Qed.

(** On an arena that is tiled by its chunks, once [myfree] has returned
    for the pointer to one of the blocks, handing it the same pointer again
    straight away ends the process with status 2. *)
Theorem double_free_is_fatal (st : state) (c : chunk) (st' : state) :
  length (heap st) = Z.to_nat MEMLENGTH ->
  tiles 0 (chunks (heap st)) ->
  In c (chunks (heap st)) ->
  P1.myfree st (Ptr (payload c)) = Some (Returned st') ->
  exists e, P1.myfree st' (Ptr (payload c)) = Some (Exited e)
            /\ exit_status e = 2.
Proof.
  intros Hlen Ht Hin E.
  destruct (double_free_exits st c st' Hlen Ht Hin E)
    as (_ & _ & e & E' & Hs & _).
  exists e. auto.
Qed.

Lemma double_free_is_fatal_witness :
  length (heap five_leaks) = Z.to_nat MEMLENGTH
  /\ tiles 0 (chunks (heap five_leaks))
  /\ In (mkChunk 96 32 1) (chunks (heap five_leaks))
  /\ P1.myfree five_leaks (Ptr (payload (mkChunk 96 32 1)))
     = Some (Returned (after_free five_leaks (Ptr 112)))
  /\ exists e, P1.myfree (after_free five_leaks (Ptr 112))
                 (Ptr (payload (mkChunk 96 32 1))) = Some (Exited e)
               /\ exit_status e = 2.
Proof.
  assert (Hlen : length (heap five_leaks) = Z.to_nat MEMLENGTH)
    by (vm_compute; reflexivity).
  assert (Ht : tiles 0 (chunks (heap five_leaks)))
    by (rewrite five_leaks_chunks; vm_compute; auto 10).
  assert (Hin : In (mkChunk 96 32 1) (chunks (heap five_leaks)))
    by (rewrite five_leaks_chunks; cbn; auto).
  assert (E : P1.myfree five_leaks (Ptr (payload (mkChunk 96 32 1)))
              = Some (Returned (after_free five_leaks (Ptr 112))))
    by (vm_compute; reflexivity).
  split; [exact Hlen|]. split; [exact Ht|]. split; [exact Hin|].
  split; [exact E|].
  exact (double_free_is_fatal five_leaks (mkChunk 96 32 1) _ Hlen Ht Hin E).
Defined.

(** ** Runs that free what they were given *)

Lemma ensure_initialized_twice st :
  P1.ensure_initialized (P1.ensure_initialized st) = P1.ensure_initialized st.
Proof.
  unfold P1.ensure_initialized at 1.
  destruct (initialized (P1.ensure_initialized st)) eqn:E; [reflexivity|].
  unfold P1.ensure_initialized in E.
  destruct (initialized st) eqn:E'; [congruence|discriminate].
Qed.

Lemma mymalloc_ensure st size :
  P1.mymalloc (P1.ensure_initialized st) size = P1.mymalloc st size.
Proof. unfold P1.mymalloc. rewrite ensure_initialized_twice. reflexivity. Qed.

Lemma in_allocations p s cs :
  In (p, s) (allocations cs) ->
  exists c, In c cs /\ is_allocated c /\ payload c = p /\ c_size c = s.
Proof.
  induction cs as [|c cs IH]; [intros []|].
  rewrite allocations_cons. destruct (c_alloc c =? 0) eqn:Hc.
  - intros Hin. destruct (IH Hin) as (d & Hd & H). exists d. split; [right|]; auto.
  - intros [[= <- <-]|Hin].
    + exists c. split; [left; reflexivity|]. split; [|auto].
      unfold is_allocated. apply Z.eqb_neq. exact Hc.
    + destruct (IH Hin) as (d & Hd & H). exists d. split; [right|]; auto.
Qed.

Lemma tracked_perm st addrs addrs' :
  Permutation addrs addrs' -> tracked st addrs -> tracked st addrs'.
Proof.
  intros Hp (H1 & H2 & H3 & H4 & H5).
  split; [exact H1|]. split; [exact H2|]. split; [exact H3|].
  split; [|exact H5]. eapply Permutation_trans; eassumption.
Qed.

Lemma malloc_tracked st addrs size r st' :
  tracked st addrs -> 0 <= size <= SIZE_MOD - ALIGNMENT ->
  P1.mymalloc st size = Some (r, st') ->
  tracked st' (match r with Ptr p => p :: addrs | NULL => addrs end).
Proof.
  intros (Hlen & Hinit & Hinv & Hperm & Hpos) Hsize E.
  assert (Hsize' : 0 <= size < SIZE_MOD) by (unfold ALIGNMENT in *; lia).
  assert (Hst : state_inv st) by (split; auto).
  destruct (mymalloc_inv st size r st' Hsize' Hst E) as [[Hlen' Hinv'] Hinit'].
  specialize (Hinv' Hinit').
  destruct (Z.eq_dec size 0) as [->|Hnz].
  { rewrite mymalloc_zero, ensure_initialized_id in E by exact Hinit.
    injection E as <- <-. unfold tracked. cbn [heap fprintf initialized].
    auto. }
  assert (Hpos' : 0 < size < SIZE_MOD) by lia.
  destruct r as [|p].
  - destruct (mymalloc_by_chunks st size Hpos' Hlen) as (r & st1 & E1 & _ & _ & Hr).
    { rewrite ensure_initialized_id by exact Hinit. apply Hinv. }
    rewrite E in E1. injection E1 as <- <-. destruct Hr as [_ Hheap].
    rewrite ensure_initialized_id in Hheap by exact Hinit.
    unfold tracked. rewrite Hheap. auto.
  - destruct (mymalloc_allocations st size p st' Hpos')
      as (l1 & l2 & s & H1 & H2 & Hs & _);
      [split; [exact Hlen|intros _; apply Hinv]|exact E|].
    rewrite ensure_initialized_id in H1 by exact Hinit.
    destruct (aligned_size_least_multiple size) as (_ & [Hle _] & _); [lia|].
    rewrite H1 in Hperm, Hpos. apply Forall_app in Hpos as [Hp1 Hp2].
    unfold tracked. rewrite H2.
    split; [exact Hlen'|]. split; [exact Hinit'|]. split; [exact Hinv'|].
    split.
    + rewrite map_app in *. cbn [map fst].
      apply Permutation_sym, Permutation_cons_app, Permutation_sym.
      exact Hperm.
    + apply Forall_app. split; [exact Hp1|].
      constructor; [cbn; lia|exact Hp2].
Qed.

Lemma mallocs_tracked st addrs sizes ps st' :
  tracked st addrs ->
  Forall (fun s => 0 <= s <= SIZE_MOD - ALIGNMENT) sizes ->
  mallocs st sizes = Some (ps, st') ->
  tracked st' (omap address ps ++ addrs).
Proof.
  intros Ht Hs. revert st addrs ps Ht.
  induction Hs as [|s sizes Hs _ IH]; intros st addrs ps Ht.
  - intros [= <- <-]. exact Ht.
  - cbn [mallocs].
    destruct (P1.mymalloc st s) as [[p st1]|] eqn:E1; [|discriminate].
    cbn. destruct (mallocs st1 sizes) as [[ps' st2]|] eqn:E2; [|discriminate].
    cbn. intros [= <- <-].
    pose proof (malloc_tracked st addrs s p st1 Ht Hs E1) as Ht1.
    specialize (IH _ _ _ Ht1 E2).
    destruct p as [|a]; cbn [omap address]; [exact IH|].
    eapply tracked_perm; [|exact IH].
    cbn [app]. apply Permutation_sym, Permutation_middle.
Qed.

Lemma free_tracked st p addrs :
  tracked st (p :: addrs) ->
  exists st',
    P1.myfree st (Ptr p) = Some (Returned st')
    /\ tracked st' addrs /\ stderr st' = stderr st.
Proof.
  intros (Hlen & Hinit & Hinv & Hperm & Hpos).
  assert (Hin : In p (map fst (allocations (chunks (heap st))))).
  { eapply Permutation_in; [apply Permutation_sym; exact Hperm|].
    left. reflexivity. }
  apply in_map_iff in Hin as ([p' s] & Hp & Hin). cbn in Hp. subst p'.
  pose proof (proj1 (List.Forall_forall _ _) Hpos _ Hin) as Hs.
  cbn in Hs. apply in_allocations in Hin as (c & Hc & Hca & <- & <-).
  destruct Hinv as (Ht & Hal & Hn).
  destruct (myfree_allocations st c Hlen Ht Hal Hc Hca)
    as (h' & l1 & l2 & E & Hl' & Ht' & H1 & H2); [lia|].
  exists (with_heap st h'). split; [exact E|]. split; [|reflexivity].
  destruct (myfree_live_inv st c (with_heap st h') Hlen (conj Ht (conj Hal Hn))
              Hc E) as (_ & Hinv' & _).
  rewrite H1 in Hperm, Hpos. apply Forall_app in Hpos as [Hp1 Hp2].
  apply Forall_cons in Hp2 as [_ Hp2].
  unfold tracked. cbn [heap with_heap initialized]. rewrite H2.
  split; [congruence|]. split; [exact Hinit|]. split; [exact Hinv'|]. split.
  - rewrite map_app in *. cbn [map fst] in Hperm.
    eapply Permutation_cons_inv.
    eapply Permutation_trans; [apply Permutation_middle|exact Hperm].
  - apply Forall_app. auto.
Qed.

Lemma frees_tracked st ps addrs :
  tracked st addrs -> Permutation (omap address ps) addrs ->
  exists st',
    frees st ps = Some (Returned st')
    /\ tracked st' [] /\ stderr st' = stderr st.
Proof.
  revert st addrs. induction ps as [|[|p] ps IH]; intros st addrs Ht Hp.
  - cbn in Hp. apply Permutation_nil in Hp. subst addrs.
    exists st. auto.
  - cbn [frees P1.myfree]. cbn [omap address] in Hp. eapply IH; eassumption.
  - cbn [omap address] in Hp.
    destruct (free_tracked st p (omap address ps)) as (st1 & E & Ht1 & Herr).
    { eapply tracked_perm; [apply Permutation_sym; exact Hp|exact Ht]. }
    cbn [frees]. rewrite E.
    destruct (IH st1 (omap address ps) Ht1 (Permutation_refl _))
      as (st' & E' & Ht' & Herr').
    exists st'. split; [exact E'|]. split; [exact Ht'|]. congruence.
Qed.

Lemma tracked_nil_one_chunk st :
  tracked st [] -> chunks (heap st) = [mkChunk 0 (MEMLENGTH - sizeof_chunk) 0].
Proof.
  intros (_ & _ & Hinv & Hperm & _). apply one_free_chunk; [exact Hinv|].
  apply Permutation_sym, Permutation_nil in Hperm.
  apply map_eq_nil in Hperm.
  induction (chunks (heap st)) as [|c cs IH]; [constructor|].
  rewrite allocations_cons in Hperm.
  destruct (c_alloc c =? 0) eqn:Hc; [|discriminate].
  constructor; [apply Z.eqb_eq; exact Hc|]. apply IH. exact Hperm.
Qed.

Lemma nothing_allocated_tracked st :
  length (heap st) = Z.to_nat MEMLENGTH -> initialized st = true ->
  heap_inv (heap st) -> Forall is_free (chunks (heap st)) ->
  tracked st [].
Proof.
  intros Hlen Hinit Hinv Hfree.
  assert (E : allocations (chunks (heap st)) = []).
  { induction Hfree as [|c cs Hc _ IH]; [reflexivity|].
    rewrite allocations_cons. unfold is_free in Hc. rewrite Hc. exact IH. }
  unfold tracked. rewrite E. auto.
Qed.

Lemma mallocs_total st sizes : exists ps st', mallocs st sizes = Some (ps, st').
Proof.
  revert st. induction sizes as [|s sizes IH]; intros st; [cbn; eauto|].
  destruct (mymalloc_total st s) as (r & st1 & E1).
  destruct (IH st1) as (ps & st2 & E2).
  cbn [mallocs]. rewrite E1. cbn. rewrite E2. cbn. eauto.
Qed.

Lemma mallocs_ensure st sizes :
  sizes <> [] -> mallocs (P1.ensure_initialized st) sizes = mallocs st sizes.
Proof.
  destruct sizes as [|s sizes]; [congruence|]. intros _.
  cbn [mallocs]. rewrite mymalloc_ensure. reflexivity.
Qed.

Lemma omap_address_perm (l l' : list pointer) :
  Permutation l l' -> Permutation (omap address l) (omap address l').
Proof.
  induction 1 as [|x l l' _ IH|x y l|l l' l'' _ IH1 _ IH2].
  - constructor.
  - destruct x; cbn [omap address]; [exact IH|constructor; exact IH].
  - destruct x, y; cbn [omap address];
      first [apply Permutation_refl | apply perm_swap].
  - eapply Permutation_trans; eassumption.
Qed.

Lemma balanced st sizes ps st1 order :
  state_inv st ->
  Forall is_free (chunks (heap (P1.ensure_initialized st))) ->
  sizes <> [] ->
  Forall (fun s => 0 <= s <= SIZE_MOD - ALIGNMENT) sizes ->
  mallocs st sizes = Some (ps, st1) ->
  Permutation order ps ->
  exists st2,
    frees st1 order = Some (Returned st2)
    /\ chunks (heap st2) = [mkChunk 0 (MEMLENGTH - sizeof_chunk) 0]
    /\ stderr st2 = stderr st1.
Proof.
  intros Hinv Hfree Hne Hsizes E Hperm.
  destruct (ensure_initialized_inv st Hinv) as [Hheap Hinit].
  assert (Ht0 : tracked (P1.ensure_initialized st) []).
  { apply nothing_allocated_tracked; try assumption.
    rewrite ensure_initialized_length. exact (proj1 Hinv). }
  rewrite <- mallocs_ensure in E by exact Hne.
  pose proof (mallocs_tracked _ _ _ _ _ Ht0 Hsizes E) as Ht1.
  destruct (frees_tracked st1 order _ Ht1) as (st2 & E2 & Ht2 & Herr).
  { rewrite app_nil_r. apply omap_address_perm. exact Hperm. }
  exists st2. split; [exact E2|]. split; [|exact Herr].
  apply tracked_nil_one_chunk. exact Ht2.
Qed.

(** A run that starts with nothing allocated, makes any series of requests
    and then frees every pointer it was given, in any order, comes back
    from every [free] and ends with the arena one free chunk of 4080 bytes;
    the [free] calls report nothing. *)
Theorem balanced_run (st : state) (sizes : list Z) (ps : list pointer)
    (st1 : state) (order : list pointer) :
  state_inv st ->
  Forall is_free (chunks (heap (P1.ensure_initialized st))) ->
  sizes <> [] ->
  Forall (fun s => 0 <= s <= SIZE_MOD - ALIGNMENT) sizes ->
  mallocs st sizes = Some (ps, st1) ->
  Permutation order ps ->
  exists st2,
    frees st1 order = Some (Returned st2)
    /\ chunks (heap st2) = [mkChunk 0 (MEMLENGTH - sizeof_chunk) 0]
    /\ stderr st2 = stderr st1.
Proof. apply balanced. Qed.

Lemma initial_state_inv : state_inv initial_state.
Proof. split; [reflexivity|]. cbn. discriminate. Qed.

Lemma initial_nothing_allocated :
  Forall is_free (chunks (heap (P1.ensure_initialized initial_state))).
Proof.
  assert (E : chunks (heap (P1.ensure_initialized initial_state))
              = [mkChunk 0 4080 0]) by (vm_compute; reflexivity).
  rewrite E. repeat constructor.
Qed.

Lemma balanced_run_witness :
  exists st2,
    frees five_leaks [Ptr 160; Ptr 16; Ptr 208; Ptr 64; Ptr 112]
    = Some (Returned st2)
    /\ chunks (heap st2) = [mkChunk 0 (MEMLENGTH - sizeof_chunk) 0]
    /\ stderr st2 = stderr five_leaks.
Proof.
  apply (balanced_run initial_state [32; 32; 32; 32; 32]
           [Ptr 16; Ptr 64; Ptr 112; Ptr 160; Ptr 208] five_leaks).
  - exact initial_state_inv.
  - exact initial_nothing_allocated.
  - discriminate.
  - repeat constructor; vm_compute; discriminate.
  - vm_compute. reflexivity.
  - apply (Permutation_trans
             (l' := [Ptr 16; Ptr 160; Ptr 208; Ptr 64; Ptr 112])).
    + apply perm_swap.
    + constructor.
      apply (Permutation_trans
               (l' := [Ptr 64; Ptr 160; Ptr 208; Ptr 112])).
      * apply (Permutation_trans
                 (l' := [Ptr 160; Ptr 64; Ptr 208; Ptr 112])).
        -- constructor. apply perm_swap.
        -- apply perm_swap.
      * constructor.
        apply (Permutation_trans
                 (l' := [Ptr 160; Ptr 112; Ptr 208])).
        -- constructor. apply perm_swap.
        -- apply (Permutation_trans
                    (l' := [Ptr 112; Ptr 160; Ptr 208])).
           ++ apply perm_swap.
           ++ apply Permutation_refl.
Defined.

(** ** The workloads and tests that only call the allocator *)

Lemma malloc_free_step st size r st1 :
  length (heap st) = Z.to_nat MEMLENGTH ->
  initialized st = true -> heap_inv (heap st) ->
  0 < size <= SIZE_MOD - ALIGNMENT ->
  P1.mymalloc st size = Some (r, st1) ->
  exists st2,
    P1.myfree st1 r = Some (Returned st2)
    /\ length (heap st2) = Z.to_nat MEMLENGTH
    /\ initialized st2 = true
    /\ heap_inv (heap st2)
    /\ chunks (heap st2) = chunks (heap st)
    /\ match r with Ptr p => p mod ALIGNMENT = 0 | NULL => True end.
Proof.
  intros Hlen Hinit Hinv Hsize E. destruct r as [|p].
  - assert (Hsize' : 0 < size < SIZE_MOD) by (unfold ALIGNMENT in *; lia).
    destruct (mymalloc_by_chunks st size Hsize' Hlen)
      as (r & st' & E' & Hl1 & Hi1 & Hr).
    { rewrite ensure_initialized_id by exact Hinit. apply Hinv. }
    rewrite E in E'. injection E' as <- <-. destruct Hr as [_ Hheap].
    rewrite ensure_initialized_id in * by exact Hinit.
    exists st1. cbn [P1.myfree]. rewrite Hheap.
    split; [reflexivity|]. split; [congruence|]. split; [congruence|]. auto.
  - destruct (round_trip st size p st1 Hlen Hinit Hinv Hsize E)
      as (h2 & E2 & Hl2 & Hcs & _ & _ & Hi1 & _).
    destruct (mymalloc_block_at st size p st1) as (pre & c & post & s & Hb);
      [split; auto|exact Hsize|exact E|].
    destruct Hb as (_ & _ & -> & _ & _ & _ & Hal).
    exists (with_heap st1 h2). cbn [heap with_heap initialized].
    split; [exact E2|]. split; [congruence|]. split; [exact Hi1|].
    split; [unfold heap_inv; rewrite Hcs; exact Hinv|].
    split; [exact Hcs|]. apply add_header_aligned. exact Hal.
Qed.

Lemma workload1_loop_restores n st :
  length (heap st) = Z.to_nat MEMLENGTH ->
  initialized st = true -> heap_inv (heap st) ->
  exists st',
    Memgrind.workload1_loop n st = Some (Returned st')
    /\ chunks (heap st') = chunks (heap st).
Proof.
  revert st. induction n as [|n IH]; intros st Hlen Hinit Hinv.
  - exists st. auto.
  - cbn [Memgrind.workload1_loop].
    destruct (mymalloc_total st 1) as (r & st1 & E). rewrite E.
    destruct (malloc_free_step st 1 r st1 Hlen Hinit Hinv) as (st2 & E2 & H);
      [vm_compute; split; [reflexivity|discriminate]|exact E|].
    destruct H as (Hl2 & Hi2 & Hinv2 & Hcs & _). rewrite E2.
    destruct (IH st2 Hl2 Hi2 Hinv2) as (st' & E' & Hcs').
    exists st'. split; [exact E'|]. congruence.
Qed.

Lemma workload1_loop_ensure n st :
  Memgrind.workload1_loop (S n) (P1.ensure_initialized st)
  = Memgrind.workload1_loop (S n) st.
Proof.
  cbn [Memgrind.workload1_loop]. rewrite mymalloc_ensure. reflexivity.
Qed.

(** The first workload comes back from all its 240 calls and leaves the
    chunk list as it found it, or as the first call set it up. *)
Theorem test_workload1_restores (st : state) :
  state_inv st ->
  exists st',
    Memgrind.test_workload1 st = Some (Returned st')
    /\ chunks (heap st') = chunks (heap (P1.ensure_initialized st)).
Proof.
  intros Hinv. destruct (ensure_initialized_inv st Hinv) as [Hheap Hinit].
  destruct (workload1_loop_restores 120 (P1.ensure_initialized st))
    as (st' & E & Hcs); try assumption.
  { rewrite ensure_initialized_length. exact (proj1 Hinv). }
  exists st'. split; [|exact Hcs].
  unfold Memgrind.test_workload1.
  rewrite <- (workload1_loop_ensure 119). exact E.
Qed.

Lemma test_workload1_restores_witness :
  exists st',
    Memgrind.test_workload1 initial_state = Some (Returned st')
    /\ chunks (heap st') = chunks (heap (P1.ensure_initialized initial_state)).
Proof. exact (test_workload1_restores initial_state initial_state_inv). Defined.

(** The second workload, started with nothing allocated, comes back from
    all its 240 calls and leaves the arena one free chunk of 4080 bytes. *)
Theorem test_workload2_restores (st : state) :
  state_inv st ->
  Forall is_free (chunks (heap (P1.ensure_initialized st))) ->
  exists st',
    Memgrind.test_workload2 st = Some (Returned st')
    /\ chunks (heap st') = [mkChunk 0 (MEMLENGTH - sizeof_chunk) 0].
Proof.
  intros Hinv Hfree. unfold Memgrind.test_workload2.
  destruct (mallocs_total st (replicate 120 1)) as (ps & st1 & E). rewrite E.
  destruct (balanced st (replicate 120 1) ps st1 ps Hinv Hfree)
    as (st2 & E2 & Hcs & _).
  - discriminate.
  - apply Forall_replicate. vm_compute. split; discriminate.
  - exact E.
  - apply Permutation_refl.
  - exists st2. auto.
Qed.

Lemma test_workload2_restores_witness :
  exists st',
    Memgrind.test_workload2 initial_state = Some (Returned st')
    /\ chunks (heap st') = [mkChunk 0 (MEMLENGTH - sizeof_chunk) 0].
Proof.
  exact (test_workload2_restores initial_state initial_state_inv
           initial_nothing_allocated).
Defined.

(** [test_memory_reuse] never warns: where the invariants hold it either
    gets no first block or gets the same address twice.  In the second case
    it does not free that block again, which is still handed out, with its
    128 bytes or more, when the test is over. *)
Theorem test_memory_reuse_passes (st : state) :
  state_inv st ->
  exists st',
    (Validation.test_memory_reuse st
     = Some (Returned st', Some Validation.NoInitialBlock)
     /\ heap st' = heap (P1.ensure_initialized st))
    \/ (Validation.test_memory_reuse st
        = Some (Returned st', Some Validation.ReusePassed)
        /\ exists l1 l2 p s,
             allocations (chunks (heap (P1.ensure_initialized st))) = l1 ++ l2
             /\ allocations (chunks (heap st')) = l1 ++ (p, s) :: l2
             /\ 128 <= s).
Proof.
  intros Hinv. destruct (ensure_initialized_inv st Hinv) as [Hheap Hinit].
  assert (Hlen : length (heap (P1.ensure_initialized st)) = Z.to_nat MEMLENGTH).
  { rewrite ensure_initialized_length. exact (proj1 Hinv). }
  assert (Hsize : 0 < 128 <= SIZE_MOD - ALIGNMENT)
    by (vm_compute; split; [reflexivity|discriminate]).
  assert (Hsize' : 0 < 128 < SIZE_MOD) by (vm_compute; auto).
  unfold Validation.test_memory_reuse. rewrite <- (mymalloc_ensure st).
  destruct (mymalloc_total (P1.ensure_initialized st) 128) as (r & st1 & E).
  rewrite E. destruct r as [|p].
  - exists st1. left. split; [reflexivity|].
    destruct (mymalloc_by_chunks _ 128 Hsize' Hlen) as (r & st' & E' & _ & _ & Hr).
    { rewrite ensure_initialized_twice. apply Hheap. }
    rewrite E in E'. injection E' as <- <-. destruct Hr as [_ Hh].
    rewrite ensure_initialized_twice in Hh. exact Hh.
  - destruct (round_trip _ 128 p st1 Hlen Hinit Hheap Hsize E)
      as (h2 & E2 & Hl2 & Hcs & Hl1 & _ & Hi1 & _).
    rewrite E2.
    destruct (mymalloc_same_chunks (P1.ensure_initialized st)
                (with_heap st1 h2) 128 p st1 Hsize' Hlen)
      as (st3 & E3 & Hcs3);
      [cbn [heap with_heap]; congruence|exact Hinit|exact Hi1
      |apply Hheap|exact Hcs|exact E|].
    rewrite E3, Z.eqb_refl. exists st3. right. split; [reflexivity|].
    destruct (mymalloc_allocations (P1.ensure_initialized st) 128 p st1 Hsize')
      as (l1 & l2 & s & H1 & H2 & Hs & _);
      [split; [exact Hlen|intros _; apply Hheap]|exact E|].
    rewrite ensure_initialized_twice in H1.
    exists l1, l2, p, s. rewrite Hcs3.
    split; [exact H1|]. split; [exact H2|].
    destruct (aligned_size_least_multiple 128 Hsize) as (_ & [Hle _] & _). lia.
Qed.

Lemma test_memory_reuse_passes_witness :
  exists st',
    (Validation.test_memory_reuse five_leaks
     = Some (Returned st', Some Validation.NoInitialBlock)
     /\ heap st' = heap (P1.ensure_initialized five_leaks))
    \/ (Validation.test_memory_reuse five_leaks
        = Some (Returned st', Some Validation.ReusePassed)
        /\ exists l1 l2 p s,
             allocations (chunks (heap (P1.ensure_initialized five_leaks)))
             = l1 ++ l2
             /\ allocations (chunks (heap st')) = l1 ++ (p, s) :: l2
             /\ 128 <= s).
Proof. exact (test_memory_reuse_passes five_leaks five_leaks_state_inv). Defined.

Lemma SIZES_range i :
  0 < nth (Z.to_nat (i mod 5)) Validation.SIZES 0 <= SIZE_MOD - ALIGNMENT.
Proof.
  pose proof (Z.mod_pos_bound i 5 ltac:(lia)) as Hi.
  assert (Hk : (Z.to_nat (i mod 5) < 5)%nat) by lia.
  destruct (Z.to_nat (i mod 5)) as [|[|[|[|[|k]]]]]; [..|lia];
    vm_compute; split; first [reflexivity | discriminate].
Qed.

Lemma alignment_loop_passes n i st failures :
  length (heap st) = Z.to_nat MEMLENGTH ->
  initialized st = true -> heap_inv (heap st) ->
  exists st',
    Validation.alignment_loop n i st failures = Some (Returned st', failures)
    /\ chunks (heap st') = chunks (heap st).
Proof.
  revert i st. induction n as [|n IH]; intros i st Hlen Hinit Hinv.
  - exists st. auto.
  - cbn [Validation.alignment_loop]. cbv zeta.
    pose proof (SIZES_range i) as Hsize.
    destruct (mymalloc_total st (nth (Z.to_nat (i mod 5)) Validation.SIZES 0))
      as (r & st1 & E).
    rewrite E.
    destruct (malloc_free_step st _ r st1 Hlen Hinit Hinv Hsize E)
      as (st2 & E2 & Hl2 & Hi2 & Hinv2 & Hcs & Hal).
    destruct r as [|p].
    + cbn [P1.myfree] in E2. injection E2 as <-.
      destruct (IH (i + 1) st1 Hl2 Hi2 Hinv2) as (st' & E' & Hcs').
      exists st'. split; [exact E'|]. congruence.
    + rewrite E2. unfold ALIGNMENT in Hal. apply Z.eqb_eq in Hal. rewrite Hal.
      destruct (IH (i + 1) st2 Hl2 Hi2 Hinv2) as (st' & E' & Hcs').
      exists st'. split; [exact E'|]. congruence.
Qed.

Lemma alignment_loop_ensure n i st failures :
  Validation.alignment_loop (S n) i (P1.ensure_initialized st) failures
  = Validation.alignment_loop (S n) i st failures.
Proof.
  cbn [Validation.alignment_loop]. rewrite mymalloc_ensure. reflexivity.
Qed.

(** [test_alignment] counts no failure: where the invariants hold, every
    block it is given has an address that is a multiple of 8, every [free]
    comes back, and the chunk list is left as the test found it, or as the
    first call set it up. *)
Theorem test_alignment_passes (st : state) :
  state_inv st ->
  exists st',
    Validation.test_alignment st = Some (Returned st', 0)
    /\ chunks (heap st') = chunks (heap (P1.ensure_initialized st)).
Proof.
  intros Hinv. destruct (ensure_initialized_inv st Hinv) as [Hheap Hinit].
  destruct (alignment_loop_passes 20 0 (P1.ensure_initialized st) 0)
    as (st' & E & Hcs); try assumption.
  { rewrite ensure_initialized_length. exact (proj1 Hinv). }
  exists st'. split; [|exact Hcs].
  unfold Validation.test_alignment.
  rewrite <- (alignment_loop_ensure 19). exact E.
Qed.

Lemma test_alignment_passes_witness :
  exists st',
    Validation.test_alignment initial_state = Some (Returned st', 0)
    /\ chunks (heap st') = chunks (heap (P1.ensure_initialized initial_state)).
Proof. exact (test_alignment_passes initial_state initial_state_inv). Defined.

(** ** Freed space can be handed out again *)

Lemma free_in_has_room pre c post :
  Forall (fun d => 0 <= c_size d) (pre ++ c :: post) ->
  exists d, In d (free_in pre c post) /\ is_free d /\ c_size c <= c_size d.
Proof.
  intros Hnn. apply Forall_app in Hnn as [Hpre Hnn].
  apply Forall_cons in Hnn as [Hc Hpost].
  unfold free_in.
  assert (Hnext : exists c' rest,
            absorb_next c post = (c', rest) /\ c_alloc c' = 0
            /\ c_size c <= c_size c').
  { destruct post as [|n post]; cbn [absorb_next].
    - eexists _, _. split; [reflexivity|]. cbn. split; [reflexivity|lia].
    - apply Forall_cons in Hpost as [Hn _].
      destruct (c_alloc n =? 0); eexists _, _; (split; [reflexivity|]); cbn;
        (split; [reflexivity|unfold sizeof_chunk; lia]). }
  destruct Hnext as (c' & rest & -> & Hc' & Hle).
  destruct pre as [|p pre _] using rev_ind.
  - exists c'. split; [left; reflexivity|]. auto.
  - rewrite join_prev_snoc. apply Forall_app in Hpre as [_ Hp].
    apply Forall_cons in Hp as [Hp _].
    destruct (c_alloc p =? 0).
    + eexists. split; [apply in_or_app; right; left; reflexivity|].
      unfold is_free. cbn. unfold sizeof_chunk. split; [reflexivity|lia].
    + exists c'. split; [|auto].
      apply in_or_app. right. right. left. reflexivity.
Qed.

(** What is freed can be asked for again: after the [free] of a live block,
    a request whose padded size is at most the payload of that block gets a
    block, whatever else the arena holds. *)
Theorem freed_space_is_available (st : state) (c : chunk) (size : Z) :
  length (heap st) = Z.to_nat MEMLENGTH ->
  initialized st = true ->
  tiles 0 (chunks (heap st)) -> sizes_aligned (chunks (heap st)) ->
  In c (chunks (heap st)) -> is_allocated c -> c_size c <> 0 ->
  0 < size < SIZE_MOD -> P1.aligned_size size <= c_size c ->
  exists st1 p st2,
    P1.myfree st (Ptr (payload c)) = Some (Returned st1)
    /\ P1.mymalloc st1 size = Some (Ptr p, st2).
Proof.
  intros Hlen Hinit Ht Hal Hin Hc Hnz Hsize Hfit.
  pose proof (chunks_sizes_nonneg (heap st)) as Hnn.
  apply chunks_seg in Ht.
  apply in_split in Hin as (pre & post & Hcs). rewrite Hcs in *.
  destruct (myfree_member st pre c post Hlen Ht Hal Hc Hnz)
    as (h' & E & Hl' & Hseg').
  destruct (free_in_has_room pre c post Hnn) as (d & Hd & Hdf & Hdle).
  exists (with_heap st h').
  destruct (mymalloc_by_chunks (with_heap st h') size Hsize)
    as (r & st2 & E2 & _ & _ & Hr).
  { cbn [heap with_heap]. congruence. }
  { rewrite ensure_initialized_id by exact Hinit. cbn [heap with_heap].
    rewrite (seg_chunks _ _ Hseg'). eapply seg_tiles. exact Hseg'. }
  destruct r as [|p]; [|eauto].
  destruct Hr as [Hnone _].
  rewrite ensure_initialized_id in Hnone by exact Hinit.
  cbn [heap with_heap] in Hnone. rewrite (seg_chunks _ _ Hseg') in Hnone.
  pose proof (proj1 (List.Forall_forall _ _) Hnone d Hd) as Hno.
  destruct Hno. split; [exact Hdf|lia].
Qed.

Lemma freed_space_is_available_witness :
  exists st1 p st2,
    P1.myfree five_leaks (Ptr (payload (mkChunk 96 32 1)))
    = Some (Returned st1)
    /\ P1.mymalloc st1 20 = Some (Ptr p, st2).
Proof.
  apply (freed_space_is_available five_leaks (mkChunk 96 32 1) 20).
  - vm_compute. reflexivity.
  - vm_compute. reflexivity.
  - rewrite five_leaks_chunks. vm_compute. auto 10.
  - rewrite five_leaks_chunks. repeat constructor.
  - rewrite five_leaks_chunks. apply in_or_app. right. left. reflexivity.
  - unfold is_allocated. cbn. lia.
  - cbn. lia.
  - vm_compute. auto.
  - vm_compute. discriminate.
Defined.

(** ** Leaving with nothing allocated *)

Lemma nothing_allocated_count cs :
  Forall is_free cs -> allocated_count cs = 0.
Proof.
  induction 1 as [|c cs Hc _ IH]; [reflexivity|].
  rewrite allocated_count_cons, IH. unfold is_free in Hc. rewrite Hc.
  reflexivity.
Qed.

Lemma run_handlers_silent fs st :
  tiles 0 (chunks (heap st)) ->
  Forall is_free (chunks (heap st)) ->
  exists st', run_handlers P1.leak_detection fs st = Some st'
              /\ heap st' = heap st /\ stderr st' = stderr st.
Proof.
  revert st. induction fs as [|f fs IH]; intros st Ht Hfree; cbn [run_handlers].
  - eauto.
  - destruct f. cbn [run_handler].
    destruct (leak_detection_reports st Ht) as (st1 & E & Hh & _ & _ & Herr).
    rewrite E. rewrite (nothing_allocated_count _ Hfree) in Herr.
    change (0 <? 0) with false in Herr. rewrite app_nil_r in Herr.
    destruct (IH st1) as (st' & E' & Hh' & Herr');
      [rewrite Hh; exact Ht|rewrite Hh; exact Hfree|].
    exists st'. split; [exact E'|]. split; congruence.
Qed.

(** A process that ends while the arena is tiled by its chunks and none
    of them is allocated ends without a leak report: whatever the status
    and however often the scan is registered, [exit] writes nothing and
    leaves the arena as it is. *)
Theorem exit_without_leaks_is_silent (st : state) (status : Z) :
  tiles 0 (chunks (heap st)) ->
  Forall is_free (chunks (heap st)) ->
  exists e,
    P1.exit status st = Some e
    /\ exit_status e = status
    /\ stderr (final e) = stderr st
    /\ heap (final e) = heap st.
Proof.
  intros Ht Hfree. unfold P1.exit, exit_with.
  destruct (run_handlers_silent (handlers st) st Ht Hfree)
    as (st' & E & Hh & Herr).
  rewrite E. eexists. split; [reflexivity|]. cbn. auto.
Qed.

Lemma exit_without_leaks_is_silent_witness :
  tiles 0 (chunks (heap one_block_freed))
  /\ Forall is_free (chunks (heap one_block_freed))
  /\ exists e,
       P1.exit 0 one_block_freed = Some e
       /\ exit_status e = 0
       /\ stderr (final e) = stderr one_block_freed
       /\ heap (final e) = heap one_block_freed.
Proof.
  assert (E : chunks (heap one_block_freed) = [mkChunk 0 4080 0])
    by (vm_compute; reflexivity).
  assert (Ht : tiles 0 (chunks (heap one_block_freed)))
    by (rewrite E; vm_compute; auto).
  assert (Hfree : Forall is_free (chunks (heap one_block_freed)))
    by (rewrite E; repeat constructor).
  split; [exact Ht|]. split; [exact Hfree|].
  exact (exit_without_leaks_is_silent one_block_freed 0 Ht Hfree).
Defined.

(** ** Blocks do not overlap and keep what is written to them *)

Lemma fair_reachable_inv st : P1.fair_reachable st -> fair_inv st.
Proof.
  induction 1 as [|st st' _ IH Hstep]; [split; reflexivity|].
  eapply fair_step_inv; eassumption.
Qed.

Lemma chunk_at_byte h c d i :
  tiles 0 (chunks h) -> In c (chunks h) -> In d (chunks h) ->
  c_off c <= i < chunk_end c -> c_off d <= i < chunk_end d -> c = d.
Proof.
  intros Ht Hc Hd Hic Hid. apply chunks_seg in Ht.
  apply in_split in Hc as (pre & post & Hcs). rewrite Hcs in *.
  destruct (seg_split_bounds _ _ _ _ d Ht) as [Hb Ha].
  apply in_app_or in Hd as [Hd|[Hd|Hd]].
  - specialize (Hb Hd). lia.
  - exact Hd.
  - specialize (Ha Hd). lia.
Qed.

Lemma lookup_eq_dec (x y : option byte) : x = y \/ x <> y.
Proof.
  destruct x as [a|], y as [b|]; try (right; discriminate);
    [|left; reflexivity].
  destruct (Byte.byte_eq_dec a b) as [->|Hne]; [left; reflexivity|].
  right. intros [= ->]. apply Hne. reflexivity.
Qed.

(** What a client has written into a block stays there: in a run of a fair
    client, a call of [mymalloc], or a call of [myfree] on a live pointer
    that comes back, changes no payload byte of any allocated chunk, the
    payload of the block that is freed included. *)
Theorem payload_survives_calls (st st' : state) (i : Z) :
  P1.fair_reachable st ->
  owned (heap st) i ->
  (exists size r, 0 <= size < SIZE_MOD /\ P1.mymalloc st size = Some (r, st'))
  \/ (exists p, live (heap st) p /\ P1.myfree st p = Some (Returned st')) ->
  heap st' !! Z.to_nat i = heap st !! Z.to_nat i.
Proof.
  intros Hreach (d & Hd & Hda & Hid) Hcall.
  pose proof (fair_reachable_inv st Hreach) as Hfair.
  destruct (fair_inv_initialized st Hfair) as [Hinit Hinv]; [eauto|].
  pose proof (proj1 Hinv) as Ht.
  destruct (chunks_in_bounds _ d Ht Hd) as (Hd0 & _ & Hdn).
  assert (Hi : Z.of_nat (Z.to_nat i) = i)
    by (unfold payload, sizeof_chunk in Hid; lia).
  destruct (lookup_eq_dec (heap st' !! Z.to_nat i) (heap st !! Z.to_nat i))
    as [Heq|Hne]; [exact Heq|exfalso].
  destruct Hcall as [(size & r & Hsize & E)|(p & (c & Hc & Hca & ->) & E)].
  - destruct (Z.eq_dec size 0) as [->|Hnz].
    { rewrite mymalloc_zero, ensure_initialized_id in E by exact Hinit.
      injection E as <- <-. apply Hne. reflexivity. }
    assert (Hne' : heap st' !! Z.to_nat i
                   <> heap (P1.ensure_initialized st) !! Z.to_nat i)
      by (rewrite ensure_initialized_id by exact Hinit; exact Hne).
    destruct (mymalloc_bytes st size r st' (Z.to_nat i)) as (c & Hc & Hcf & Hic);
      [split; [exact (proj1 Hfair)|intros _; exact Ht]|lia|exact E|exact Hne'|].
    rewrite ensure_initialized_id in Hc by exact Hinit. rewrite Hi in Hic.
    assert (c = d).
    { apply (chunk_at_byte (heap st) c d i Ht Hc Hd); [exact Hic|].
      unfold payload, sizeof_chunk in *. lia. }
    subst c. unfold is_free, is_allocated in *. lia.
  - pose proof Hc as Hsplit.
    apply in_split in Hsplit as (pre & post & Hcs).
    destruct (chunks_in_bounds _ c Ht Hc) as (Hc0 & _ & Hcn).
    destruct (myfree_bytes st pre c post st' (Z.to_nat i) (proj1 Hfair) Ht
                Hcs E Hne) as [Hic|(q & Hlast & _ & Hiq)]; rewrite Hi in *.
    + assert (c = d).
      { apply (chunk_at_byte (heap st) c d i Ht Hc Hd);
          unfold payload, chunk_end, sizeof_chunk in *; lia. }
      subst c. unfold payload, sizeof_chunk in *. lia.
    + assert (Hq : In q (chunks (heap st))).
      { rewrite Hcs. apply in_or_app. left.
        apply last_Some in Hlast as [l ->]. apply in_or_app. right. left.
        reflexivity. }
      destruct (chunks_in_bounds _ q Ht Hq) as (Hq0 & _ & Hqn).
      assert (q = d).
      { apply (chunk_at_byte (heap st) q d i Ht Hq Hd);
          unfold payload, chunk_end, sizeof_chunk in *; lia. }
      subst q. unfold payload, sizeof_chunk in *. lia.
Qed.

Lemma payload_survives_calls_witness :
  heap (after_free five_leaks (Ptr 112)) !! Z.to_nat 120
  = heap five_leaks !! Z.to_nat 120.
Proof.
  apply (payload_survives_calls five_leaks (after_free five_leaks (Ptr 112))
           120 five_leaks_fair).
  - exists (mkChunk 96 32 1).
    split; [rewrite five_leaks_chunks; apply in_or_app; right; left;
            reflexivity|].
    split; [unfold is_allocated; cbn; lia|].
    vm_compute. split; [discriminate|reflexivity].
  - right. exists (Ptr 112). split.
    + exists (mkChunk 96 32 1).
      split; [rewrite five_leaks_chunks; apply in_or_app; right; left;
              reflexivity|].
      split; [unfold is_allocated; cbn; lia|reflexivity].
    + vm_compute. reflexivity.
Defined.

(** ** The error tests *)

Lemma leak_detection_stderr st st' :
  P1.leak_detection st = Some st' ->
  exists rest, stderr st' = stderr st ++ rest.
Proof.
  unfold P1.leak_detection.
  destruct (P1.leak_loop FUEL (heap st) 0 0 0) as [[n b]|]; [|discriminate].
  intros [= <-]. destruct (0 <? n); cbn [stderr fprintf].
  - eauto.
  - exists []. rewrite app_nil_r. reflexivity.
Qed.

Lemma run_handlers_stderr fs st st' :
  run_handlers P1.leak_detection fs st = Some st' ->
  exists rest, stderr st' = stderr st ++ rest.
Proof.
  revert st. induction fs as [|f fs IH]; intros st; cbn [run_handlers].
  - intros [= <-]. exists []. rewrite app_nil_r. reflexivity.
  - destruct f. cbn [run_handler].
    destruct (P1.leak_detection st) as [st1|] eqn:E; [|discriminate].
    apply leak_detection_stderr in E as [r1 Herr].
    intros Hrest. apply IH in Hrest as [rest Hrest].
    rewrite Hrest, Herr, <- app_assoc. eauto.
Qed.

Lemma fatal_stderr st d :
  tiles 0 (chunks (heap st)) ->
  exists e rest,
    P1.fatal st d = Some (Exited e)
    /\ exit_status e = 2
    /\ stderr (final e) = stderr st ++ d :: rest.
Proof.
  intros Ht. unfold P1.fatal, P1.exit, exit_with.
  destruct (run_handlers_tiled (handlers (fprintf st d)) (fprintf st d) Ht)
    as [st' E].
  rewrite E. apply run_handlers_stderr in E as [rest Hrest].
  eexists _, rest. split; [reflexivity|]. split; [reflexivity|].
  cbn [final]. rewrite Hrest. cbn [stderr fprintf].
  rewrite <- app_assoc. reflexivity.
Qed.

(** [test_free_offset_pointer] ends the process: where the invariants hold
    and the test gets its block, [free(p + 1)] ends the process with status
    2, and what it writes starts with the line for a misaligned pointer. *)
Theorem test_free_offset_pointer_exits (st : state) :
  state_inv st ->
  exists o,
    ErrorTest.test_free_offset_pointer st = Some o
    /\ match o with
       | Returned st' => P1.mymalloc st 40 = Some (NULL, st')
       | Exited e =>
           exit_status e = 2
           /\ exists rest,
                stderr (final e) = stderr st ++ FreeMisaligned :: rest
       end.
Proof.
  intros Hinv. unfold ErrorTest.test_free_offset_pointer.
  destruct (mymalloc_total st 40) as (r & st1 & E). rewrite E.
  destruct r as [|p]; [exists (Returned st1); auto|].
  assert (Hsize : 0 < 40 <= SIZE_MOD - ALIGNMENT)
    by (vm_compute; split; [reflexivity|discriminate]).
  assert (Ht1 : tiles 0 (chunks (heap st1))).
  { destruct (mymalloc_inv st 40 (Ptr p) st1) as [[_ Hh1] Hi1];
      [unfold SIZE_MOD; lia|exact Hinv|exact E|].
    exact (proj1 (Hh1 Hi1)). }
  destruct (mymalloc_block_at st 40 p st1 Hinv Hsize E)
    as (pre & c & post & s & Hcs & _ & -> & Hseg & _ & Hs & Hal).
  destruct (seg_in_bounds _ _ _ _ c Hseg) as (H0 & _ & Hend & _).
  { apply in_or_app. right. left. reflexivity. }
  assert (Herr : stderr st1 = stderr st).
  { destruct (mymalloc_by_chunks st 40) as (r & st' & E' & _ & _ & Hr);
      [vm_compute; auto|exact (proj1 Hinv)
      |apply (ensure_initialized_inv st Hinv)|].
    rewrite E in E'. injection E' as <- <-.
    destruct Hr as (_ & _ & _ & _ & _ & _ & _ & _ & _ & Herr). exact Herr. }
  unfold P1.myfree, payload, chunk_end, sizeof_chunk, MEMLENGTH, ALIGNMENT in *.
  replace ((c_off c + 16 + 4 <? 0) || (c_off c + 16 + 4 >=? 4096)) with false
    by (symmetry; apply orb_false_iff; lia).
  replace ((c_off c + 16 + 4) mod 8 =? 0) with false.
  2:{ symmetry. apply Z.eqb_neq.
      pose proof (Z.div_mod (c_off c) 8) as D1.
      pose proof (Z.div_mod (c_off c + 16 + 4) 8) as D2.
      pose proof (Z.mod_pos_bound (c_off c + 16 + 4) 8) as D3. lia. }
  cbn [negb].
  destruct (fatal_stderr st1 FreeMisaligned Ht1) as (e & rest & -> & Hst & Hout).
  exists (Exited e). split; [reflexivity|]. split; [exact Hst|].
  exists rest. rewrite Hout, Herr. reflexivity.
Qed.

Lemma test_free_offset_pointer_exits_witness :
  exists o,
    ErrorTest.test_free_offset_pointer initial_state = Some o
    /\ match o with
       | Returned st' => P1.mymalloc initial_state 40 = Some (NULL, st')
       | Exited e =>
           exit_status e = 2
           /\ exists rest,
                stderr (final e)
                = stderr initial_state ++ FreeMisaligned :: rest
       end.
Proof.
  exact (test_free_offset_pointer_exits initial_state initial_state_inv).
Defined.

(** [test_double_free] ends the process: where the invariants hold and the
    test gets its block, the first [free] comes back and the second ends the
    process with status 2, and what it writes starts with the line for a
    double free. *)
Theorem test_double_free_exits (st : state) :
  state_inv st ->
  exists o,
    ErrorTest.test_double_free st = Some o
    /\ match o with
       | Returned st' => P1.mymalloc st 40 = Some (NULL, st')
       | Exited e =>
           exit_status e = 2
           /\ exists rest, stderr (final e) = stderr st ++ FreeDouble :: rest
       end.
Proof.
  intros Hinv. unfold ErrorTest.test_double_free.
  destruct (mymalloc_total st 40) as (r & st1 & E). rewrite E.
  destruct r as [|p]; [exists (Returned st1); auto|].
  assert (Hsize : 0 < 40 <= SIZE_MOD - ALIGNMENT)
    by (vm_compute; split; [reflexivity|discriminate]).
  destruct (ensure_initialized_inv st Hinv) as [Hheap Hinit].
  assert (Hlen : length (heap (P1.ensure_initialized st)) = Z.to_nat MEMLENGTH).
  { rewrite ensure_initialized_length. exact (proj1 Hinv). }
  pose proof E as E0. rewrite <- mymalloc_ensure in E0.
  destruct (round_trip _ 40 p st1 Hlen Hinit Hheap Hsize E0)
    as (h2 & E2 & Hl2 & Hcs2 & _ & _ & _ & Herr).
  rewrite E2.
  destruct (mymalloc_block_at st 40 p st1 Hinv Hsize E)
    as (pre & c & post & s & Hcs & Hfree & -> & Hseg & _ & Hs & Hal).
  destruct (seg_in_bounds _ _ _ _ c Hseg) as (H0 & _ & Hend & _).
  { apply in_or_app. right. left. reflexivity. }
  assert (Hin : In c (chunks h2)).
  { rewrite Hcs2, Hcs. apply in_or_app. right. left. reflexivity. }
  unfold chunks in Hin. apply walk_reads in Hin.
  assert (Hsz : get_size h2 (c_off c) = c_size c)
    by (rewrite Hin at 2; reflexivity).
  assert (Hfl : get_allocated h2 (c_off c) = 0)
    by (rewrite <- Hfree; rewrite Hin at 2; reflexivity).
  assert (Hc8 : c_size c mod ALIGNMENT = 0).
  { destruct Hheap as (_ & Ha & _). rewrite Hcs in Ha.
    apply Forall_app in Ha as [_ Ha]. apply Forall_cons in Ha as [Ha _].
    exact Ha. }
  pose proof (add_header_aligned _ Hal) as Hp8.
  assert (Ht2 : tiles 0 (chunks (heap (with_heap st1 h2)))).
  { cbn [heap with_heap]. rewrite Hcs2. exact (proj1 Hheap). }
  unfold P1.myfree. cbn [heap with_heap]. cbv zeta.
  unfold payload, chunk_end, sizeof_chunk, MEMLENGTH, ALIGNMENT in *.
  replace ((c_off c + 16 <? 0) || (c_off c + 16 >=? 4096)) with false
    by (symmetry; apply orb_false_iff; lia).
  rewrite Hp8. cbn [Z.eqb negb].
  replace (c_off c + 16 - 16) with (c_off c) by lia.
  rewrite Hsz, Hfl, Hc8. cbn [Z.eqb negb orb].
  rewrite advance_inside by (unfold MEMLENGTH; lia).
  replace ((c_off c <? 0) || (c_off c + (16 + c_size c) >? 4096)
           || (c_size c =? 0)) with false.
  2:{ symmetry. apply orb_false_iff. split; [apply orb_false_iff|]; lia. }
  cbn [orb].
  destruct (fatal_stderr (with_heap st1 h2) FreeDouble Ht2)
    as (e & rest & -> & Hst & Hout).
  exists (Exited e). split; [reflexivity|]. split; [exact Hst|].
  exists rest. rewrite Hout. cbn [stderr with_heap]. rewrite Herr.
  unfold P1.ensure_initialized. destruct (initialized st); reflexivity.
Qed.

Lemma test_double_free_exits_witness :
  exists o,
    ErrorTest.test_double_free initial_state = Some o
    /\ match o with
       | Returned st' => P1.mymalloc initial_state 40 = Some (NULL, st')
       | Exited e =>
           exit_status e = 2
           /\ exists rest,
                stderr (final e) = stderr initial_state ++ FreeDouble :: rest
       end.
Proof. exact (test_double_free_exits initial_state initial_state_inv). Defined.

(** ** The leak scan at the end of a run *)

Lemma fair_reachable_reachable st : P1.fair_reachable st -> P1.reachable st.
Proof.
  induction 1 as [|st st' _ IH Hstep]; [apply P1.reach_start|].
  eapply P1.reach_step; [exact IH|].
  destruct Hstep as [st size p st' Hsize E|st st' E|st p st' _ E|st i b Hown].
  - eapply P1.step_malloc; eassumption.
  - eapply P1.step_free. exact E.
  - eapply P1.step_free. exact E.
  - apply P1.step_poke. exact Hown.
Qed.

(** In a run of a fair client [exit] gets to its end, and so does every
    call of [myfree]. *)
Lemma fair_exit_ends st :
  P1.fair_reachable st ->
  (forall status, is_Some (P1.exit status st))
  /\ (forall ptr, is_Some (P1.myfree st ptr)).
Proof.
  intros Hfair.
  pose proof (reachable_registered st (fair_reachable_reachable st Hfair))
    as Hreg.
  destruct (fair_reachable_inv st Hfair) as [_ Hcase].
  unfold registered_once in Hreg.
  assert (Hexit : forall s d,
            heap s = heap st -> handlers s = handlers st ->
            is_Some (P1.exit d s)).
  { intros s d Hh Hr. destruct (initialized st).
    - destruct Hcase as (Ht & _). rewrite <- Hh in Ht.
      destruct (exit_tiled d s Ht) as (e & -> & _). eauto.
    - rewrite exit_unregistered by congruence. eauto. }
  split.
  - intros status. apply Hexit; reflexivity.
  - intros [|p]; [cbn; eauto|].
    destruct (accepted_dec (heap st) p) as [Hacc|Hrej].
    + rewrite (myfree_accepted _ _ Hacc).
      destruct (release_total (heap st) (p - sizeof_chunk)) as [h' ->]. eauto.
    + destruct (myfree_rejected _ _ Hrej) as (d & ->). unfold P1.fatal.
      destruct (Hexit (fprintf st d) 2 eq_refl eq_refl) as [e ->]. eauto.
Qed.

(** C6 (as the code has it). In every state a run of the program can
    reach, the leak scan is registered once if the arena has been
    initialized and not at all otherwise; so whenever the process ends
    through [exit], whether by returning from [main] with any status or on
    one of the fatal paths of [myfree], which call [exit(2)], the scan has
    run exactly once if [mymalloc] was ever called and never if it was not.
    And in a run that hands [myfree] only null or live pointers the process
    does end there: [exit] comes to its end with every status, and every
    call of [myfree] returns or ends the process. *)
Theorem leak_scan_runs_at_every_exit (st : state) :
  P1.reachable st ->
  (forall status e,
     P1.exit status st = Some e ->
     exit_status e = status
     /\ leak_scans e = if initialized st then 1%nat else 0%nat)
  /\ (forall ptr e,
        P1.myfree st ptr = Some (Exited e) ->
        exit_status e = 2
        /\ leak_scans e = if initialized st then 1%nat else 0%nat)
  /\ (P1.fair_reachable st ->
      (forall status, is_Some (P1.exit status st))
      /\ (forall ptr, is_Some (P1.myfree st ptr))).
Proof.
  intros Hreach. apply reachable_registered in Hreach as Hreg.
  split; [|split].
  - intros status e E. apply exit_frame in E as (Hs & Hr & _).
    split; [exact Hs|]. apply leak_scans_registered; assumption.
  - intros [|p] e E; [discriminate E|].
    destruct (accepted_dec (heap st) p) as [Hacc|Hrej].
    + rewrite (myfree_accepted _ _ Hacc) in E.
      destruct (P1.release (heap st) (p - sizeof_chunk)); discriminate E.
    + destruct (myfree_rejected _ _ Hrej) as (d & Hd). rewrite Hd in E.
      apply fatal_frame in E as (e' & [= <-] & Hs & Hr & _).
      split; [exact Hs|]. apply leak_scans_registered; assumption.
  - apply fair_exit_ends.
Qed.

Lemma leak_scan_runs_at_every_exit_witness :
  P1.reachable five_leaks
  /\ (forall status e,
        P1.exit status five_leaks = Some e ->
        exit_status e = status
        /\ leak_scans e = if initialized five_leaks then 1%nat else 0%nat)
  /\ (forall ptr e,
        P1.myfree five_leaks ptr = Some (Exited e) ->
        exit_status e = 2
        /\ leak_scans e = if initialized five_leaks then 1%nat else 0%nat)
  /\ (P1.fair_reachable five_leaks ->
      (forall status, is_Some (P1.exit status five_leaks))
      /\ (forall ptr, is_Some (P1.myfree five_leaks ptr))).
Proof.
  assert (H : P1.reachable five_leaks)
    by exact (fair_reachable_reachable five_leaks five_leaks_fair).
  split; [exact H|]. exact (leak_scan_runs_at_every_exit five_leaks H).
Defined.
